(** * KanaShift / PhonoShift (ROT500K family): the Python libraries in Rocq

    A shallow embedding of [src/ports/python/phonoshift.py] and
    [src/src-python/kanashift.py], followed by the properties of the
    specification that were checked against them and by further properties
    of the verified modes, the auto-select mode and the rotators.

    - A Python [str] is the list of its code points ([Py.str], a [list Z]);
      [bytes] is a list of integers in [0, 256).
    - [hashlib.pbkdf2_hmac("sha256", ...)] and [hmac.new(..., sha256)] are
      modelled by an executable SHA-256 / HMAC / PBKDF2 ([Hashlib]), so every
      function below can be evaluated on concrete passwords and salts.
    - A [for] loop over a string that threads a cursor ([kpos]) or a token
      buffer is a structural recursion carrying that state.
    - [raise ValueError] is the [Raise] constructor of [result]. *)

From Stdlib Require Import String Ascii ZArith NArith List Bool Lia ZifyBool Uint63 DecimalString.
From Stdlib.Strings Require Import Byte.
Import ListNotations.
Local Open Scope Z_scope.

(* ================================================================== *)
(** * Python strings, bytes and a few builtins *)
(* ================================================================== *)

Module Py.

Definition str : Set := list Z.
Definition bytes : Set := list Z.

(** A one-scalar literal such as ["a"] or a fullwidth digit, written as in
    the source and read as its code point. *)
Definition cont (b : byte) : Z := Z.land (Z.of_N (Byte.to_N b)) 63.

Definition scalar_of_bytes (bs : list byte) : option Z :=
  match bs with
  | [a] => Some (Z.of_N (Byte.to_N a))
  | [a; b] => Some (Z.land (Z.of_N (Byte.to_N a)) 31 * 64 + cont b)
  | [a; b; c] => Some ((Z.land (Z.of_N (Byte.to_N a)) 15 * 64 + cont b) * 64 + cont c)
  | [a; b; c; d] =>
      Some (((Z.land (Z.of_N (Byte.to_N a)) 7 * 64 + cont b) * 64 + cont c) * 64 + cont d)
  | _ => None
  end.

Definition no_print (z : Z) : option (list byte) := None.

(** A string literal of the source, read as its code points (UTF-8 decoding
    of the bytes of the literal). *)
Fixpoint decode_utf8 (bs : list Z) (acc : Z) (pending : nat) : str :=
  match bs with
  | [] => []
  | b :: r =>
      match pending with
      | O =>
          if b <? 128 then b :: decode_utf8 r 0 0
          else if b <? 224 then decode_utf8 r (Z.land b 31) 1
          else if b <? 240 then decode_utf8 r (Z.land b 15) 2
          else decode_utf8 r (Z.land b 7) 3
      | S O => (acc * 64 + Z.land b 63) :: decode_utf8 r 0 0
      | S n => decode_utf8 r (acc * 64 + Z.land b 63) n
      end
  end.

Definition lit (s : string) : str :=
  decode_utf8 (map (fun a => Z.of_N (N_of_ascii a)) (list_ascii_of_string s)) 0 0.

(** [s.encode("utf-8")] on a sequence of Unicode scalar values. *)
Definition utf8_bytes (c : Z) : bytes :=
  if c <? 128 then [c]
  else if c <? 2048 then [Z.lor 192 (Z.shiftr c 6); Z.lor 128 (Z.land c 63)]
  else if c <? 65536 then
    [Z.lor 224 (Z.shiftr c 12); Z.lor 128 (Z.land (Z.shiftr c 6) 63); Z.lor 128 (Z.land c 63)]
  else
    [Z.lor 240 (Z.shiftr c 18); Z.lor 128 (Z.land (Z.shiftr c 12) 63);
     Z.lor 128 (Z.land (Z.shiftr c 6) 63); Z.lor 128 (Z.land c 63)].

Definition encode_utf8 (s : str) : bytes := flat_map utf8_bytes s.

(** [len(s)] *)
Definition len (s : str) : Z := Z.of_nat (length s).

(** [c in s] for a one-scalar [c] *)
Definition contains (s : str) (c : Z) : bool := existsb (Z.eqb c) s.

(** [s.find(c)] for a one-scalar [c]: the first index, or -1 *)
Fixpoint find (s : str) (c : Z) : Z :=
  match s with
  | [] => -1
  | x :: r => if x =? c then 0 else let i := find r c in if i <? 0 then -1 else i + 1
  end.

(** [s[j]] for an index [0 <= j < len(s)] (the only way the sources index) *)
Definition index (s : str) (j : Z) : Z := nth (Z.to_nat j) s 0.

(** [sum(1 for c in s if p(c))] *)
Fixpoint count (p : Z -> bool) (s : str) : Z :=
  match s with
  | [] => 0
  | c :: r => (if p c then 1 else 0) + count p r
  end.

(** [str(n)] of an integer, as an f-string renders it *)
Definition str_of_int (n : Z) : str :=
  map (fun a => Z.of_N (N_of_ascii a)) (list_ascii_of_string (NilZero.string_of_int (Z.to_int n))).

(** [ch.upper()] and [ch.lower()]; the sources apply them to ASCII letters only *)
Definition upper (c : Z) : Z := if (97 <=? c) && (c <=? 122) then c - 32 else c.
Definition lower (c : Z) : Z := if (65 <=? c) && (c <=? 90) then c + 32 else c.

(** [sep.join(parts)] and [s.split(sep)] for a one-scalar separator *)
Fixpoint join (sep : str) (parts : list str) : str :=
  match parts with
  | [] => []
  | [p] => p
  | p :: rest => p ++ sep ++ join sep rest
  end.

Fixpoint split (sep : Z) (s : str) : list str :=
  match s with
  | [] => [[]]
  | c :: r =>
      if c =? sep then [] :: split sep r
      else match split sep r with
           | p :: ps => (c :: p) :: ps
           | [] => [[c]]
           end
  end.

(** [s.lstrip(chars)] and [s.strip(chars)] *)
Fixpoint lstrip (s chars : str) {struct s} : str :=
  match s with
  | [] => []
  | c :: r => if contains chars c then lstrip r chars else s
  end.

Definition strip (s chars : str) : str := rev (lstrip (rev (lstrip s chars)) chars).

End Py.

Declare Scope chr_scope.
Delimit Scope chr_scope with chr.
String Notation Z Py.scalar_of_bytes Py.no_print : chr_scope.
Arguments Py.lit s%_string.

(* ================================================================== *)
(** * hashlib / hmac: SHA-256, HMAC-SHA256 and PBKDF2 (FIPS 180-4, RFC 2104,
      RFC 8018) on 32-bit words held in primitive integers *)
(* ================================================================== *)

Module Hashlib.
Local Open Scope uint63_scope.

Definition mask32 : int := 0xFFFFFFFF.
Definition add32 (a b : int) : int := (a + b) land mask32.
Definition rotr (n x : int) : int := (x >> n) lor ((x << (32 - n)) land mask32).
Definition Ch (x y z : int) : int := (x land y) lxor ((x lxor mask32) land z).
Definition Maj (x y z : int) : int := ((x land y) lxor (x land z)) lxor (y land z).
Definition bsig0 (x : int) : int := (rotr 2 x lxor rotr 13 x) lxor rotr 22 x.
Definition bsig1 (x : int) : int := (rotr 6 x lxor rotr 11 x) lxor rotr 25 x.
Definition ssig0 (x : int) : int := (rotr 7 x lxor rotr 18 x) lxor (x >> 3).
Definition ssig1 (x : int) : int := (rotr 17 x lxor rotr 19 x) lxor (x >> 10).

Definition K256 : list int :=
 [0x428A2F98; 0x71374491; 0xB5C0FBCF; 0xE9B5DBA5; 0x3956C25B; 0x59F111F1; 0x923F82A4; 0xAB1C5ED5;
  0xD807AA98; 0x12835B01; 0x243185BE; 0x550C7DC3; 0x72BE5D74; 0x80DEB1FE; 0x9BDC06A7; 0xC19BF174;
  0xE49B69C1; 0xEFBE4786; 0x0FC19DC6; 0x240CA1CC; 0x2DE92C6F; 0x4A7484AA; 0x5CB0A9DC; 0x76F988DA;
  0x983E5152; 0xA831C66D; 0xB00327C8; 0xBF597FC7; 0xC6E00BF3; 0xD5A79147; 0x06CA6351; 0x14292967;
  0x27B70A85; 0x2E1B2138; 0x4D2C6DFC; 0x53380D13; 0x650A7354; 0x766A0ABB; 0x81C2C92E; 0x92722C85;
  0xA2BFE8A1; 0xA81A664B; 0xC24B8B70; 0xC76C51A3; 0xD192E819; 0xD6990624; 0xF40E3585; 0x106AA070;
  0x19A4C116; 0x1E376C08; 0x2748774C; 0x34B0BCB5; 0x391C0CB3; 0x4ED8AA4A; 0x5B9CCA4F; 0x682E6FF3;
  0x748F82EE; 0x78A5636F; 0x84C87814; 0x8CC70208; 0x90BEFFFA; 0xA4506CEB; 0xBEF9A3F7; 0xC67178F2].

Record regs : Set :=
  Regs { ra : int; rb : int; rc : int; rd : int; re : int; rf : int; rg : int; rh : int }.

Definition H256 : regs :=
  Regs 0x6A09E667 0xBB67AE85 0x3C6EF372 0xA54FF53A 0x510E527F 0x9B05688C 0x1F83D9AB 0x5BE0CD19.

Definition round (s : regs) (k w : int) : regs :=
  let t1 := add32 (add32 (add32 (add32 (rh s) (bsig1 (re s))) (Ch (re s) (rf s) (rg s))) k) w in
  let t2 := add32 (bsig0 (ra s)) (Maj (ra s) (rb s) (rc s)) in
  Regs (add32 t1 t2) (ra s) (rb s) (rc s) (add32 (rd s) t1) (re s) (rf s) (rg s).

(** The message schedule is kept as a window of the last sixteen words. *)
Definition next_word (w : list int) : int :=
  add32 (add32 (add32 (ssig1 (nth 14 w 0)) (nth 9 w 0)) (ssig0 (nth 1 w 0))) (nth 0 w 0).

Fixpoint rounds (ks w : list int) (s : regs) : regs :=
  match ks with
  | [] => s
  | k :: ks' => rounds ks' (tl w ++ [next_word w]) (round s k (hd 0 w))
  end.

Fixpoint be_words (n : nat) (bs : list int) : list int :=
  match n with
  | O => []
  | S m =>
      ((nth 0 bs 0 << 24) lor (nth 1 bs 0 << 16) lor (nth 2 bs 0 << 8) lor nth 3 bs 0)
        :: be_words m (skipn 4 bs)
  end.

Definition compress (s : regs) (block : list int) : regs :=
  let t := rounds K256 (be_words 16 block) s in
  Regs (add32 (ra s) (ra t)) (add32 (rb s) (rb t)) (add32 (rc s) (rc t)) (add32 (rd s) (rd t))
       (add32 (re s) (re t)) (add32 (rf s) (rf t)) (add32 (rg s) (rg t)) (add32 (rh s) (rh t)).

Fixpoint absorb (n : nat) (bs : list int) (s : regs) : regs :=
  match n with
  | O => s
  | S m => absorb m (skipn 64 bs) (compress s (firstn 64 bs))
  end.

Definition word_bytes (w : int) : list int :=
  [(w >> 24) land 255; (w >> 16) land 255; (w >> 8) land 255; w land 255].

Definition pad (msg : list int) : list int :=
  let n := length msg in
  let zeros := ((119 - n mod 64) mod 64)%nat in
  let bits := of_Z (Z.of_nat n * 8) in
  msg ++ [128] ++ repeat 0 zeros ++ word_bytes (bits >> 32) ++ word_bytes bits.

Definition digest_bytes (s : regs) : list int :=
  word_bytes (ra s) ++ word_bytes (rb s) ++ word_bytes (rc s) ++ word_bytes (rd s) ++
  word_bytes (re s) ++ word_bytes (rf s) ++ word_bytes (rg s) ++ word_bytes (rh s).

Definition sha256 (msg : list int) : list int :=
  let p := pad msg in
  digest_bytes (absorb (length p / 64) p H256).

Fixpoint xor_bytes (a b : list int) : list int :=
  match a, b with
  | x :: a', y :: b' => (x lxor y) :: xor_bytes a' b'
  | _, _ => []
  end.

Definition hmac (key msg : list int) : list int :=
  let k0 := if (64 <? length key)%nat then sha256 key else key in
  let k := k0 ++ repeat 0 (64 - length k0) in
  sha256 (map (Uint63.lxor 92) k ++ sha256 (map (Uint63.lxor 54) k ++ msg)).

(** One PBKDF2 block: [U1 xor U2 xor ... xor Uc]. *)
Definition pbkdf2_step (password : list int) (ut : list int * list int) : list int * list int :=
  let u := hmac password (fst ut) in (u, xor_bytes (snd ut) u).

Definition pbkdf2_block (password salt : list int) (c : N) (i : int) : list int :=
  let u1 := hmac password (salt ++ word_bytes i) in
  snd (N.iter (N.pred c) (pbkdf2_step password) (u1, u1)).

(** An output byte as a Python integer. *)
Definition byte_value (b : int) : Z := Z.land (to_Z b) 255.

(** [hashlib.pbkdf2_hmac("sha256", password, salt, iterations, dklen)] *)
Definition pbkdf2_hmac_sha256 (password salt : Py.bytes) (iterations : Z) (dklen : nat)
  : Py.bytes :=
  let p := map of_Z password in
  let s := map of_Z salt in
  let blocks := ((dklen + 31) / 32)%nat in
  map byte_value
    (firstn dklen
       (flat_map (fun i => pbkdf2_block p s (Z.to_N iterations) (of_Z (Z.of_nat i)))
          (seq 1 blocks))).

(** [hmac.new(key, msg, hashlib.sha256).digest()] *)
Definition hmac_sha256 (key msg : Py.bytes) : Py.bytes :=
  map byte_value (hmac (map of_Z key) (map of_Z msg)).

End Hashlib.

(* ================================================================== *)
(** * Helpers that phonoshift.py and kanashift.py define identically *)
(* ================================================================== *)

Module Shared.
Import Py.
Local Open Scope chr_scope.

Definition is_separator (ch : Z) : bool := (ch =? " ") || (ch =? "-") || (ch =? "'").

Definition is_digit (ch : Z) : bool := ("0" <=? ch) && (ch <=? "9").

Definition is_ascii_upper (ch : Z) : bool := ("A" <=? ch) && (ch <=? "Z").

Definition is_ascii_lower (ch : Z) : bool := ("a" <=? ch) && (ch <=? "z").

Definition to_lower_ascii (ch : Z) : Z :=
  if is_ascii_upper ch then Z.lor ch 0x20 else ch.

Definition effective_shift (shift set_size : Z) : Z :=
  if set_size <=? 1 then 0
  else
    let m := shift mod set_size in
    if m =? 0 then (if shift >=? 0 then 1 else -1) else m.

Definition rotate_in_set_no_zero (set_chars : str) (ch shift : Z) : Z :=
  let n := len set_chars in
  let idx := find set_chars ch in
  if idx <? 0 then ch
  else
    let eff := effective_shift shift n in
    let j := (idx + eff) mod n in
    index set_chars j.

(** The keystream of both libraries ([derive_keystream] / [pbkdf2_keystream]). *)
Definition keystream (password salt : str) (iterations need_bytes : Z) : bytes :=
  let need_bytes := if need_bytes <? 32 then 32 else need_bytes in
  Hashlib.pbkdf2_hmac_sha256 (encode_utf8 password) (encode_utf8 salt)
    (Z.max 1 iterations) (Z.to_nat need_bytes).

Definition hmac_sha256_bytes (key_str msg_str : str) : bytes :=
  Hashlib.hmac_sha256 (encode_utf8 key_str) (encode_utf8 msg_str).

(** [kpos += 1; if kpos >= len(ks): kpos = 0] *)
Definition next_kpos (ks : bytes) (kpos : nat) : nat :=
  if (length ks <=? S kpos)%nat then O else S kpos.

(** [ks[kpos]] *)
Definition key_byte (ks : bytes) (kpos : nat) : Z := nth kpos ks 0.

(** Equality of two strings ([a != b] is its negation). *)
Fixpoint str_eqb (a b : str) : bool :=
  match a, b with
  | [], [] => true
  | x :: a', y :: b' => (x =? y) && str_eqb a' b'
  | _, _ => false
  end.

(** The two [ValueError]s of [attach_checks_to_cipher]. *)
Inductive attach_error : Set :=
  | TokenCheckCountMismatch   (* "... token/check count mismatch." *)
  | UnusedChecksRemain.       (* "... unused checks remain." *)

Inductive result (A : Type) : Type :=
  | Ok (a : A)
  | Raise (e : attach_error).
Arguments Ok {A} a.
Arguments Raise {A} e.

Record VerifiedResult : Set := mkVerified { ok : bool; value : str }.

(** ** The token layer (KT), up to the separator set and the check function

    [build_plain_token_checks], [attach_checks_to_cipher] and
    [strip_checks_from_tagged] are the same code in both files; they differ
    in [is_token_sep] and in how [flush] computes the check of a token. The
    loop state ([checks]/[out]/[base]/[given], the buffer [tok], [tok_idx])
    is passed explicitly; [flush] returns the state it leaves, the buffer
    being empty afterwards. *)
Section TokenLayer.

Variable is_token_sep : Z -> bool.
(** the check string [flush] appends for token number [tok_idx] with text [t] *)
Variable token_check : nat -> str -> str.

Definition build_flush (checks : list str) (tok : str) (tok_idx : nat) : list str * nat :=
  match tok with
  | [] => (checks, tok_idx)
  | _ => (checks ++ [token_check tok_idx tok], S tok_idx)
  end.

Fixpoint build_loop (plain : str) (checks : list str) (tok : str) (tok_idx : nat)
  : list str :=
  match plain with
  | [] => fst (build_flush checks tok tok_idx)
  | c :: rest =>
      if is_token_sep c then
        let (checks', tok_idx') := build_flush checks tok tok_idx in
        build_loop rest checks' [] tok_idx'
      else build_loop rest checks (tok ++ [c]) tok_idx
  end.

Definition attach_flush (checks : list str) (out tok : str) (tok_idx : nat)
  : result (str * nat) :=
  match tok with
  | [] => Ok (out, tok_idx)
  | _ =>
      if (length checks <=? tok_idx)%nat then Raise TokenCheckCountMismatch
      else Ok (out ++ tok ++ nth tok_idx checks [], S tok_idx)
  end.

Fixpoint attach_loop (checks : list str) (cipher out tok : str) (tok_idx : nat)
  : result str :=
  match cipher with
  | [] =>
      match attach_flush checks out tok tok_idx with
      | Raise e => Raise e
      | Ok (out', tok_idx') =>
          if negb (tok_idx' =? length checks)%nat then Raise UnusedChecksRemain
          else Ok out'
      end
  | c :: rest =>
      if is_token_sep c then
        match attach_flush checks out tok tok_idx with
        | Raise e => Raise e
        | Ok (out', tok_idx') => attach_loop checks rest (out' ++ [c]) [] tok_idx'
        end
      else attach_loop checks rest out (tok ++ [c]) tok_idx
  end.

Definition attach_checks_to_cipher (cipher : str) (checks : list str) : result str :=
  attach_loop checks cipher [] [] 0.

(** [flush] of [strip_checks_from_tagged]: [None] is its [False]. *)
Definition strip_flush (n : nat) (base : str) (given : list str) (tok : str)
  : option (str * list str) :=
  match tok with
  | [] => Some (base, given)
  | _ =>
      if (length tok <=? n)%nat then None
      else
        let chk := skipn (length tok - n) tok in       (* t[-n:] *)
        let base_tok := firstn (length tok - n) tok in (* t[:-n] *)
        Some (base ++ base_tok, given ++ [chk])
  end.

Fixpoint strip_loop (n : nat) (tagged base : str) (given : list str) (tok : str)
  : option (str * list str) :=
  match tagged with
  | [] => strip_flush n base given tok
  | c :: rest =>
      if is_token_sep c then
        match strip_flush n base given tok with
        | None => None
        | Some (base', given') => strip_loop n rest (base' ++ [c]) given' []
        end
      else strip_loop n rest base given (tok ++ [c])
  end.

Definition strip_checks_from_tagged (tagged : str) (check_chars_per_token : Z)
  : option (str * list str) :=
  let n := Z.to_nat (Z.max 1 check_chars_per_token) in
  strip_loop n tagged [] [] [].

End TokenLayer.

(** The tail of both token decoders: compare the expected checks with the
    given ones and build the [VerifiedResult]. *)
Definition compare_checks (expected given_checks : list str) (plain : str) : VerifiedResult :=
  if negb (length expected =? length given_checks)%nat then mkVerified false []
  else if existsb (fun ab => negb (str_eqb (fst ab) (snd ab))) (combine expected given_checks)
  then mkVerified false []
  else mkVerified true plain.

End Shared.

(* ================================================================== *)
(** * src/ports/python/phonoshift.py *)
(* ================================================================== *)

Module PhonoShift.
Import Py.
Export Shared.
Local Open Scope chr_scope.

Definition to_upper_ascii (ch : Z) : Z :=
  if is_ascii_lower ch then Z.land ch (Z.lnot 0x20) else ch.

Definition derive_keystream : str -> str -> Z -> Z -> bytes := keystream.

(** Alphabets of [transform_name_name_like_fpe] *)
Definition VOW_LO : str := Eval vm_compute in lit "aeiou".
Definition CON_LO : str := Eval vm_compute in lit "bcdfghjklmnpqrstvwxyz".
Definition VOW_LO_PT : str := Eval vm_compute in lit "áàâãäéèêëíìîïóòôõöúùûü".
Definition VOW_UP_PT : str := Eval vm_compute in lit "ÁÀÂÃÄÉÈÊËÍÌÎÏÓÒÔÕÖÚÙÛÜ".
Definition CON_LO_PT : str := Eval vm_compute in lit "ç".
Definition CON_UP_PT : str := Eval vm_compute in lit "Ç".

(** The body of the [for c in s] loop: the scalar appended to [out_chars]
    and the cursor after it. *)
Definition fpe_step (ks : bytes) (direction : Z) (c : Z) (kpos : nat) : Z * nat :=
  if is_separator c then (c, kpos)
  else
    let shift := (key_byte ks kpos + 1) * direction in
    let kpos := next_kpos ks kpos in
    if is_digit c then
      let d := c - 48 in
      let nd := (d + shift mod 10 + 10) mod 10 in
      (48 + nd, kpos)
    else
      let upper := is_ascii_upper c || contains VOW_UP_PT c || contains CON_UP_PT c in
      let lc := if is_ascii_upper c then to_lower_ascii c else c in
      if contains VOW_LO lc then
        let ch := rotate_in_set_no_zero VOW_LO lc shift in
        (if upper then to_upper_ascii ch else ch, kpos)
      else if contains CON_LO lc then
        let ch := rotate_in_set_no_zero CON_LO lc shift in
        (if upper then to_upper_ascii ch else ch, kpos)
      else if contains VOW_LO_PT c then (rotate_in_set_no_zero VOW_LO_PT c shift, kpos)
      else if contains VOW_UP_PT c then (rotate_in_set_no_zero VOW_UP_PT c shift, kpos)
      else if contains CON_LO_PT c then (rotate_in_set_no_zero CON_LO_PT c shift, kpos)
      else if contains CON_UP_PT c then (rotate_in_set_no_zero CON_UP_PT c shift, kpos)
      else (c, kpos).

Fixpoint fpe_loop (ks : bytes) (direction : Z) (s : str) (kpos : nat) : str :=
  match s with
  | [] => []
  | c :: rest =>
      let (o, kpos') := fpe_step ks direction c kpos in
      o :: fpe_loop ks direction rest kpos'
  end.

Definition transform_name_name_like_fpe
  (s password : str) (iterations : Z) (salt : str) (direction : Z) : str :=
  match s with
  | [] => s
  | _ =>
      let ks := derive_keystream password salt iterations (len s + 64) in
      fpe_loop ks direction s 0
  end.

(** ** Optional punctuation shifting *)

Definition P_OPEN : str := Eval vm_compute in lit "¿¡".
Definition P_END : str := Eval vm_compute in lit "!?".

Definition is_shift_punct (ch : Z) : bool := contains P_OPEN ch || contains P_END ch.

Fixpoint punct_loop (ks : bytes) (direction : Z) (s : str) (kpos : nat) : str :=
  match s with
  | [] => []
  | c :: rest =>
      if negb (is_shift_punct c) then c :: punct_loop ks direction rest kpos
      else
        let shift := (key_byte ks kpos + 1) * direction in
        let kpos' := next_kpos ks kpos in
        (if contains P_OPEN c then rotate_in_set_no_zero P_OPEN c shift
         else rotate_in_set_no_zero P_END c shift)
          :: punct_loop ks direction rest kpos'
  end.

Definition punct_shift_apply
  (s password : str) (iterations : Z) (salt : str) (direction : Z) : str :=
  match s with
  | [] => s
  | _ =>
      let need := count is_shift_punct s in
      if need =? 0 then s
      else
        let punct_salt := salt ++ lit "|PunctShift:v1" in
        let ks := derive_keystream password punct_salt iterations (need + 64) in
        punct_loop ks direction s 0
  end.

(** ** Public API: ROT500K (base) *)

Definition rot500k_encrypt
  (name password : str) (iterations : Z) (salt : str) (shift_punctuation : bool) : str :=
  let r := transform_name_name_like_fpe name password iterations salt 1 in
  if shift_punctuation then punct_shift_apply r password iterations salt 1 else r.

Definition rot500k_decrypt
  (obfuscated password : str) (iterations : Z) (salt : str) (shift_punctuation : bool) : str :=
  let s := if shift_punctuation then punct_shift_apply obfuscated password iterations salt (-1)
           else obfuscated in
  transform_name_name_like_fpe s password iterations salt (-1).

(** ** ROT500KT (token-verified) *)

Definition is_token_sep (ch : Z) : bool :=
  (ch =? " ") || (ch =? "-") || (ch =? "'") || (ch =? ".") || (ch =? ",") || (ch =? "!")
  || (ch =? "?") || (ch =? ":") || (ch =? ";") || (ch =? 9) || (ch =? 10) || (ch =? 13).

Definition is_all_digits_str (s : str) : bool :=
  match s with [] => false | _ => forallb is_digit s end.

Fixpoint is_all_upper_loop (s : str) (has_letter : bool) : bool :=
  match s with
  | [] => has_letter
  | c :: rest =>
      if ("a" <=? c) && (c <=? "z") then false
      else if ("A" <=? c) && (c <=? "Z") then is_all_upper_loop rest true
      else is_all_upper_loop rest has_letter
  end.

Definition is_all_upper_ascii (s : str) : bool := is_all_upper_loop s false.

Definition CONSET : str := Eval vm_compute in lit "bcdfghjklmnpqrstvwxyz".

Definition token_digest
  (password salt : str) (iterations : Z) (token_index : nat) (token_plain : str) : bytes :=
  let msg := lit "PhonoShiftTok:v1" ++ ["|"] ++ salt ++ ["|"] ++ str_of_int iterations
             ++ ["|"] ++ str_of_int (Z.of_nat token_index) ++ ["|"] ++ token_plain in
  hmac_sha256_bytes password msg.

Inductive kind : Set := digits | alpha.

Definition make_token_check
  (token_plain : str) (k : kind) (mac_bytes : bytes) (check_chars_per_token : Z) : str :=
  let n := Z.to_nat (Z.max 1 check_chars_per_token) in
  let upper_mode :=
    (match k with alpha => true | digits => false end) && is_all_upper_ascii token_plain in
  map (fun i =>
         let b := nth (Z.to_nat (Z.land (Z.of_nat i * 7) 31)) mac_bytes 0 in
         match k with
         | digits => 48 + b mod 10
         | alpha =>
             let ch := index CONSET (b mod len CONSET) in
             if upper_mode then upper ch else ch
         end)
      (seq 0 n).

(** What [flush] appends in [build_plain_token_checks]. *)
Definition token_check
  (password salt : str) (iterations check_chars_per_token : Z) (tok_idx : nat) (t : str) : str :=
  let k := if is_all_digits_str t then digits else alpha in
  let mac := token_digest password salt iterations tok_idx t in
  make_token_check t k mac check_chars_per_token.

Definition build_plain_token_checks
  (plain password salt : str) (iterations check_chars_per_token : Z) : list str :=
  build_loop is_token_sep (token_check password salt iterations check_chars_per_token)
    plain [] [] 0.

Definition attach_checks_to_cipher (cipher : str) (checks : list str) : result str :=
  Shared.attach_checks_to_cipher is_token_sep cipher checks.

Definition strip_checks_from_tagged (tagged : str) (check_chars_per_token : Z)
  : option (str * list str) :=
  Shared.strip_checks_from_tagged is_token_sep tagged check_chars_per_token.

Definition rot500k_token_tagged
  (name password : str) (iterations : Z) (salt : str) (check_chars_per_token : Z)
  (shift_punctuation : bool) : result str :=
  let cipher := transform_name_name_like_fpe name password iterations salt 1 in
  let checks := build_plain_token_checks name password salt iterations check_chars_per_token in
  match attach_checks_to_cipher cipher checks with
  | Raise e => Raise e
  | Ok out =>
      Ok (if shift_punctuation then punct_shift_apply out password iterations salt 1 else out)
  end.

Definition rot500k_token_tagged_decrypt
  (tagged password : str) (iterations : Z) (salt : str) (check_chars_per_token : Z)
  (shift_punctuation : bool) : VerifiedResult :=
  let s := if shift_punctuation then punct_shift_apply tagged password iterations salt (-1)
           else tagged in
  match strip_checks_from_tagged s check_chars_per_token with
  | None => mkVerified false []
  | Some (base_cipher, given_checks) =>
      let plain := transform_name_name_like_fpe base_cipher password iterations salt (-1) in
      let expected :=
        build_plain_token_checks plain password salt iterations check_chars_per_token in
      compare_checks expected given_checks plain
  end.

(** ** ROT500KP (prefix-verified) *)

Definition ROT500K_TAG_DOMAIN : str := Eval vm_compute in lit "PhonoShiftTag:v1".
Definition PT_LETTERS : str :=
  Eval vm_compute in lit "áàâãäéèêëíìîïóòôõöúùûüÁÀÂÃÄÉÈÊËÍÌÎÏÓÒÔÕÖÚÙÛÜçÇ".

Definition only_letters_ascii_or_pt (c : Z) : bool :=
  (("A" <=? c) && (c <=? "Z")) || (("a" <=? c) && (c <=? "z")) || contains PT_LETTERS c.

Inductive case_style : Set := style_upper | style_lower | style_title.

(** The loop of [detect_case_style] over its three flags. *)
Fixpoint detect_case_loop (plain : str) (has_letter any_upper any_lower : bool)
  : bool * bool * bool :=
  match plain with
  | [] => (has_letter, any_upper, any_lower)
  | c :: rest =>
      if negb (only_letters_ascii_or_pt c) then
        detect_case_loop rest has_letter any_upper any_lower
      else if ("A" <=? c) && (c <=? "Z") then detect_case_loop rest true true any_lower
      else if ("a" <=? c) && (c <=? "z") then detect_case_loop rest true any_upper true
      else detect_case_loop rest true true true
  end.

Definition detect_case_style (plain : str) : case_style :=
  let '(has_letter, any_upper, any_lower) := detect_case_loop plain false false false in
  if negb has_letter then style_title
  else if any_upper && negb any_lower then style_upper
  else if any_lower && negb any_upper then style_lower
  else style_title.

Definition apply_case_style_to_word (w : str) (style : case_style) : str :=
  match w with
  | [] => w
  | _ =>
      match style with
      | style_upper => map upper w
      | style_lower => map lower w
      | style_title =>
          let low := map lower w in
          map upper (firstn 1 low) ++ skipn 1 low
      end
  end.

Definition apply_case_style_to_phrase (phrase : str) (style : case_style) : str :=
  join [" "] (map (fun p => apply_case_style_to_word p style) (split " " phrase)).

Definition make_pronounceable_word_from_bytes (mac : bytes) (offset : Z) (syllables : nat)
  : str :=
  let CSet := CONSET in
  let VSet := VOW_LO in
  flat_map (fun i =>
              let x := nth (Z.to_nat (Z.land (offset + Z.of_nat i) 31)) mac 0 in
              let c_idx := x mod len CSet in
              let v_idx := (x / len CSet) mod len VSet in
              [index CSet c_idx; index VSet v_idx])
           (seq 0 syllables).

Definition pick_punct_from_bytes (mac : bytes) : str :=
  nth (Z.to_nat (nth 0 mac 0 mod 2)) [lit "? "; lit "! "] [].

Definition build_tag_prefix_for_plaintext
  (plain password : str) (iterations : Z) (salt : str) : str :=
  let msg := ROT500K_TAG_DOMAIN ++ ["|"] ++ salt ++ ["|"] ++ str_of_int iterations
             ++ ["|"] ++ plain in
  let mac := hmac_sha256_bytes password msg in
  let w1 := make_pronounceable_word_from_bytes mac 1 3 in
  let w2 := make_pronounceable_word_from_bytes mac 4 3 in
  let phrase := w1 ++ [" "] ++ w2 in
  let punct := pick_punct_from_bytes mac in
  let style := detect_case_style plain in
  apply_case_style_to_phrase phrase style ++ punct.

(** [split_tagged_prefix]: [pre] is [tagged[:i]] at position [i]. *)
Fixpoint split_loop (pre tagged : str) : option (str * str) :=
  match tagged with
  | c :: rest =>
      match rest with
      | c1 :: cipher =>
          if ((c =? "?") || (c =? "!")) && (c1 =? " ") then
            match cipher with
            | [] => None
            | _ => Some (pre ++ [c], cipher)
            end
          else split_loop (pre ++ [c]) rest
      | [] => None
      end
  | [] => None
  end.

Definition split_tagged_prefix (tagged : str) : option (str * str) := split_loop [] tagged.

Definition rot500k_prefix_tagged
  (name password : str) (iterations : Z) (salt : str) (shift_punctuation : bool) : str :=
  let cipher := transform_name_name_like_fpe name password iterations salt 1 in
  let prefix := build_tag_prefix_for_plaintext name password iterations salt in
  let out := prefix ++ cipher in
  if shift_punctuation then punct_shift_apply out password iterations salt 1 else out.

Definition rot500k_prefix_tagged_decrypt
  (tagged password : str) (iterations : Z) (salt : str) (shift_punctuation : bool)
  : VerifiedResult :=
  let s := if shift_punctuation then punct_shift_apply tagged password iterations salt (-1)
           else tagged in
  match split_tagged_prefix s with
  | None => mkVerified false []
  | Some (prefix_given, cipher) =>
      let plain := transform_name_name_like_fpe cipher password iterations salt (-1) in
      let expected := build_tag_prefix_for_plaintext plain password iterations salt in
      let expected_no_space := removelast expected in
      if negb (str_eqb expected_no_space prefix_given) then mkVerified false []
      else mkVerified true plain
  end.

(** ** ROT500KV (verified auto-select): the decoding side *)

Definition rot500kv_safe_decrypt
  (obfuscated password : str) (iterations : Z) (salt : str) (check_chars_per_token : Z)
  (shift_punctuation : bool) : VerifiedResult :=
  let kt := rot500k_token_tagged_decrypt obfuscated password iterations salt
              check_chars_per_token shift_punctuation in
  if ok kt then kt
  else
    let kp := rot500k_prefix_tagged_decrypt obfuscated password iterations salt
                shift_punctuation in
    if ok kp then kp else mkVerified false [].

Definition rot500kv_decrypt
  (obfuscated password : str) (iterations : Z) (salt : str) (check_chars_per_token : Z)
  (shift_punctuation : bool) : VerifiedResult :=
  rot500kv_safe_decrypt obfuscated password iterations salt check_chars_per_token
    shift_punctuation.

(** ** ROT500KV (verified auto-select): the heuristics and the encoding side *)

(** The scalars of the literal tested by [contains_structured_delimiters]:
    braces, brackets, double quote, backslash, angle brackets, space, equals
    sign and colon. *)
Definition STRUCTURED_DELIMITERS : str :=
  ["{"; "}"; "["; "]"; 34; "\"; "<"; ">"; " "; "="; ":"].

Definition contains_structured_delimiters (s : str) : bool :=
  existsb (fun c => contains STRUCTURED_DELIMITERS c) s.

(** The loop of [count_tokens_simple] over [count] and [in_tok]. *)
Fixpoint count_tokens_loop (s : str) (count : Z) (in_tok : bool) : Z :=
  match s with
  | [] => count
  | c :: rest =>
      if is_token_sep c then count_tokens_loop rest count false
      else if negb in_tok then count_tokens_loop rest (count + 1) true
      else count_tokens_loop rest count in_tok
  end.

Definition count_tokens_simple (s : str) : Z := count_tokens_loop s 0 false.

(** [min(min_len, cur)], where [None] is [math.inf]. *)
Definition min_inf (min_len : option Z) (cur : Z) : option Z :=
  match min_len with
  | None => Some cur
  | Some m => Some (Z.min m cur)
  end.

(** The loop of [min_token_len_simple] over [min_len], [cur] and [in_tok]. *)
Fixpoint min_token_len_loop (s : str) (min_len : option Z) (cur : Z) (in_tok : bool)
  : option Z :=
  match s with
  | [] => if in_tok then min_inf min_len cur else min_len
  | c :: rest =>
      if is_token_sep c then
        min_token_len_loop rest (if in_tok then min_inf min_len cur else min_len) 0 false
      else min_token_len_loop rest min_len (cur + 1) true
  end.

Definition min_token_len_simple (s : str) : Z :=
  match min_token_len_loop s None 0 false with
  | None => 0
  | Some m => m
  end.

Definition should_use_token_tagged (plain : str) (check_chars_per_token : Z) : bool :=
  let n := Z.max 1 check_chars_per_token in
  if contains_structured_delimiters plain then false
  else
    let tok_count := count_tokens_simple plain in
    let min_len := min_token_len_simple plain in
    (tok_count >=? 2) && (min_len >? n) && (len plain >=? 6).

(** The helpers nested in [looks_like_rot500k_cipher]. *)
Definition is_ascii_letter (ch : Z) : bool :=
  (("A" <=? ch) && (ch <=? "Z")) || (("a" <=? ch) && (ch <=? "z")).

Definition is_consonant_ascii (ch : Z) : bool :=
  let low := if ("A" <=? ch) && (ch <=? "Z") then to_lower_ascii ch else ch in
  contains (lit "bcdfghjklmnpqrstvwxyz") low.

(** [looks_like_kp_prefix_at_start]: [pre] is [x[:i]] at position [i], and
    [budget] what is left of the [min(len(x) - 1, 49)] positions. *)
Fixpoint kp_prefix_loop (budget : nat) (pre x : str) : bool :=
  match budget with
  | O => false
  | S budget' =>
      match x with
      | c :: rest =>
          match rest with
          | c1 :: _ =>
              if ((c =? "?") || (c =? "!")) && (c1 =? " ") then
                if negb (contains pre " ") then false
                else
                  forallb (fun ch => is_ascii_letter ch
                                     || ((ch =? " ") || (ch =? "-") || (ch =? "'")))
                    pre
              else kp_prefix_loop budget' (pre ++ [c]) rest
          | [] => false
          end
      | [] => false
      end
  end.

Definition looks_like_kp_prefix_at_start (x : str) : bool := kp_prefix_loop 49 [] x.

(** [finish] of [looks_like_kt_token_tagged]: the counters it leaves. *)
Definition kt_finish (N : nat) (tok : str) (good total : Z) : Z * Z :=
  match tok with
  | [] => (good, total)
  | _ =>
      let total := total + 1 in
      if (N <? length tok)%nat then
        let suf := skipn (length tok - N) tok in
        let ok_digits := forallb (fun ch => ("0" <=? ch) && (ch <=? "9")) suf in
        let ok_cons := forallb is_consonant_ascii suf in
        if ok_digits || ok_cons then (good + 1, total) else (good, total)
      else (good, total)
  end.

Fixpoint kt_scan (N : nat) (x tok : str) (good total : Z) : Z * Z :=
  match x with
  | [] => kt_finish N tok good total
  | c :: rest =>
      if is_token_sep c then
        let (good', total') := kt_finish N tok good total in
        kt_scan N rest [] good' total'
      else kt_scan N rest (tok ++ [c]) good total
  end.

Definition looks_like_kt_token_tagged (N : nat) (x : str) : bool :=
  let (good, total) := kt_scan N x [] 0 0 in
  if total <? 2 then false else (good * 100) / total >=? 70.

Definition looks_like_rot500k_cipher (s : str) (check_chars_per_token : Z) : bool :=
  let N := Z.to_nat (Z.max 1 check_chars_per_token) in
  match s with
  | [] => false
  | _ =>
      let trimmed := strip s [" "; 9; 13; 10] in
      match trimmed with
      | [] => false
      | _ => looks_like_kp_prefix_at_start trimmed || looks_like_kt_token_tagged N trimmed
      end
  end.

Definition rot500kv_safe_encrypt
  (name password : str) (iterations : Z) (salt : str) (check_chars_per_token : Z)
  (shift_punctuation : bool) : result str :=
  if should_use_token_tagged name check_chars_per_token then
    rot500k_token_tagged name password iterations salt check_chars_per_token shift_punctuation
  else Ok (rot500k_prefix_tagged name password iterations salt shift_punctuation).

(** The check length [rot500kv] encrypts with. *)
Definition hardened_check_chars (name : str) (check_chars_per_token : Z) : Z :=
  let eff := Z.max 1 check_chars_per_token in
  let eff := if len name <? 12 then Z.max eff 2 else eff in
  if len name <? 6 then Z.max eff 3 else eff.

Definition rot500kv
  (name password : str) (iterations : Z) (salt : str) (check_chars_per_token : Z)
  (shift_punctuation : bool) : result str :=
  let r := rot500kv_safe_decrypt name password iterations salt check_chars_per_token
             shift_punctuation in
  if looks_like_rot500k_cipher name check_chars_per_token && ok r then Ok (value r)
  else
    rot500kv_safe_encrypt name password iterations salt
      (hardened_check_chars name check_chars_per_token) shift_punctuation.

End PhonoShift.

(* ================================================================== *)
(** * src/src-python/kanashift.py *)
(* ================================================================== *)

Module KanaShift.
Import Py.
Export Shared.
Local Open Scope chr_scope.

Definition is_fullwidth_digit (ch : Z) : bool := ("０" <=? ch) && (ch <=? "９").

Definition rotate_in_set_allow_zero (set_chars : str) (ch shift : Z) : Z :=
  let n := len set_chars in
  let idx := find set_chars ch in
  if idx <? 0 then ch
  else
    let m := shift mod n in
    let j := (idx + m) mod n in
    index set_chars j.

Definition pbkdf2_keystream : str -> str -> Z -> Z -> bytes := keystream.

(** ** Punctuation translation (ASCII <-> JP fullwidth) *)

Definition _PUNCT_ENC_MAP : list (Z * Z) :=
  [ ("?", "？"); ("!", "！"); (",", "、"); (".", "。"); (":", "："); (";", "；");
    ("(", "（"); (")", "）"); ("[", "［"); ("]", "］"); ("{", "｛"); ("}", "｝");
    (34, "＂") ].

Definition _PUNCT_DEC_MAP : list (Z * Z) := map (fun kv => (snd kv, fst kv)) _PUNCT_ENC_MAP.

(** [mp.get(c, c)] *)
Fixpoint dict_get (mp : list (Z * Z)) (c default : Z) : Z :=
  match mp with
  | [] => default
  | (k, v) :: rest => if k =? c then v else dict_get rest c default
  end.

Definition punct_translate (s : str) (direction : Z) : str :=
  match s with
  | [] => s
  | _ =>
      let mp := if direction >? 0 then _PUNCT_ENC_MAP else _PUNCT_DEC_MAP in
      map (fun c => dict_get mp c c) s
  end.

(** ** Keyed JP punctuation shifting *)

Definition P_END : str := Eval vm_compute in lit "！？".
Definition P_MID : str := Eval vm_compute in lit "、。・".

Definition _is_shift_punct (ch : Z) : bool := contains P_END ch || contains P_MID ch.

Fixpoint punct_loop (ks : bytes) (direction : Z) (s : str) (kpos : nat) : str :=
  match s with
  | [] => []
  | c :: rest =>
      if negb (_is_shift_punct c) then c :: punct_loop ks direction rest kpos
      else
        let shift := Z.land (key_byte ks kpos) 0xFF * direction in
        let kpos' := next_kpos ks kpos in
        (if contains P_END c then rotate_in_set_no_zero P_END c shift
         else rotate_in_set_no_zero P_MID c shift)
          :: punct_loop ks direction rest kpos'
  end.

Definition punct_shift_apply
  (s password : str) (iterations : Z) (salt : str) (direction : Z) : str :=
  match s with
  | [] => s
  | _ =>
      let need := count _is_shift_punct s in
      if need =? 0 then s
      else
        let ks := pbkdf2_keystream password (salt ++ lit "|PunctShiftJP:v2") iterations
                    (need + 64) in
        punct_loop ks direction s 0
  end.

(** ** Family A: Latin/PT rendered as kana, case-preserving *)

Definition P_VOW_LO : str := Eval vm_compute in lit "aeiou".
Definition P_VOW_UP : str := Eval vm_compute in lit "AEIOU".
Definition P_CON_LO : str := Eval vm_compute in lit "bcdfghjklmnpqrstvwxyz".
Definition P_CON_UP : str := Eval vm_compute in lit "BCDFGHJKLMNPQRSTVWXYZ".
Definition P_VOW_LO_PT : str := Eval vm_compute in lit "áàâãäéèêëíìîïóòôõöúùûü".
Definition P_VOW_UP_PT : str := Eval vm_compute in lit "ÁÀÂÃÄÉÈÊËÍÌÎÏÓÒÔÕÖÚÙÛÜ".
Definition C_CED_LO : Z := "ゞ".
Definition C_CED_UP : Z := "ヾ".
Definition C_VOW_LO : str := Eval vm_compute in lit "あいうえお".
Definition C_CON_LO : str := Eval vm_compute in lit "さしすせそたちつてとなにぬねのはひふへほま".
Definition C_VOW_UP : str := Eval vm_compute in lit "アイウエオ".
Definition C_CON_UP : str := Eval vm_compute in lit "サシスセソタチツテトナニヌネノハヒフヘホマ".
Definition C_ACC_LO : str := Eval vm_compute in lit "かきくけこみむめもやゆよらりるれろわをんゐゑゔゝ".
Definition C_ACC_UP : str := Eval vm_compute in lit "カキクケコミムメモヤユヨラリルレロワヲンヰヱヴヽ".

Definition map_rotate (plain_set cipher_set : str) (ch shift dirn : Z) : option Z :=
  let n := len plain_set in
  if n <=? 1 then None
  else
    let idx := if dirn >? 0 then find plain_set ch else find cipher_set ch in
    if idx <? 0 then None
    else
      let j := (idx + shift mod n) mod n in
      Some (if dirn >? 0 then index cipher_set j else index plain_set j).

(** [x or c] for an optional one-scalar string [x] *)
Definition or_else (x : option Z) (c : Z) : Z :=
  match x with Some o => o | None => c end.

(** The letter cascade of the loop body when [direction > 0] ... *)
Definition skin_encode_letter (c shift : Z) : Z :=
  if contains P_VOW_LO c then or_else (map_rotate P_VOW_LO C_VOW_LO c shift 1) c
  else if contains P_CON_LO c then or_else (map_rotate P_CON_LO C_CON_LO c shift 1) c
  else if contains P_VOW_UP c then or_else (map_rotate P_VOW_UP C_VOW_UP c shift 1) c
  else if contains P_CON_UP c then or_else (map_rotate P_CON_UP C_CON_UP c shift 1) c
  else if contains P_VOW_LO_PT c then or_else (map_rotate P_VOW_LO_PT C_ACC_LO c shift 1) c
  else if contains P_VOW_UP_PT c then or_else (map_rotate P_VOW_UP_PT C_ACC_UP c shift 1) c
  else if c =? "ç" then C_CED_LO
  else if c =? "Ç" then C_CED_UP
  else c.

(** ... and when it is not. *)
Definition skin_decode_letter (c shift : Z) : Z :=
  if contains C_VOW_LO c then or_else (map_rotate P_VOW_LO C_VOW_LO c shift (-1)) c
  else if contains C_CON_LO c then or_else (map_rotate P_CON_LO C_CON_LO c shift (-1)) c
  else if contains C_VOW_UP c then or_else (map_rotate P_VOW_UP C_VOW_UP c shift (-1)) c
  else if contains C_CON_UP c then or_else (map_rotate P_CON_UP C_CON_UP c shift (-1)) c
  else if contains C_ACC_LO c then or_else (map_rotate P_VOW_LO_PT C_ACC_LO c shift (-1)) c
  else if contains C_ACC_UP c then or_else (map_rotate P_VOW_UP_PT C_ACC_UP c shift (-1)) c
  else if c =? C_CED_LO then "ç"
  else if c =? C_CED_UP then "Ç"
  else c.

(** The body of the [for c in text] loop of [_skin_transform]. *)
Definition skin_step (ks : bytes) (direction : Z) (c : Z) (kpos : nat) : Z * nat :=
  if is_separator c then (c, kpos)
  else
    let shift := (Z.land (key_byte ks kpos) 0xFF + 1) * direction in
    let kpos := next_kpos ks kpos in
    if direction >? 0 then
      if is_digit c then
        let d := c - 48 in
        let nd := (d + shift mod 10 + 10) mod 10 in
        ("０" + nd, kpos)
      else (skin_encode_letter c shift, kpos)
    else
      if is_digit c || is_fullwidth_digit c then
        let d := if is_digit c then c - 48 else c - "０" in
        let nd := (d + shift mod 10 + 10) mod 10 in
        (48 + nd, kpos)
      else (skin_decode_letter c shift, kpos).

Fixpoint skin_loop (ks : bytes) (direction : Z) (text : str) (kpos : nat) : str :=
  match text with
  | [] => []
  | c :: rest =>
      let (o, kpos') := skin_step ks direction c kpos in
      o :: skin_loop ks direction rest kpos'
  end.

Definition _skin_transform
  (text password : str) (iterations : Z) (salt : str) (direction : Z) : str :=
  match text with
  | [] => text
  | _ =>
      let ks := pbkdf2_keystream password salt iterations (len text + 64) in
      skin_loop ks direction text 0
  end.

Definition kanashift_skin_encrypt
  (text password : str) (iterations : Z) (salt : str) (shift_punctuation : bool) : str :=
  let r := _skin_transform text password iterations salt 1 in
  let r := punct_translate r 1 in
  if shift_punctuation then punct_shift_apply r password iterations salt 1 else r.

Definition kanashift_skin_decrypt
  (obfuscated password : str) (iterations : Z) (salt : str) (shift_punctuation : bool) : str :=
  let s := if shift_punctuation then punct_shift_apply obfuscated password iterations salt (-1)
           else obfuscated in
  let s := punct_translate s (-1) in
  _skin_transform s password iterations salt (-1).

(** ** Family B: JP-native (JP -> JP) with ASCII shifting *)

Definition is_kanji (ch : Z) : bool := (0x4E00 <=? ch) && (ch <=? 0x9FFF).

Definition rotate_codepoint_range_no_zero (ch shift lo hi : Z) : Z :=
  let cp := ch in
  if (cp <? lo) || (cp >? hi) then ch
  else
    let n := hi - lo + 1 in
    let eff := effective_shift shift n in
    let idx := cp - lo in
    let j := (idx + eff) mod n in
    lo + j.

Definition build_kana_set (from_cp to_cp : Z) : str :=
  map (fun i => from_cp + Z.of_nat i) (seq 0 (Z.to_nat (to_cp + 1 - from_cp))).

Definition JP_HIRA : str := Eval vm_compute in build_kana_set 0x3041 0x3096.
Definition JP_KATA : str := Eval vm_compute in build_kana_set 0x30A1 0x30FA.

Definition is_hiragana (ch : Z) : bool := (0x3041 <=? ch) && (ch <=? 0x3096).

Definition is_katakana (ch : Z) : bool := (0x30A1 <=? ch) && (ch <=? 0x30FA).

Definition is_stable_jp_mark (ch : Z) : bool :=
  (ch =? "ー") || (ch =? "々") || (ch =? "ゝ") || (ch =? "ゞ") || (ch =? "ヽ") || (ch =? "ヾ").

Definition rotate_ascii_alpha_phono (ch shift : Z) : Z :=
  let V := P_VOW_LO in
  let C := P_CON_LO in
  if is_ascii_upper ch then
    let low := to_lower_ascii ch in
    if contains V low then upper (rotate_in_set_allow_zero V low shift)
    else if contains C low then upper (rotate_in_set_allow_zero C low shift)
    else ch
  else if is_ascii_lower ch then
    if contains V ch then rotate_in_set_allow_zero V ch shift
    else if contains C ch then rotate_in_set_allow_zero C ch shift
    else ch
  else ch.

(** The part of the loop body after the digits: kana, kanji, anything else. *)
Definition jp_rotate_kana_kanji (c shift : Z) : Z :=
  if is_hiragana c then rotate_in_set_no_zero JP_HIRA c shift
  else if is_katakana c then rotate_in_set_no_zero JP_KATA c shift
  else if is_kanji c then rotate_codepoint_range_no_zero c shift 0x4E00 0x9FFF
  else c.

(** The body of the [for c in text] loop of [_jp_native_transform]. *)
Definition jp_step (ks : bytes) (direction : Z) (c : Z) (kpos : nat) : Z * nat :=
  if is_separator c then (c, kpos)
  else if is_stable_jp_mark c then (c, kpos)
  else
    let shift := Z.land (key_byte ks kpos) 0xFF * direction in
    let kpos := next_kpos ks kpos in
    if is_ascii_upper c || is_ascii_lower c then (rotate_ascii_alpha_phono c shift, kpos)
    else if direction >? 0 then
      if is_digit c then
        let d := c - 48 in
        let eff := effective_shift shift 10 in
        let nd := (d + eff + 10) mod 10 in
        ("０" + nd, kpos)
      else if is_fullwidth_digit c then
        let d := c - "０" in
        let eff := effective_shift shift 10 in
        let nd := (d + eff + 10) mod 10 in
        ("０" + nd, kpos)
      else (jp_rotate_kana_kanji c shift, kpos)
    else
      if is_digit c || is_fullwidth_digit c then
        let d := if is_digit c then c - 48 else c - "０" in
        let eff := effective_shift shift 10 in
        let nd := (d + eff + 10) mod 10 in
        (48 + nd, kpos)
      else (jp_rotate_kana_kanji c shift, kpos).

Fixpoint jp_loop (ks : bytes) (direction : Z) (text : str) (kpos : nat) : str :=
  match text with
  | [] => []
  | c :: rest =>
      let (o, kpos') := jp_step ks direction c kpos in
      o :: jp_loop ks direction rest kpos'
  end.

Definition _jp_native_transform
  (text password : str) (iterations : Z) (salt : str) (direction : Z) : str :=
  match text with
  | [] => text
  | _ =>
      let ks := pbkdf2_keystream password (salt ++ lit "|JPNative:v2|AsciiShift") iterations
                  (len text + 64) in
      jp_loop ks direction text 0
  end.

Definition kanashift_jp_encrypt
  (text password : str) (iterations : Z) (salt : str) (shift_punctuation : bool) : str :=
  let r := _jp_native_transform text password iterations salt 1 in
  let r := punct_translate r 1 in
  if shift_punctuation then punct_shift_apply r password iterations salt 1 else r.

Definition kanashift_jp_decrypt
  (obfuscated password : str) (iterations : Z) (salt : str) (shift_punctuation : bool) : str :=
  let s := if shift_punctuation then punct_shift_apply obfuscated password iterations salt (-1)
           else obfuscated in
  let s := punct_translate s (-1) in
  _jp_native_transform s password iterations salt (-1).

(** ** KT token verification (shared by both families) *)

Definition is_token_sep (ch : Z) : bool :=
  (ch =? " ") || (ch =? "　") || (ch =? "-") || (ch =? "'") || (ch =? ".") || (ch =? ",")
  || (ch =? "!") || (ch =? "?") || (ch =? ":") || (ch =? ";")
  || (ch =? "。") || (ch =? "、") || (ch =? "！") || (ch =? "？") || (ch =? "：")
  || (ch =? "；") || (ch =? "・")
  || (ch =? "「") || (ch =? "」") || (ch =? "『") || (ch =? "』") || (ch =? "（")
  || (ch =? "）") || (ch =? "［") || (ch =? "］") || (ch =? "｛") || (ch =? "｝")
  || (ch =? 9) || (ch =? 10) || (ch =? 13).

Definition is_all_digits_str_anywidth (s : str) : bool :=
  match s with
  | [] => false
  | _ => forallb (fun c => is_digit c || is_fullwidth_digit c) s
  end.

Inductive kind : Set := digits | alpha.

Definition KANA_CHK : str := Eval vm_compute in lit "さしすせそたちつてとなにぬねのはひふへほま".

Definition make_token_check (k : kind) (mac : bytes) (check_chars_per_token : Z) : str :=
  let n := Z.to_nat (Z.max 1 check_chars_per_token) in
  map (fun i =>
         let b := nth (Z.to_nat (Z.land (Z.of_nat i * 7) 31)) mac 0 in
         match k with
         | digits => "０" + b mod 10
         | alpha => index KANA_CHK (b mod len KANA_CHK)
         end)
      (seq 0 n).

Definition token_digest
  (password salt : str) (iterations : Z) (token_index : nat) (token_plain domain : str)
  : bytes :=
  let msg := domain ++ ["|"] ++ salt ++ ["|"] ++ str_of_int iterations
             ++ ["|"] ++ str_of_int (Z.of_nat token_index) ++ ["|"] ++ token_plain in
  hmac_sha256_bytes password msg.

(** What [flush] appends in [build_plain_token_checks]. *)
Definition token_check
  (password salt : str) (iterations check_chars_per_token : Z) (domain : str)
  (norm_fn : option (str -> str)) (tok_idx : nat) (t : str) : str :=
  let k := if is_all_digits_str_anywidth t then digits else alpha in
  let tnorm := match norm_fn with Some f => f t | None => t end in
  let mac := token_digest password salt iterations tok_idx tnorm domain in
  make_token_check k mac check_chars_per_token.

Definition build_plain_token_checks
  (plain password salt : str) (iterations check_chars_per_token : Z) (domain : str)
  (norm_fn : option (str -> str)) : list str :=
  build_loop is_token_sep
    (token_check password salt iterations check_chars_per_token domain norm_fn)
    plain [] [] 0.

Definition attach_checks_to_cipher (cipher : str) (checks : list str) : result str :=
  Shared.attach_checks_to_cipher is_token_sep cipher checks.

Definition strip_checks_from_tagged (tagged : str) (check_chars_per_token : Z)
  : option (str * list str) :=
  Shared.strip_checks_from_tagged is_token_sep tagged check_chars_per_token.

Definition TOK_DOMAIN_SKIN : str := Eval vm_compute in lit "KanaShiftTok:v2".
Definition TOK_DOMAIN_JP : str := Eval vm_compute in lit "KanaShiftTokJP:v2".

Definition core_transform : Set := str -> str -> Z -> str -> Z -> str.

Definition _family_token_tagged_encrypt
  (plain password : str) (iterations : Z) (salt : str) (check_chars_per_token : Z)
  (shift_punctuation : bool) (core_transform_fn : core_transform) (tok_domain : str)
  (norm_fn : option (str -> str)) : result str :=
  let cipher := core_transform_fn plain password iterations salt 1 in
  let checks := build_plain_token_checks plain password salt iterations
                  check_chars_per_token tok_domain norm_fn in
  match attach_checks_to_cipher cipher checks with
  | Raise e => Raise e
  | Ok out =>
      let out := punct_translate out 1 in
      Ok (if shift_punctuation then punct_shift_apply out password iterations salt 1 else out)
  end.

Definition _family_token_tagged_decrypt
  (tagged password : str) (iterations : Z) (salt : str) (check_chars_per_token : Z)
  (shift_punctuation : bool) (core_transform_fn : core_transform) (tok_domain : str)
  (norm_fn : option (str -> str)) : VerifiedResult :=
  let s := if shift_punctuation then punct_shift_apply tagged password iterations salt (-1)
           else tagged in
  let s := punct_translate s (-1) in
  match strip_checks_from_tagged s check_chars_per_token with
  | None => mkVerified false []
  | Some (base_cipher, given_checks) =>
      let plain := core_transform_fn base_cipher password iterations salt (-1) in
      let expected := build_plain_token_checks plain password salt iterations
                        check_chars_per_token tok_domain norm_fn in
      compare_checks expected given_checks plain
  end.

Definition norm_token_skin (tok : str) : str := tok.
Definition norm_token_identity (tok : str) : str := tok.

Definition kanashift_skin_token_encrypt
  (text password : str) (iterations : Z) (salt : str) (check_chars_per_token : Z)
  (shift_punctuation : bool) : result str :=
  _family_token_tagged_encrypt text password iterations salt check_chars_per_token
    shift_punctuation _skin_transform TOK_DOMAIN_SKIN (Some norm_token_skin).

Definition kanashift_skin_token_decrypt
  (tagged password : str) (iterations : Z) (salt : str) (check_chars_per_token : Z)
  (shift_punctuation : bool) : VerifiedResult :=
  _family_token_tagged_decrypt tagged password iterations salt check_chars_per_token
    shift_punctuation _skin_transform TOK_DOMAIN_SKIN (Some norm_token_skin).

Definition kanashift_jp_token_encrypt
  (text password : str) (iterations : Z) (salt : str) (check_chars_per_token : Z)
  (shift_punctuation : bool) : result str :=
  _family_token_tagged_encrypt text password iterations salt check_chars_per_token
    shift_punctuation _jp_native_transform TOK_DOMAIN_JP (Some norm_token_identity).

Definition kanashift_jp_token_decrypt
  (tagged password : str) (iterations : Z) (salt : str) (check_chars_per_token : Z)
  (shift_punctuation : bool) : VerifiedResult :=
  _family_token_tagged_decrypt tagged password iterations salt check_chars_per_token
    shift_punctuation _jp_native_transform TOK_DOMAIN_JP (Some norm_token_identity).

End KanaShift.

(* ================================================================== *)
(** * Vocabulary of the statements and of their proofs *)
(* ================================================================== *)

(** ** Token layer: a string as a list of tokens and separators *)

Module Tokens.
Import Py Shared.

Inductive seg : Set :=
  | Tok (t : str)
  | Sep (c : Z).

Definition unseg (g : seg) : str := match g with Tok t => t | Sep c => [c] end.
Definition unsegments (L : list seg) : str := flat_map unseg L.

(** The segment that a non-empty token buffer stands for. *)
Definition pending (tok : str) : list seg := match tok with [] => [] | _ => [Tok tok] end.

Definition starts_with_tok (L : list seg) : Prop :=
  match L with Tok _ :: _ => True | _ => False end.

Inductive same_shape : list seg -> list seg -> Prop :=
  | shape_nil : same_shape [] []
  | shape_tok t t' P C : same_shape P C -> same_shape (Tok t :: P) (Tok t' :: C)
  | shape_sep c P C : same_shape P C -> same_shape (Sep c :: P) (Sep c :: C).

Section Segmentation.

Variable is_token_sep : Z -> bool.
Variable token_check : nat -> str -> str.

Fixpoint segments (s : str) : list seg :=
  match s with
  | [] => []
  | c :: r =>
      if is_token_sep c then Sep c :: segments r
      else match segments r with
           | Tok t :: q => Tok (c :: t) :: q
           | q => Tok [c] :: q
           end
  end.

Definition nosep (t : str) : Prop := forall x, In x t -> is_token_sep x = false.

Fixpoint well_formed (L : list seg) : Prop :=
  match L with
  | [] => True
  | Sep c :: q => is_token_sep c = true /\ well_formed q
  | Tok t :: q => t <> [] /\ nosep t /\ ~ starts_with_tok q /\ well_formed q
  end.

(** A text and its image agree on token separators, place by place. *)
Definition aligned (p c : str) : Prop :=
  Forall2 (fun a b => is_token_sep a = is_token_sep b /\ (is_token_sep a = true -> a = b))
    p c.

(** The three loops of the token layer, on a segmented string. *)
Fixpoint seg_checks (L : list seg) (k : nat) : list str :=
  match L with
  | [] => []
  | Sep _ :: q => seg_checks q k
  | Tok t :: q => token_check k t :: seg_checks q (S k)
  end.

Fixpoint seg_attach (checks : list str) (L : list seg) (k : nat) : result str :=
  match L with
  | [] => if negb (k =? length checks)%nat then Raise UnusedChecksRemain else Ok []
  | Sep c :: q =>
      match seg_attach checks q k with Ok o => Ok (c :: o) | Raise e => Raise e end
  | Tok t :: q =>
      if (length checks <=? k)%nat then Raise TokenCheckCountMismatch
      else match seg_attach checks q (S k) with
           | Ok o => Ok (t ++ nth k checks [] ++ o)
           | Raise e => Raise e
           end
  end.

Fixpoint seg_strip (n : nat) (L : list seg) : option (str * list str) :=
  match L with
  | [] => Some ([], [])
  | Sep c :: q =>
      match seg_strip n q with Some (b, g) => Some (c :: b, g) | None => None end
  | Tok t :: q =>
      if (length t <=? n)%nat then None
      else match seg_strip n q with
           | Some (b, g) => Some (firstn (length t - n) t ++ b, skipn (length t - n) t :: g)
           | None => None
           end
  end.

(** The tagged text, segment by segment: each cipher token followed by the
    check of the plaintext token at the same place. *)
Fixpoint tag (P C : list seg) (k : nat) : list seg :=
  match P, C with
  | Tok t :: P', Tok t' :: C' => Tok (t' ++ token_check k t) :: tag P' C' (S k)
  | Sep _ :: P', Sep c :: C' => Sep c :: tag P' C' k
  | _, _ => []
  end.

End Segmentation.

End Tokens.

(** ** Alphabets, keystreams and results *)

Module Vocabulary.
Import Py Shared.

(** A decidable check that an alphabet has pairwise-distinct scalars. *)
Fixpoint distinct (s : str) : bool :=
  match s with
  | [] => true
  | x :: r => negb (contains r x) && distinct r
  end.

Definition key_bytes_ok (ks : bytes) : Prop := Forall (fun b => 0 <= b < 256) ks.

(** A verified decoder's result carries the empty string when it fails. *)
Definition empty_on_failure (r : VerifiedResult) : Prop := ok r = false -> value r = [].

End Vocabulary.

(** ** PhonoShift: the classes of [transform_name_name_like_fpe] *)

Module PhonoClasses.
Import Py PhonoShift.

(** Alphabets rotated as they are, and those also reached through an
    ASCII uppercase letter. *)
Definition lower_classes : list str :=
  [VOW_LO; CON_LO; VOW_LO_PT; VOW_UP_PT; CON_LO_PT; CON_UP_PT].
Definition cased_classes : list str := [VOW_LO; CON_LO].

Inductive scalar_class (c : Z) : Prop :=
  | class_separator : is_separator c = true -> scalar_class c
  | class_digit : is_digit c = true -> scalar_class c
  | class_lower A : In A lower_classes -> In c A -> scalar_class c
  | class_upper A x : In A cased_classes -> In x A -> c = to_upper_ascii x -> scalar_class c
  | class_other :
      (forall ks d k, fpe_step ks d c k = (c, next_kpos ks k)) -> scalar_class c.

(** A scalar of some alphabet of the family: separator, digit, ASCII letter,
    accented vowel or cedilla. *)
Definition recognized (c : Z) : bool :=
  is_separator c || is_digit c || is_ascii_upper c || is_ascii_lower c
  || contains VOW_LO_PT c || contains VOW_UP_PT c || contains CON_LO_PT c
  || contains CON_UP_PT c.

End PhonoClasses.

(** ** KanaShift: the classes of [_skin_transform] and [_jp_native_transform] *)

Module KanaClasses.
Import Py KanaShift.

(** The fullwidth column of the punctuation table. *)
Definition fullwidth_punct : str := Eval vm_compute in map snd _PUNCT_ENC_MAP.

(** The paired alphabets of the skin family. *)
Definition skin_pairs : list (str * str) :=
  [ (P_VOW_LO, C_VOW_LO); (P_CON_LO, C_CON_LO); (P_VOW_UP, C_VOW_UP); (P_CON_UP, C_CON_UP);
    (P_VOW_LO_PT, C_ACC_LO); (P_VOW_UP_PT, C_ACC_UP) ].

(** A scalar the skin decoder reads as a cipher glyph: a fullwidth digit, a
    scalar of a kana cipher alphabet, or a cedilla marker. *)
Definition skin_cipher_scalar (c : Z) : bool :=
  is_fullwidth_digit c || contains C_VOW_LO c || contains C_CON_LO c || contains C_VOW_UP c
  || contains C_CON_UP c || contains C_ACC_LO c || contains C_ACC_UP c
  || (c =? C_CED_LO) || (c =? C_CED_UP).

(** A plaintext scalar the skin family can give back: not read as a cipher
    glyph by the decoder, and not in the fullwidth punctuation table. *)
Definition skin_plain_scalar (c : Z) : bool :=
  negb (skin_cipher_scalar c) && negb (contains fullwidth_punct c).

(** What the skin encoder does with a scalar, by class. *)
Inductive skin_class (c : Z) : Prop :=
  | skin_separator : is_separator c = true -> skin_class c
  | skin_digit : is_separator c = false -> is_digit c = true -> skin_class c
  | skin_letter P C :
      is_separator c = false -> is_digit c = false ->
      In (P, C) skin_pairs -> In c P -> skin_class c
  | skin_cedilla_lo : c = 231 -> skin_class c
  | skin_cedilla_up : c = 199 -> skin_class c
  | skin_other :
      is_separator c = false -> is_digit c = false ->
      (forall s, skin_encode_letter c s = c) -> skin_class c.

Definition skin_recognized (c : Z) : bool :=
  is_separator c || is_digit c || is_ascii_upper c || is_ascii_lower c
  || contains P_VOW_LO_PT c || contains P_VOW_UP_PT c || (c =? 231) || (c =? 199)
  || skin_cipher_scalar c.

(** No scalar of [P_MID] meets a zero keystream byte when [punct_loop]
    runs over [s] from cursor [kpos]. *)
Fixpoint punct_zero_free (ks : bytes) (s : str) (kpos : nat) : bool :=
  match s with
  | [] => true
  | c :: rest =>
      if negb (_is_shift_punct c) then punct_zero_free ks rest kpos
      else (contains P_END c || negb (Z.land (key_byte ks kpos) 255 =? 0))
           && punct_zero_free ks rest (next_kpos ks kpos)
  end.

(** The same for [punct_shift_apply], with the keystream it derives. *)
Definition punct_keys_zero_free (s password : str) (iterations : Z) (salt : str) : bool :=
  let need := count _is_shift_punct s in
  let ks := pbkdf2_keystream password (salt ++ lit "|PunctShiftJP:v2") iterations
              (need + 64) in
  punct_zero_free ks s 0.

(** The scalars [_jp_native_transform] rotates through [effective_shift]. *)
Definition jp_no_zero_class (c : Z) : bool :=
  is_digit c || is_fullwidth_digit c || is_hiragana c || is_katakana c || is_kanji c.

(** No such scalar meets a zero keystream byte when [jp_loop] runs over
    [text] from cursor [kpos]. *)
Fixpoint jp_zero_free (ks : bytes) (text : str) (kpos : nat) : bool :=
  match text with
  | [] => true
  | c :: rest =>
      if is_separator c || is_stable_jp_mark c then jp_zero_free ks rest kpos
      else (negb (jp_no_zero_class c) || negb (Z.land (key_byte ks kpos) 255 =? 0))
           && jp_zero_free ks rest (next_kpos ks kpos)
  end.

Definition jp_keys_zero_free (text password : str) (iterations : Z) (salt : str) : bool :=
  jp_zero_free
    (pbkdf2_keystream password (salt ++ lit "|JPNative:v2|AsciiShift") iterations
       (len text + 64))
    text 0.

(** A plaintext scalar the JP-native family can give back: no fullwidth
    digit and none of the fullwidth punctuation table. *)
Definition jp_plain_scalar (c : Z) : bool :=
  negb (is_fullwidth_digit c) && negb (contains fullwidth_punct c).

Definition jp_letter_classes : list str := [P_VOW_LO; P_CON_LO].

Inductive jp_class (c : Z) : Prop :=
  | jp_skip : is_separator c || is_stable_jp_mark c = true -> jp_class c
  | jp_lower A : In A jp_letter_classes -> In c A -> jp_class c
  | jp_upper A x : In A jp_letter_classes -> In x A -> c = upper x -> jp_class c
  | jp_digit : is_digit c = true -> jp_class c
  | jp_fullwidth_digit : is_fullwidth_digit c = true -> jp_class c
  | jp_hiragana : is_hiragana c = true -> jp_class c
  | jp_katakana : is_katakana c = true -> jp_class c
  | jp_kanji : is_kanji c = true -> jp_class c
  | jp_other :
      jp_no_zero_class c = false ->
      (forall ks d k, jp_step ks d c k = (c, next_kpos ks k)) -> jp_class c.

Definition jp_recognized (c : Z) : bool :=
  is_separator c || is_stable_jp_mark c || is_ascii_upper c || is_ascii_lower c
  || jp_no_zero_class c.

End KanaClasses.

(** ** Inputs of the examples *)

Module Examples.
Import Py.

Definition pw : str := Eval vm_compute in lit "pw".
Definition salt : str := Eval vm_compute in lit "NameFPE:v1".
Definition jp_text : str := Eval vm_compute in lit "完了 abc ABC 12,かなカナ・x!".
Definition skin_text : str := Eval vm_compute in lit "Olá, Mundo! Ação 123.".

End Examples.

(** ** Token counts and the base text of a tagged text *)

Module Shapes.
Import Py Shared Tokens.

(** The tokens of a segmented string, in order. *)
Fixpoint tokens_of (L : list seg) : list str :=
  match L with
  | [] => []
  | Tok t :: q => t :: tokens_of q
  | Sep _ :: q => tokens_of q
  end.

(** The tokens of a string, for a given set of token separators. *)
Definition tokens (is_token_sep : Z -> bool) (s : str) : list str :=
  tokens_of (segments is_token_sep s).

Definition starts_tok (L : list seg) : bool :=
  match L with Tok _ :: _ => true | _ => false end.

(** A segmented tagged text without the last [n] scalars of each token. *)
Fixpoint untag (n : nat) (L : list seg) : list seg :=
  match L with
  | [] => []
  | Tok t :: q => Tok (firstn (length t - n) t) :: untag n q
  | Sep c :: q => Sep c :: untag n q
  end.

(** The token lengths met by [min_token_len_simple] when a token of [cur]
    scalars is pending in front of [L]. *)
Definition pending_lengths (cur : Z) (L : list seg) : list Z :=
  match L with
  | Tok t :: q => (cur + len t) :: map len (tokens_of q)
  | _ => cur :: map len (tokens_of L)
  end.

(** Two texts with token separators at the same places. *)
Definition same_pattern (is_token_sep : Z -> bool) (s s' : str) : Prop :=
  Forall2 (fun a b => is_token_sep a = is_token_sep b) s s'.

End Shapes.

(** ** PhonoShift: the format of a scalar *)

Module PhonoFormat.
Import Py PhonoShift.

(** The answers of the class tests of [transform_name_name_like_fpe]:
    separator, digit, ASCII upper, ASCII lower, vowel (after lowering),
    accented vowel (lower, upper), cedilla (lower, upper). *)
Definition format (c : Z) : list bool :=
  [ is_separator c; is_digit c; is_ascii_upper c; is_ascii_lower c;
    contains VOW_LO (to_lower_ascii c); contains VOW_LO_PT c; contains VOW_UP_PT c;
    contains CON_LO_PT c; contains CON_UP_PT c ].

(** An ASCII letter or an accented vowel: a scalar of an alphabet with more
    than one letter. *)
Definition rotated_letter (c : Z) : bool :=
  is_ascii_upper c || is_ascii_lower c || contains VOW_LO_PT c || contains VOW_UP_PT c.

(** A token that [looks_like_kt_token_tagged] counts as good: more than
    [N] scalars, the last [N] all digits or all consonants. *)
Definition tagged_like (N : nat) (t : str) : bool :=
  (N <? length t)%nat
  && (forallb (fun ch => (48 <=? ch) && (ch <=? 57)) (skipn (length t - N) t)
      || forallb is_consonant_ascii (skipn (length t - N) t)).

(** Scalars that the heuristics of [looks_like_rot500k_cipher] cannot tell
    apart. *)
Definition alike (a b : Z) : Prop :=
  is_token_sep a = is_token_sep b
  /\ contains [32; 9; 13; 10] a = contains [32; 9; 13; 10] b
  /\ ((48 <=? a) && (a <=? 57)) = ((48 <=? b) && (b <=? 57))
  /\ is_consonant_ascii a = is_consonant_ascii b.

(** The keystream cursor after the loop of [transform_name_name_like_fpe]
    has run over [s] from cursor [kpos]. *)
Definition cursor_after (ks : bytes) (direction : Z) (s : str) (kpos : nat) : nat :=
  fold_left (fun k c => snd (fpe_step ks direction c k)) s kpos.

(** A scalar of a tag phrase: an ASCII letter or the space; and a scalar
    that is neither of the marks a prefix ends with. *)
Definition phrase_scalar (c : Z) : Prop := is_ascii_letter c = true \/ c = 32.
Definition no_mark (c : Z) : Prop := c <> 63 /\ c <> 33.

(** What the decoder strips its checks from. *)
Definition unshifted (tagged password : str) (iterations : Z) (salt : str) (sp : bool) : str :=
  if sp then punct_shift_apply tagged password iterations salt (-1) else tagged.

End PhonoFormat.

(** ** KanaShift: scripts and key-independent texts *)

Module KanaFormat.
Import Py KanaShift KanaClasses.

(** A scalar of the plain alphabets of the skin family: ASCII digit or
    letter, accented vowel, cedilla. *)
Definition skin_latin (c : Z) : bool :=
  is_digit c || is_ascii_upper c || is_ascii_lower c
  || contains P_VOW_LO_PT c || contains P_VOW_UP_PT c || (c =? 231) || (c =? 199).

(** The answers of the script tests of [_jp_native_transform]: hiragana,
    katakana, kanji, ASCII upper, ASCII lower, vowel (after lowering). *)
Definition jp_script (c : Z) : list bool :=
  [ is_hiragana c; is_katakana c; is_kanji c; is_ascii_upper c; is_ascii_lower c;
    contains P_VOW_LO (to_lower_ascii c) ].

(** Not a source of a scalar of [P_MID]: neither ASCII comma or full stop
    (which [punct_translate] turns into one) nor a scalar of [P_MID]. *)
Definition mid_free (c : Z) : bool :=
  negb ((c =? 44) || (c =? 46) || contains P_MID c).

(** Plaintext scalars whose roundtrip needs no assumption on the key. *)
Definition skin_safe (c : Z) : bool := skin_plain_scalar c && mid_free c.
Definition jp_safe (c : Z) : bool :=
  jp_plain_scalar c && negb (jp_no_zero_class c) && mid_free c.

(** Script kept, separators and stable marks in place. *)
Definition script_kept (a b : Z) : Prop :=
  jp_script b = jp_script a
  /\ (is_separator a || is_stable_jp_mark a = true -> b = a).

(** A cedilla of the plaintext and its marker in the cipher text; a marker
    left where it is. *)
Definition cedilla_marked (a b : Z) : Prop :=
  (a = 231 -> b = C_CED_LO) /\ (a = 199 -> b = C_CED_UP).

Definition marker_kept (a b : Z) : Prop :=
  (a = C_CED_LO -> b = C_CED_LO) /\ (a = C_CED_UP -> b = C_CED_UP).

End KanaFormat.

(** ** Token-tagged texts of the examples *)

Module TaggedExamples.
Import Py Shared.

Definition skin_tagged : str :=
  Eval vm_compute in
    match KanaShift.kanashift_skin_token_encrypt Examples.skin_text Examples.pw 1
            Examples.salt 2 true with
    | Ok t => t
    | Raise _ => []
    end.

Definition jp_tagged : str :=
  Eval vm_compute in
    match KanaShift.kanashift_jp_token_encrypt Examples.jp_text Examples.pw 1
            Examples.salt 1 true with
    | Ok t => t
    | Raise _ => []
    end.

End TaggedExamples.

(* ================================================================== *)
(** * Lemmas *)
(* ================================================================== *)

Import Py Shared Vocabulary.

Ltac in_cases H := cbn [In] in H; repeat (destruct H as [H|H]; [subst|]); try contradiction.
Ltac in_classes := simpl; tauto.
Ltac pair_cases H :=
  simpl in H;
  repeat (destruct H as [H|H]; [injection H as <- <-|]); try contradiction.
Ltac app_norm := repeat (rewrite <- app_assoc; cbn [app]); cbn [app]; try reflexivity.

(** * Facts about the Python builtins *)

Lemma contains_In (s : str) (c : Z) : contains s c = true <-> In c s.
Proof.
  unfold contains. rewrite existsb_exists. split.
  - intros [x [Hx Heq]]. apply Z.eqb_eq in Heq. now subst.
  - intros H. exists c. split; [assumption | apply Z.eqb_refl].
Qed.

Lemma contains_false (s : str) (c : Z) : contains s c = false <-> ~ In c s.
Proof.
  rewrite <- contains_In. destruct (contains s c); split; intros; congruence.
Qed.

Ltac in_list := apply contains_In; reflexivity.

Lemma find_range (s : str) (c : Z) : find s c = -1 \/ 0 <= find s c < len s.
Proof.
  unfold len. induction s as [|x s IH]; simpl; [now left|].
  destruct (x =? c); [right; lia|].
  destruct (Z.ltb_spec (find s c) 0); [now left|right; lia].
Qed.

Lemma find_In (s : str) (c : Z) : In c s -> 0 <= find s c < len s.
Proof.
  unfold len. induction s as [|x s IH]; simpl; [tauto|].
  intros [->|H].
  - rewrite Z.eqb_refl. lia.
  - destruct (x =? c); [lia|]. specialize (IH H).
    destruct (Z.ltb_spec (find s c) 0); lia.
Qed.

Lemma find_not_In (s : str) (c : Z) : ~ In c s -> find s c = -1.
Proof.
  induction s as [|x s IH]; simpl; [reflexivity|].
  intros H. destruct (Z.eqb_spec x c); [tauto|].
  rewrite IH by tauto. reflexivity.
Qed.

Lemma index_find (s : str) (c : Z) : In c s -> index s (find s c) = c.
Proof.
  unfold index. induction s as [|x s IH]; simpl; [tauto|].
  intros H. destruct (Z.eqb_spec x c) as [->|Hne]; [reflexivity|].
  destruct H as [H|H]; [congruence|].
  pose proof (find_In s c H) as Hr. unfold len in Hr.
  destruct (Z.ltb_spec (find s c) 0); [lia|].
  rewrite Z2Nat.inj_add by lia. rewrite Nat.add_comm. simpl. now apply IH.
Qed.

Lemma index_In (s : str) (j : Z) : 0 <= j < len s -> In (index s j) s.
Proof.
  unfold index, len. intros H. apply nth_In. lia.
Qed.

Lemma find_index (s : str) (j : Z) : NoDup s -> 0 <= j < len s -> find s (index s j) = j.
Proof.
  unfold index, len. intros Hnd. revert j.
  induction Hnd as [|x s Hx Hnd IH]; simpl; intros j Hj; [lia|].
  destruct (Z.to_nat j) as [|k] eqn:Hk.
  - rewrite Z.eqb_refl. lia.
  - assert (Hin : In (nth k s 0) s) by (apply nth_In; lia).
    destruct (Z.eqb_spec x (nth k s 0)) as [->|_]; [tauto|].
    specialize (IH (j - 1)). replace (Z.to_nat (j - 1)) with k in IH by lia.
    rewrite IH by lia. destruct (Z.ltb_spec (j - 1) 0); lia.
Qed.

Lemma distinct_NoDup (s : str) : distinct s = true -> NoDup s.
Proof.
  induction s as [|x s IH]; simpl; intros H; constructor;
    apply andb_true_iff in H; destruct H as [H1 H2].
  - apply negb_true_iff in H1. now apply contains_false.
  - auto.
Qed.

(** * The rotators *)

Lemma effective_shift_opp (shift n : Z) :
  2 <= n -> shift <> 0 \/ n = 2 ->
  (effective_shift shift n + effective_shift (- shift) n) mod n = 0.
Proof.
  intros Hn Hs. unfold effective_shift.
  destruct (Z.leb_spec n 1); [lia|].
  destruct (Z.eqb_spec (shift mod n) 0) as [H0|H0].
  - rewrite Z.mod_opp_l_z by lia. simpl.
    destruct (Z.geb_spec shift 0), (Z.geb_spec (- shift) 0); try lia;
      try (apply Z.mod_0_l; lia).
    assert (n = 2) by lia. subst n. reflexivity.
  - rewrite Z.mod_opp_l_nz by lia.
    destruct (Z.eqb_spec (n - shift mod n) 0) as [H1|H1].
    + pose proof (Z.mod_pos_bound shift n). lia.
    + replace (shift mod n + (n - shift mod n)) with (1 * n) by lia.
      apply Z.mod_mul. lia.
Qed.

Lemma effective_shift_small (shift n : Z) : n <= 1 -> effective_shift shift n = 0.
Proof. intros H. unfold effective_shift. destruct (Z.leb_spec n 1); [reflexivity|lia]. Qed.

Lemma rotate_in_set_no_zero_In (A : str) (ch shift : Z) :
  In ch A -> In (rotate_in_set_no_zero A ch shift) A.
Proof.
  intros H. unfold rotate_in_set_no_zero.
  pose proof (find_In A ch H) as Hr.
  destruct (Z.ltb_spec (find A ch) 0); [lia|].
  apply index_In. apply Z.mod_pos_bound. lia.
Qed.

Lemma rotate_in_set_no_zero_not_In (A : str) (ch shift : Z) :
  ~ In ch A -> rotate_in_set_no_zero A ch shift = ch.
Proof.
  intros H. unfold rotate_in_set_no_zero. now rewrite (find_not_In A ch H).
Qed.

(** Rotating back by the negated shift undoes a rotation, for every nonzero
    shift (and for every shift when the alphabet has at most two scalars). *)
Lemma rotate_in_set_no_zero_inv' (A : str) (ch shift : Z) :
  NoDup A -> shift <> 0 \/ len A <= 2 ->
  rotate_in_set_no_zero A (rotate_in_set_no_zero A ch shift) (- shift) = ch.
Proof.
  intros Hnd Hs.
  destruct (in_dec Z.eq_dec ch A) as [Hin|Hout].
  2:{ rewrite (rotate_in_set_no_zero_not_In A ch shift Hout).
      now apply rotate_in_set_no_zero_not_In. }
  pose proof (find_In A ch Hin) as Hr.
  unfold rotate_in_set_no_zero at 2.
  destruct (Z.ltb_spec (find A ch) 0); [lia|].
  set (j := (find A ch + effective_shift shift (len A)) mod len A).
  assert (Hj : 0 <= j < len A) by (apply Z.mod_pos_bound; lia).
  unfold rotate_in_set_no_zero. rewrite (find_index A j Hnd Hj).
  destruct (Z.ltb_spec j 0); [lia|].
  replace ((j + effective_shift (- shift) (len A)) mod len A) with (find A ch);
    [now apply index_find|].
  unfold j. rewrite Zplus_mod_idemp_l.
  destruct (Z.leb_spec (len A) 1) as [Hsmall|Hbig].
  - rewrite !effective_shift_small by assumption.
    rewrite Z.mod_small; lia.
  - rewrite <- Z.add_assoc, <- Zplus_mod_idemp_r.
    rewrite effective_shift_opp by lia. rewrite Z.add_0_r, Z.mod_small; lia.
Qed.

Lemma rotate_in_set_no_zero_inv (A : str) (ch shift : Z) :
  NoDup A -> shift <> 0 ->
  rotate_in_set_no_zero A (rotate_in_set_no_zero A ch shift) (- shift) = ch.
Proof. intros Hnd Hs. apply rotate_in_set_no_zero_inv'; auto. Qed.

(** * The keystream *)

Lemma byte_value_range (b : int) : 0 <= Hashlib.byte_value b < 256.
Proof.
  unfold Hashlib.byte_value. split.
  - apply Z.land_nonneg. right. lia.
  - change 255 with (Z.ones 8). rewrite Z.land_ones by lia.
    apply Z.mod_pos_bound. lia.
Qed.

Lemma keystream_bytes (password salt : str) (iterations need : Z) :
  Forall (fun b => 0 <= b < 256) (keystream password salt iterations need).
Proof.
  unfold keystream, Hashlib.pbkdf2_hmac_sha256.
  apply Forall_forall. intros b Hb. apply in_map_iff in Hb.
  destruct Hb as [x [<- _]]. apply byte_value_range.
Qed.

Lemma key_byte_range (ks : bytes) (kpos : nat) :
  Forall (fun b => 0 <= b < 256) ks -> 0 <= key_byte ks kpos < 256.
Proof.
  intros H. unfold key_byte. destruct (Nat.lt_ge_cases kpos (length ks)) as [Hlt|Hge].
  - rewrite Forall_forall in H. apply H. now apply nth_In.
  - rewrite nth_overflow by assumption. lia.
Qed.

(** * The length of the keystream *)

Lemma sha256_length msg : length (Hashlib.sha256 msg) = 32%nat.
Proof. reflexivity. Qed.

Lemma hmac_length key msg : length (Hashlib.hmac key msg) = 32%nat.
Proof. reflexivity. Qed.

Lemma xor_bytes_length a b :
  length a = length b -> length (Hashlib.xor_bytes a b) = length a.
Proof.
  revert b. induction a as [|x a IH]; intros [|y b] H; simpl in *; try congruence.
  now rewrite IH by congruence.
Qed.

Lemma pbkdf2_block_length p s c i : length (Hashlib.pbkdf2_block p s c i) = 32%nat.
Proof.
  unfold Hashlib.pbkdf2_block.
  apply (N.iter_invariant (N.pred c) _ _ (fun ut => length (snd ut) = 32%nat)).
  - intros [u t] H. unfold Hashlib.pbkdf2_step. cbn [fst snd] in *.
    rewrite xor_bytes_length; [assumption | now rewrite H, hmac_length].
  - apply hmac_length.
Qed.

Lemma flat_map_length_const {A B} (f : A -> list B) (l : list A) (n : nat) :
  (forall x, length (f x) = n) -> length (flat_map f l) = (n * length l)%nat.
Proof.
  intros H. induction l as [|x l IH]; simpl; [lia|].
  rewrite length_app, H, IH. lia.
Qed.

Lemma pbkdf2_length password salt iterations dklen :
  length (Hashlib.pbkdf2_hmac_sha256 password salt iterations dklen) = dklen.
Proof.
  unfold Hashlib.pbkdf2_hmac_sha256. rewrite length_map, length_firstn.
  rewrite (flat_map_length_const _ _ 32) by (intros; apply pbkdf2_block_length).
  rewrite length_seq.
  pose proof (Nat.div_mod_eq (dklen + 31) 32) as E.
  pose proof (Nat.mod_upper_bound (dklen + 31) 32 ltac:(lia)) as B. lia.
Qed.

(** [derive_keystream] returns [max(need_bytes, 32)] bytes. *)
Lemma keystream_length password salt iterations need :
  length (keystream password salt iterations need) = Z.to_nat (Z.max 32 need).
Proof.
  unfold keystream. rewrite pbkdf2_length. destruct (Z.ltb_spec need 32); lia.
Qed.

(** Every scalar of a closed range is listed by [seq]. *)
Lemma range_In (lo hi c : Z) :
  lo <= c <= hi -> In c (map (fun i => lo + Z.of_nat i) (seq 0 (Z.to_nat (hi + 1 - lo)))).
Proof.
  intros H. apply in_map_iff. exists (Z.to_nat (c - lo)). split; [lia|].
  apply in_seq. lia.
Qed.

(** ** Digit and index arithmetic *)

Lemma digit_shift_inv (c s : Z) :
  48 <= c <= 57 ->
  48 + (48 + (c - 48 + s mod 10 + 10) mod 10 - 48 + (- s) mod 10 + 10) mod 10 = c.
Proof. intros H. Z.div_mod_to_equations. lia. Qed.

Lemma fullwidth_digit_shift_inv (c s : Z) :
  48 <= c <= 57 ->
  48 + (65296 + (c - 48 + s mod 10 + 10) mod 10 - 65296 + (- s) mod 10 + 10) mod 10 = c.
Proof. intros H. Z.div_mod_to_equations. lia. Qed.

Lemma shifted_digit_inv (x e e' : Z) :
  0 <= x < 10 -> (e + e') mod 10 = 0 -> ((x + e + 10) mod 10 + e' + 10) mod 10 = x.
Proof. intros H He. Z.div_mod_to_equations. lia. Qed.

Lemma index_shift_inv (i s n : Z) :
  0 <= i < n -> ((i + s mod n) mod n + (- s) mod n) mod n = i.
Proof.
  intros H. rewrite Zplus_mod_idemp_l, <- Z.add_assoc.
  rewrite <- (Zplus_mod_idemp_r (s mod n + (- s) mod n)).
  rewrite <- Z.add_mod by lia.
  replace (s + - s) with 0 by lia. rewrite Z.mod_0_l, Z.add_0_r by lia.
  apply Z.mod_small. assumption.
Qed.

Lemma is_digit_mod10 (x : Z) : is_digit (48 + x mod 10) = true.
Proof.
  pose proof (Z.mod_pos_bound x 10 ltac:(lia)) as H.
  unfold is_digit. generalize dependent (x mod 10). intros r H. lia.
Qed.

Lemma forallb_and {A} (f g : A -> bool) l :
  forallb (fun x => f x && g x) l = true -> forallb f l = true /\ forallb g l = true.
Proof.
  induction l as [|x l IH]; [auto|]. cbn [forallb]. intros H.
  apply andb_true_iff in H. destruct H as [H1 H2]. apply andb_true_iff in H1.
  destruct (IH H2). destruct H1 as [-> ->]. auto.
Qed.

(** * The token layer, seen through the segmentation of a string *)

Section TokenLayerLemmas.

Variable is_token_sep : Z -> bool.
Variable token_check : nat -> str -> str.

Local Abbreviation Tok := Tokens.Tok.
Local Abbreviation Sep := Tokens.Sep.
Local Abbreviation pending := Tokens.pending.
Local Abbreviation unsegments := Tokens.unsegments.
Local Abbreviation same_shape := Tokens.same_shape.
Local Abbreviation segments := (Tokens.segments is_token_sep).
Local Abbreviation nosep := (Tokens.nosep is_token_sep).
Local Abbreviation well_formed := (Tokens.well_formed is_token_sep).
Local Abbreviation aligned := (Tokens.aligned is_token_sep).
Local Abbreviation seg_checks := (Tokens.seg_checks token_check).
Local Abbreviation seg_attach := Tokens.seg_attach.
Local Abbreviation seg_strip := Tokens.seg_strip.
Local Abbreviation tag := (Tokens.tag token_check).

(** ** Segmentation *)

Lemma nosep_nil : nosep [].
Proof. intros x []. Qed.

Lemma nosep_snoc tok c : nosep tok -> is_token_sep c = false -> nosep (tok ++ [c]).
Proof.
  intros Ht Hc x Hx. apply in_app_or in Hx. destruct Hx as [Hx|[<-|[]]]; auto.
Qed.

Lemma nosep_app t u : nosep t -> nosep u -> nosep (t ++ u).
Proof. intros Ht Hu x Hx. apply in_app_or in Hx. destruct Hx; auto. Qed.

Lemma segments_app_tok tok s :
  nosep tok -> tok <> [] ->
  segments (tok ++ s) =
    match segments s with
    | Tok t :: q => Tok (tok ++ t) :: q
    | q => Tok tok :: q
    end.
Proof.
  induction tok as [|c tok IH]; intros Hn Hne; [congruence|].
  simpl. rewrite (Hn c) by (simpl; auto).
  destruct tok as [|c' tok'].
  - simpl. destruct (segments s) as [|[t|x] q]; reflexivity.
  - rewrite IH; [|intros x Hx; apply Hn; simpl; auto|discriminate].
    destruct (segments s) as [|[t|x] q]; reflexivity.
Qed.

Lemma segments_pending tok s c :
  nosep tok -> is_token_sep c = true ->
  segments (tok ++ c :: s) = pending tok ++ Sep c :: segments s.
Proof.
  intros Hn Hc. destruct tok as [|x tok]; [simpl; now rewrite Hc|].
  rewrite segments_app_tok by (auto; discriminate). simpl. now rewrite Hc.
Qed.

Lemma segments_tok tok : nosep tok -> segments tok = pending tok.
Proof.
  intros Hn. destruct tok as [|x tok]; [reflexivity|].
  rewrite <- (app_nil_r (x :: tok)) at 1.
  rewrite segments_app_tok by (auto; discriminate). reflexivity.
Qed.

Lemma unsegments_segments s : unsegments (segments s) = s.
Proof.
  induction s as [|c s IH]; [reflexivity|]. simpl.
  destruct (is_token_sep c); [simpl; now rewrite IH|].
  destruct (segments s) as [|[t|x] q]; simpl in *; now rewrite <- IH.
Qed.

Lemma segments_well_formed s : well_formed (segments s).
Proof.
  induction s as [|c s IH]; [exact I|]. simpl.
  destruct (is_token_sep c) eqn:Hc; [simpl; auto|].
  assert (H1 : nosep [c]) by (intros y [<-|[]]; assumption).
  destruct (segments s) as [|[t|x] q]; simpl in *.
  - repeat split; try discriminate; tauto.
  - destruct IH as (Hne & Hn & Hq & Hwf). repeat split; try discriminate; try tauto.
    intros y [<-|Hy]; auto.
  - repeat split; try discriminate; tauto.
Qed.

Lemma segments_unsegments L : well_formed L -> segments (unsegments L) = L.
Proof.
  induction L as [|[t|c] q IH]; intros Hwf; [reflexivity| |].
  - destruct Hwf as (Hne & Hn & Hq & Hwf). unfold Tokens.unsegments in *. simpl.
    rewrite segments_app_tok by assumption. rewrite IH by assumption.
    destruct q as [|[t1|c1] q1]; [reflexivity | simpl in Hq; tauto | reflexivity].
  - destruct Hwf as (Hc & Hwf). unfold Tokens.unsegments in *. simpl. rewrite Hc.
    now rewrite IH.
Qed.

(** ** The loops of the source compute the segment-wise functions *)

Lemma build_loop_spec s checks tok k :
  nosep tok ->
  build_loop is_token_sep token_check s checks tok k
  = checks ++ seg_checks (segments (tok ++ s)) k.
Proof.
  revert checks tok k. induction s as [|c s IH]; intros checks tok k Hn.
  - rewrite app_nil_r, segments_tok by assumption.
    destruct tok; cbn [build_loop build_flush fst Tokens.pending Tokens.seg_checks];
      [now rewrite app_nil_r | reflexivity].
  - cbn [build_loop]. destruct (is_token_sep c) eqn:Hc.
    + rewrite segments_pending by assumption.
      destruct tok; cbn [build_flush Tokens.pending app Tokens.seg_checks];
        rewrite (IH _ [] _ nosep_nil); app_norm.
    + rewrite IH by (now apply nosep_snoc). now rewrite <- app_assoc.
Qed.

Lemma attach_loop_spec checks s out tok k :
  nosep tok ->
  attach_loop is_token_sep checks s out tok k
  = match seg_attach checks (segments (tok ++ s)) k with
    | Ok o => Ok (out ++ o)
    | Raise e => Raise e
    end.
Proof.
  revert out tok k. induction s as [|c s IH]; intros out tok k Hn.
  - rewrite app_nil_r, segments_tok by assumption.
    destruct tok; cbn [attach_loop attach_flush Tokens.pending Tokens.seg_attach].
    + destruct (negb (k =? length checks)%nat); [reflexivity | now rewrite app_nil_r].
    + destruct (length checks <=? k)%nat; [reflexivity|].
      destruct (negb (S k =? length checks)%nat); [reflexivity|].
      now rewrite !app_nil_r.
  - cbn [attach_loop]. destruct (is_token_sep c) eqn:Hc.
    + rewrite segments_pending by assumption.
      destruct tok; cbn [attach_flush Tokens.pending Tokens.seg_attach app].
      * rewrite (IH _ [] _ nosep_nil). cbn [app].
        destruct (seg_attach checks (segments s) k); [|reflexivity]. app_norm.
      * destruct (length checks <=? k)%nat; [reflexivity|].
        rewrite (IH _ [] _ nosep_nil). cbn [app].
        destruct (seg_attach checks (segments s) (S k)); [|reflexivity]. app_norm.
    + rewrite IH by (now apply nosep_snoc). now rewrite <- app_assoc.
Qed.

Lemma strip_loop_spec n s base given tok :
  nosep tok ->
  strip_loop is_token_sep n s base given tok
  = match seg_strip n (segments (tok ++ s)) with
    | Some (b, g) => Some (base ++ b, given ++ g)
    | None => None
    end.
Proof.
  revert base given tok. induction s as [|c s IH]; intros base given tok Hn.
  - rewrite app_nil_r, segments_tok by assumption.
    destruct tok as [|x tok]; cbn [strip_loop strip_flush Tokens.pending Tokens.seg_strip];
      [now rewrite !app_nil_r|].
    destruct (length (x :: tok) <=? n)%nat; [reflexivity | now rewrite !app_nil_r].
  - cbn [strip_loop]. destruct (is_token_sep c) eqn:Hc.
    + rewrite segments_pending by assumption.
      destruct tok as [|x tok]; cbn [strip_flush Tokens.pending Tokens.seg_strip app].
      * rewrite (IH _ _ [] nosep_nil). cbn [app].
        destruct (seg_strip n (segments s)) as [[b g]|]; [|reflexivity]. app_norm.
      * destruct (length (x :: tok) <=? n)%nat; [reflexivity|].
        rewrite (IH _ _ [] nosep_nil). cbn [app].
        destruct (seg_strip n (segments s)) as [[b g]|]; [|reflexivity]. app_norm.
    + rewrite IH by (now apply nosep_snoc). now rewrite <- app_assoc.
Qed.

(** ** Tagging an aligned cipher text and stripping the tags again *)

Lemma segments_same_shape p c : aligned p c -> same_shape (segments p) (segments c).
Proof.
  induction 1 as [|a b p c [Hab Heq] _ IH]; [constructor|]. simpl. rewrite <- Hab.
  destruct (is_token_sep a) eqn:Ha.
  - rewrite <- (Heq eq_refl). now constructor.
  - inversion IH; subst; repeat constructor; assumption.
Qed.

Lemma seg_attach_tag P C k pre :
  same_shape P C -> length pre = k ->
  seg_attach (pre ++ seg_checks P k) C k = Ok (unsegments (tag P C k)).
Proof.
  intros H. revert k pre. induction H as [|t t' P C _ IH|c P C _ IH]; intros k pre Hk.
  - cbn [Tokens.seg_checks Tokens.seg_attach Tokens.tag]. rewrite app_nil_r, Hk, Nat.eqb_refl. reflexivity.
  - cbn [Tokens.seg_checks Tokens.seg_attach Tokens.tag].
    replace (length (pre ++ token_check k t :: seg_checks P (S k)) <=? k)%nat with false
      by (rewrite length_app; cbn [length]; lia).
    replace (nth k (pre ++ token_check k t :: seg_checks P (S k)) [])
      with (token_check k t) by (subst k; now rewrite nth_middle).
    replace (pre ++ token_check k t :: seg_checks P (S k))
      with ((pre ++ [token_check k t]) ++ seg_checks P (S k)) by (now rewrite <- app_assoc).
    rewrite IH by (rewrite length_app; simpl; lia).
    unfold Tokens.unsegments. simpl. now rewrite <- app_assoc.
  - cbn [Tokens.seg_checks Tokens.seg_attach Tokens.tag]. rewrite IH by assumption. reflexivity.
Qed.

Section CheckProperties.

Variable n : nat.
Hypothesis check_length : forall k t, length (token_check k t) = n.
Hypothesis check_nosep : forall k t, nosep (token_check k t).

Lemma seg_strip_tag P C k :
  same_shape P C -> well_formed C ->
  seg_strip n (tag P C k) = Some (unsegments C, seg_checks P k).
Proof.
  intros H. revert k. induction H as [|t t' P C _ IH|c P C _ IH]; intros k Hwf.
  - reflexivity.
  - destruct Hwf as (Hne & _ & _ & Hwf). cbn [Tokens.tag Tokens.seg_strip Tokens.seg_checks].
    assert (Hlen : (length (t' ++ token_check k t) - n = length t')%nat)
      by (rewrite length_app, check_length; lia).
    replace (length (t' ++ token_check k t) <=? n)%nat with false
      by (rewrite length_app, check_length; destruct t'; [congruence | cbn [length]; lia]).
    rewrite IH by assumption. rewrite Hlen.
    rewrite firstn_app, Nat.sub_diag, firstn_all, firstn_O, app_nil_r.
    rewrite skipn_app, Nat.sub_diag, skipn_all, skipn_O. reflexivity.
  - destruct Hwf as (_ & Hwf). cbn [Tokens.tag Tokens.seg_strip Tokens.seg_checks].
    rewrite IH by assumption. reflexivity.
Qed.

Lemma tag_well_formed P C k :
  same_shape P C -> well_formed C -> well_formed (tag P C k).
Proof.
  intros H. revert k. induction H as [|t t' P C Hs IH|c P C _ IH]; intros k Hwf.
  - exact I.
  - destruct Hwf as (Hne & Hn & Hq & Hwf). cbn [Tokens.tag Tokens.well_formed]. repeat split.
    + destruct t'; [congruence | discriminate].
    + apply nosep_app; [assumption | apply check_nosep].
    + inversion Hs; subst; simpl in *; tauto.
    + now apply IH.
  - destruct Hwf as (Hc & Hwf). cbn [Tokens.tag Tokens.well_formed]. split; [assumption | now apply IH].
Qed.

(** Attaching the checks of [p] to an aligned [c] succeeds, and stripping
    them again returns [c] and exactly those checks. *)
Lemma attach_then_strip p c check_chars :
  aligned p c -> Z.to_nat (Z.max 1 check_chars) = n ->
  exists out,
    attach_checks_to_cipher is_token_sep c (build_loop is_token_sep token_check p [] [] 0)
      = Ok out
    /\ strip_checks_from_tagged is_token_sep out check_chars
      = Some (c, build_loop is_token_sep token_check p [] [] 0).
Proof.
  intros Hal Hn.
  pose proof (segments_same_shape p c Hal) as Hs.
  pose proof (segments_well_formed c) as Hwf.
  exists (unsegments (tag (segments p) (segments c) 0)).
  unfold attach_checks_to_cipher, strip_checks_from_tagged.
  rewrite (build_loop_spec p [] [] 0 nosep_nil). cbn [app].
  rewrite (attach_loop_spec _ c [] [] 0 nosep_nil). cbn [app].
  pose proof (seg_attach_tag _ _ 0 [] Hs eq_refl) as Ha. cbn [app] in Ha.
  rewrite Ha. split; [reflexivity|].
  rewrite Hn, (strip_loop_spec n _ [] [] [] nosep_nil). cbn [app].
  rewrite segments_unsegments by (now apply tag_well_formed).
  rewrite seg_strip_tag by assumption. now rewrite unsegments_segments.
Qed.

End CheckProperties.

(** Attaching alone needs no assumption on the checks. *)
Lemma attach_aligned p c :
  aligned p c ->
  exists out,
    attach_checks_to_cipher is_token_sep c (build_loop is_token_sep token_check p [] [] 0)
      = Ok out.
Proof.
  intros Hal. pose proof (segments_same_shape p c Hal) as Hs.
  exists (unsegments (tag (segments p) (segments c) 0)).
  unfold attach_checks_to_cipher.
  rewrite (build_loop_spec p [] [] 0 nosep_nil). cbn [app].
  rewrite (attach_loop_spec _ c [] [] 0 nosep_nil). cbn [app].
  pose proof (seg_attach_tag _ _ 0 [] Hs eq_refl) as Ha. cbn [app] in Ha.
  now rewrite Ha.
Qed.

End TokenLayerLemmas.

Lemma str_eqb_refl (a : str) : str_eqb a a = true.
Proof. induction a as [|x a IH]; [reflexivity|]. simpl. now rewrite Z.eqb_refl. Qed.

Lemma compare_checks_same (checks : list str) (plain : str) :
  compare_checks checks checks plain = mkVerified true plain.
Proof.
  unfold compare_checks. rewrite Nat.eqb_refl. cbn [negb].
  replace (existsb _ (combine checks checks)) with false; [reflexivity|].
  symmetry. induction checks as [|a l IH]; [reflexivity|].
  cbn [combine existsb fst snd]. now rewrite str_eqb_refl, IH.
Qed.

(* ================================================================== *)
(** * PhonoShift *)
(* ================================================================== *)

Module PhonoProofs.
Import PhonoShift PhonoClasses.

(** ** The loop body of the core transform, class by class *)

Lemma lower_classes_NoDup A : In A lower_classes -> NoDup A.
Proof. intros H. in_cases H; apply distinct_NoDup; reflexivity. Qed.

Lemma cased_classes_lower A : In A cased_classes -> In A lower_classes.
Proof. intros H. in_cases H; simpl; tauto. Qed.

Lemma fpe_step_lower A x ks d k :
  In A lower_classes -> In x A ->
  fpe_step ks d x k = (rotate_in_set_no_zero A x ((key_byte ks k + 1) * d), next_kpos ks k).
Proof. intros HA Hx. in_cases HA; in_cases Hx; reflexivity. Qed.

Lemma fpe_step_upper A x ks d k :
  In A cased_classes -> In x A ->
  fpe_step ks d (to_upper_ascii x) k =
    (to_upper_ascii (rotate_in_set_no_zero A x ((key_byte ks k + 1) * d)), next_kpos ks k).
Proof. intros HA Hx. in_cases HA; in_cases Hx; reflexivity. Qed.

Lemma fpe_step_separator c ks d k : is_separator c = true -> fpe_step ks d c k = (c, k).
Proof. intros H. unfold fpe_step. now rewrite H. Qed.

Lemma fpe_step_digit c ks d k :
  is_digit c = true ->
  fpe_step ks d c k =
    (48 + (c - 48 + ((key_byte ks k + 1) * d) mod 10 + 10) mod 10, next_kpos ks k).
Proof.
  intros H. unfold fpe_step. rewrite H.
  replace (is_separator c) with false; [reflexivity|].
  unfold is_digit in H. unfold is_separator.
  destruct (Z.eqb_spec c 32), (Z.eqb_spec c 45), (Z.eqb_spec c 39); try reflexivity; lia.
Qed.

Lemma phono_classify (c : Z) : scalar_class c.
Proof.
  destruct (is_separator c) eqn:Hsep; [now apply class_separator|].
  destruct (is_digit c) eqn:Hdig; [now apply class_digit|].
  destruct (is_ascii_upper c) eqn:Hup.
  - assert (Hr : 65 <= c <= 90) by (unfold is_ascii_upper in Hup; lia).
    apply (range_In 65 90) in Hr. in_cases Hr;
      match goal with
      | |- scalar_class ?c =>
          let x := eval vm_compute in (c + 32) in
          first [ apply (class_upper c VOW_LO x); [in_classes | in_list | reflexivity]
                | apply (class_upper c CON_LO x); [in_classes | in_list | reflexivity] ]
      end.
  - destruct (contains VOW_LO c) eqn:H1;
      [apply (class_lower c VOW_LO); [in_classes | now apply contains_In]|].
    destruct (contains CON_LO c) eqn:H2;
      [apply (class_lower c CON_LO); [in_classes | now apply contains_In]|].
    destruct (contains VOW_LO_PT c) eqn:H3;
      [apply (class_lower c VOW_LO_PT); [in_classes | now apply contains_In]|].
    destruct (contains VOW_UP_PT c) eqn:H4;
      [apply (class_lower c VOW_UP_PT); [in_classes | now apply contains_In]|].
    destruct (contains CON_LO_PT c) eqn:H5;
      [apply (class_lower c CON_LO_PT); [in_classes | now apply contains_In]|].
    destruct (contains CON_UP_PT c) eqn:H6;
      [apply (class_lower c CON_UP_PT); [in_classes | now apply contains_In]|].
    apply class_other. intros ks d k. unfold fpe_step.
    rewrite Hsep, Hdig, Hup, H1, H2, H3, H4, H5, H6. reflexivity.
Qed.

(** ** The core transform and its inverse *)

Lemma fpe_step_inv ks d c k :
  0 <= key_byte ks k -> d <> 0 ->
  fpe_step ks (- d) (fst (fpe_step ks d c k)) k = (c, snd (fpe_step ks d c k)).
Proof.
  intros Hb Hd.
  assert (Hs : (key_byte ks k + 1) * d <> 0) by nia.
  destruct (phono_classify c) as [H|H|A HA H|A x HA Hx ->|H].
  - rewrite (fpe_step_separator c ks d k H). simpl. now apply fpe_step_separator.
  - rewrite (fpe_step_digit c ks d k H). simpl.
    assert (Hc : 48 <= c <= 57) by (unfold is_digit in H; lia).
    rewrite fpe_step_digit.
    + rewrite Z.mul_opp_r. f_equal. now apply digit_shift_inv.
    + apply is_digit_mod10.
  - rewrite (fpe_step_lower A c ks d k HA H). simpl.
    rewrite (fpe_step_lower A) by (auto using rotate_in_set_no_zero_In).
    rewrite Z.mul_opp_r, rotate_in_set_no_zero_inv; auto using lower_classes_NoDup.
  - rewrite (fpe_step_upper A x ks d k HA Hx). simpl.
    rewrite (fpe_step_upper A) by (auto using rotate_in_set_no_zero_In).
    rewrite Z.mul_opp_r, rotate_in_set_no_zero_inv;
      auto using lower_classes_NoDup, cased_classes_lower.
  - rewrite H. simpl. apply H.
Qed.

Lemma fpe_loop_length ks d s k : length (fpe_loop ks d s k) = length s.
Proof.
  revert k. induction s as [|c s IH]; intros k; simpl; [reflexivity|].
  destruct (fpe_step ks d c k). simpl. now rewrite IH.
Qed.

Lemma fpe_loop_inv ks d s k :
  key_bytes_ok ks -> d <> 0 -> fpe_loop ks (- d) (fpe_loop ks d s k) k = s.
Proof.
  intros Hks Hd. revert k. induction s as [|c s IH]; intros k; simpl; [reflexivity|].
  pose proof (fpe_step_inv ks d c k (proj1 (key_byte_range ks k Hks)) Hd) as Hinv.
  destruct (fpe_step ks d c k) as [o k']. simpl in *. rewrite Hinv. now rewrite IH.
Qed.

Lemma fpe_transform_length s password iterations salt d :
  length (transform_name_name_like_fpe s password iterations salt d) = length s.
Proof.
  unfold transform_name_name_like_fpe. destruct s; [reflexivity|]. apply fpe_loop_length.
Qed.

(** The core transform with the opposite direction is its inverse. *)
Lemma fpe_transform_inv s password iterations salt d :
  d <> 0 ->
  transform_name_name_like_fpe
    (transform_name_name_like_fpe s password iterations salt d) password iterations salt (- d)
  = s.
Proof.
  intros Hd. unfold transform_name_name_like_fpe. destruct s as [|c r]; [reflexivity|].
  set (ks := derive_keystream password salt iterations (len (c :: r) + 64)).
  destruct (fpe_loop ks d (c :: r) 0) as [|o q] eqn:E.
  - apply (f_equal (@length Z)) in E. rewrite fpe_loop_length in E. discriminate.
  - rewrite <- E.
    replace (len (fpe_loop ks d (c :: r) 0)) with (len (c :: r))
      by (unfold len; now rewrite fpe_loop_length).
    fold ks. apply fpe_loop_inv; [apply keystream_bytes | assumption].
Qed.

(** ** The punctuation layer *)

Lemma latin_punct_rotated_class c shift :
  is_shift_punct c = true ->
  let o := if contains P_OPEN c then rotate_in_set_no_zero P_OPEN c shift
           else rotate_in_set_no_zero P_END c shift in
  is_shift_punct o = true /\ contains P_OPEN o = contains P_OPEN c.
Proof.
  intros H. unfold is_shift_punct in H.
  destruct (contains P_OPEN c) eqn:Ho; simpl.
  - apply contains_In in Ho.
    pose proof (rotate_in_set_no_zero_In P_OPEN c shift Ho) as Hin.
    in_cases Hin; rewrite <- Hin; split; reflexivity.
  - cbn [orb] in H. apply contains_In in H.
    pose proof (rotate_in_set_no_zero_In P_END c shift H) as Hin.
    in_cases Hin; rewrite <- Hin; split; reflexivity.
Qed.

Lemma latin_punct_loop_length ks d s k : length (punct_loop ks d s k) = length s.
Proof.
  revert k. induction s as [|c s IH]; intros k; simpl; [reflexivity|].
  destruct (is_shift_punct c); simpl; now rewrite IH.
Qed.

Lemma latin_punct_loop_count ks d s k :
  count is_shift_punct (punct_loop ks d s k) = count is_shift_punct s.
Proof.
  revert k. induction s as [|c s IH]; intros k; [reflexivity|].
  cbn [punct_loop count].
  destruct (is_shift_punct c) eqn:Hc; cbn [negb count].
  - destruct (latin_punct_rotated_class c ((key_byte ks k + 1) * d) Hc) as [-> _].
    now rewrite IH.
  - rewrite Hc. now rewrite IH.
Qed.

Lemma latin_punct_loop_inv ks d s k :
  key_bytes_ok ks -> d <> 0 -> punct_loop ks (- d) (punct_loop ks d s k) k = s.
Proof.
  intros Hks Hd. revert k. induction s as [|c s IH]; intros k; [reflexivity|].
  cbn [punct_loop].
  destruct (is_shift_punct c) eqn:Hc; cbn [negb punct_loop].
  - pose proof (key_byte_range ks k Hks) as Hb.
    assert (Hs : (key_byte ks k + 1) * d <> 0) by nia.
    destruct (latin_punct_rotated_class c ((key_byte ks k + 1) * d) Hc) as [H1 H2].
    cbv zeta in H1, H2. rewrite H1, H2. cbn [negb]. rewrite IH. f_equal.
    rewrite Z.mul_opp_r.
    destruct (contains P_OPEN c);
      apply rotate_in_set_no_zero_inv; auto; apply distinct_NoDup; reflexivity.
  - rewrite Hc. cbn [negb]. now rewrite IH.
Qed.

Lemma latin_punct_shift_length s password iterations salt d :
  length (punct_shift_apply s password iterations salt d) = length s.
Proof.
  unfold punct_shift_apply. destruct s; [reflexivity|].
  destruct (count is_shift_punct (z :: s) =? 0); [reflexivity|]. apply latin_punct_loop_length.
Qed.

Lemma latin_punct_shift_inv s password iterations salt d :
  d <> 0 ->
  punct_shift_apply (punct_shift_apply s password iterations salt d)
    password iterations salt (- d) = s.
Proof.
  intros Hd. unfold punct_shift_apply. destruct s as [|c r]; [reflexivity|].
  destruct (count is_shift_punct (c :: r) =? 0) eqn:Hn.
  - now rewrite Hn.
  - set (ks := derive_keystream password (salt ++ lit "|PunctShift:v1") iterations
                 (count is_shift_punct (c :: r) + 64)).
    destruct (punct_loop ks d (c :: r) 0) as [|o q] eqn:E.
    + apply (f_equal (@length Z)) in E. rewrite latin_punct_loop_length in E. discriminate.
    + rewrite <- E. rewrite latin_punct_loop_count, Hn. fold ks.
      apply latin_punct_loop_inv; [apply keystream_bytes | assumption].
Qed.

Lemma phono_roundtrip text password iterations salt shift_punct :
  rot500k_decrypt (rot500k_encrypt text password iterations salt shift_punct)
    password iterations salt shift_punct = text.
Proof.
  unfold rot500k_decrypt, rot500k_encrypt. destruct shift_punct.
  - rewrite (latin_punct_shift_inv _ password iterations salt 1) by lia.
    apply (fpe_transform_inv text password iterations salt 1). lia.
  - apply (fpe_transform_inv text password iterations salt 1). lia.
Qed.

(** ** The token layer *)

Lemma digit_not_token_sep x : is_digit x = true -> is_token_sep x = false.
Proof. unfold is_digit, is_token_sep. lia. Qed.

Lemma separator_is_token_sep x : is_separator x = true -> is_token_sep x = true.
Proof. unfold is_separator, is_token_sep. lia. Qed.

Lemma lower_class_not_token_sep A x :
  In A lower_classes -> In x A -> is_token_sep x = false.
Proof. intros HA Hx. in_cases HA; in_cases Hx; reflexivity. Qed.

Lemma upper_class_not_token_sep A x :
  In A cased_classes -> In x A -> is_token_sep (to_upper_ascii x) = false.
Proof. intros HA Hx. in_cases HA; in_cases Hx; reflexivity. Qed.

(** The core transform maps token separators to themselves and every other
    scalar to a scalar that is not a token separator. *)
Lemma fpe_step_aligned ks d c k :
  is_token_sep c = is_token_sep (fst (fpe_step ks d c k))
  /\ (is_token_sep c = true -> c = fst (fpe_step ks d c k)).
Proof.
  destruct (phono_classify c) as [H|H|A HA H|A x HA Hx ->|H].
  - rewrite (fpe_step_separator c ks d k H). cbn [fst]. auto.
  - rewrite (fpe_step_digit c ks d k H). cbn [fst].
    rewrite (digit_not_token_sep c H), (digit_not_token_sep _ (is_digit_mod10 _)).
    split; [reflexivity | discriminate].
  - rewrite (fpe_step_lower A c ks d k HA H). cbn [fst].
    rewrite (lower_class_not_token_sep A c HA H).
    rewrite (lower_class_not_token_sep A _ HA (rotate_in_set_no_zero_In A c _ H)).
    split; [reflexivity | discriminate].
  - rewrite (fpe_step_upper A x ks d k HA Hx). cbn [fst].
    rewrite (upper_class_not_token_sep A x HA Hx).
    rewrite (upper_class_not_token_sep A _ HA (rotate_in_set_no_zero_In A x _ Hx)).
    split; [reflexivity | discriminate].
  - rewrite H. cbn [fst]. auto.
Qed.

Lemma fpe_loop_aligned ks d s k : Tokens.aligned is_token_sep s (fpe_loop ks d s k).
Proof.
  revert k. induction s as [|c s IH]; intros k; [constructor|].
  cbn [fpe_loop]. pose proof (fpe_step_aligned ks d c k) as H.
  destruct (fpe_step ks d c k) as [o k']. constructor; [exact H | apply IH].
Qed.

Lemma fpe_transform_aligned s password iterations salt d :
  Tokens.aligned is_token_sep s (transform_name_name_like_fpe s password iterations salt d).
Proof.
  unfold transform_name_name_like_fpe. destruct s; [constructor|]. apply fpe_loop_aligned.
Qed.

Lemma make_token_check_length t k mac N :
  length (make_token_check t k mac N) = Z.to_nat (Z.max 1 N).
Proof. unfold make_token_check. now rewrite length_map, length_seq. Qed.

Lemma conset_not_token_sep x :
  In x CONSET -> is_token_sep x = false /\ is_token_sep (upper x) = false.
Proof. intros H. in_cases H; split; reflexivity. Qed.

Lemma make_token_check_nosep t k mac N : Tokens.nosep is_token_sep (make_token_check t k mac N).
Proof.
  intros x Hx. unfold make_token_check in Hx. apply in_map_iff in Hx.
  destruct Hx as [i [<- _]]. destruct k.
  - apply digit_not_token_sep, is_digit_mod10.
  - match goal with |- context [index CONSET ?j] =>
      assert (Hin : In (index CONSET j) CONSET)
        by (apply index_In, Z.mod_pos_bound; reflexivity)
    end.
    destruct (conset_not_token_sep _ Hin) as [H1 H2].
    destruct (_ && _); assumption.
Qed.

(** KT roundtrip, through the attach/strip lemma of the token layer. *)
Lemma token_tagged_roundtrip t p i s N sp :
  exists tagged,
    rot500k_token_tagged t p i s N sp = Ok tagged
    /\ rot500k_token_tagged_decrypt tagged p i s N sp = mkVerified true t.
Proof.
  unfold rot500k_token_tagged, rot500k_token_tagged_decrypt.
  unfold attach_checks_to_cipher, strip_checks_from_tagged, build_plain_token_checks.
  destruct (attach_then_strip is_token_sep (token_check p s i N) (Z.to_nat (Z.max 1 N))
              (fun k u => make_token_check_length _ _ _ _)
              (fun k u => make_token_check_nosep _ _ _ _)
              t (transform_name_name_like_fpe t p i s 1) N
              (fpe_transform_aligned t p i s 1) eq_refl) as [out [Ha Hs]].
  rewrite Ha. eexists. split; [reflexivity|].
  assert (Hback : (if sp then punct_shift_apply
                               (if sp then punct_shift_apply out p i s 1 else out) p i s (-1)
                   else (if sp then punct_shift_apply out p i s 1 else out)) = out).
  { destruct sp; [|reflexivity]. apply (latin_punct_shift_inv out p i s 1). lia. }
  rewrite Hback, Hs.
  rewrite (fpe_transform_inv t p i s 1 ltac:(lia) : transform_name_name_like_fpe _ p i s (-1) = t).
  apply compare_checks_same.
Qed.

(** KT encoding never raises. *)
Lemma token_tagged_never_raises t p i s N sp :
  exists tagged, rot500k_token_tagged t p i s N sp = Ok tagged.
Proof. destruct (token_tagged_roundtrip t p i s N sp) as [x [H _]]. eauto. Qed.

End PhonoProofs.

(* ================================================================== *)
(** * KanaShift *)
(* ================================================================== *)

Module KanaProofs.
Import KanaShift KanaClasses.

(** ** The skin family: paired alphabets *)

Lemma skin_pairs_facts P C :
  In (P, C) skin_pairs -> NoDup P /\ NoDup C /\ 2 <= len P <= len C.
Proof.
  intros H. pair_cases H;
    (split; [apply distinct_NoDup; reflexivity|];
     split; [apply distinct_NoDup; reflexivity|]; unfold len; simpl; lia).
Qed.

Lemma skin_encode_letter_pair P C x s :
  In (P, C) skin_pairs -> In x P ->
  skin_encode_letter x s = index C ((find P x + s mod len P) mod len P).
Proof. intros HP Hx. pair_cases HP; in_cases Hx; reflexivity. Qed.

Lemma skin_decode_letter_pair P C y s :
  In (P, C) skin_pairs -> In y C ->
  skin_decode_letter y s = index P ((find C y + s mod len P) mod len P).
Proof. intros HP Hy. pair_cases HP; in_cases Hy; reflexivity. Qed.

Lemma skin_step_encode c ks k :
  is_separator c = false ->
  skin_step ks 1 c k =
    (if is_digit c
     then 65296 + (c - 48 + ((Z.land (key_byte ks k) 255 + 1) * 1) mod 10 + 10) mod 10
     else skin_encode_letter c ((Z.land (key_byte ks k) 255 + 1) * 1),
     next_kpos ks k).
Proof. intros H. unfold skin_step. rewrite H. destruct (is_digit c); reflexivity. Qed.

Lemma skin_step_decode c ks k :
  is_separator c = false ->
  skin_step ks (-1) c k =
    (if is_digit c || is_fullwidth_digit c
     then 48 + ((if is_digit c then c - 48 else c - 65296)
                + ((Z.land (key_byte ks k) 255 + 1) * -1) mod 10 + 10) mod 10
     else skin_decode_letter c ((Z.land (key_byte ks k) 255 + 1) * -1),
     next_kpos ks k).
Proof.
  intros H. unfold skin_step. rewrite H.
  destruct (is_digit c || is_fullwidth_digit c); reflexivity.
Qed.

Lemma skin_step_separator c ks d k : is_separator c = true -> skin_step ks d c k = (c, k).
Proof. intros H. unfold skin_step. now rewrite H. Qed.

Lemma skin_classify c : skin_class c.
Proof.
  destruct (is_separator c) eqn:Hsep; [now apply skin_separator|].
  destruct (is_digit c) eqn:Hdig; [now apply skin_digit|].
  destruct (contains P_VOW_LO c) eqn:H1;
    [apply (skin_letter c P_VOW_LO C_VOW_LO); auto; [in_classes | now apply contains_In]|].
  destruct (contains P_CON_LO c) eqn:H2;
    [apply (skin_letter c P_CON_LO C_CON_LO); auto; [in_classes | now apply contains_In]|].
  destruct (contains P_VOW_UP c) eqn:H3;
    [apply (skin_letter c P_VOW_UP C_VOW_UP); auto; [in_classes | now apply contains_In]|].
  destruct (contains P_CON_UP c) eqn:H4;
    [apply (skin_letter c P_CON_UP C_CON_UP); auto; [in_classes | now apply contains_In]|].
  destruct (contains P_VOW_LO_PT c) eqn:H5;
    [apply (skin_letter c P_VOW_LO_PT C_ACC_LO); auto; [in_classes | now apply contains_In]|].
  destruct (contains P_VOW_UP_PT c) eqn:H6;
    [apply (skin_letter c P_VOW_UP_PT C_ACC_UP); auto; [in_classes | now apply contains_In]|].
  destruct (Z.eqb_spec c 231) as [->|H7]; [now apply skin_cedilla_lo|].
  destruct (Z.eqb_spec c 199) as [->|H8]; [now apply skin_cedilla_up|].
  apply skin_other; auto. intros s. unfold skin_encode_letter.
  rewrite H1, H2, H3, H4, H5, H6.
  destruct (Z.eqb_spec c 231); [contradiction|].
  destruct (Z.eqb_spec c 199); [contradiction|]. reflexivity.
Qed.

(** The glyph the encoder emits for a letter of a paired alphabet. *)
Lemma skin_glyph_In P C x s :
  In (P, C) skin_pairs -> In x P ->
  In (index C ((find P x + s mod len P) mod len P)) C.
Proof.
  intros HP Hx. destruct (skin_pairs_facts P C HP) as (_ & _ & Hlen).
  apply index_In.
  pose proof (Z.mod_pos_bound (find P x + s mod len P) (len P)). lia.
Qed.

Lemma cipher_glyph_facts P C y :
  In (P, C) skin_pairs -> In y C ->
  is_separator y = false /\ is_digit y = false /\ is_fullwidth_digit y = false
  /\ is_token_sep y = false /\ contains fullwidth_punct y = false.
Proof. intros HP Hy. pair_cases HP; in_cases Hy; repeat split; reflexivity. Qed.

Lemma plain_letter_facts P C x :
  In (P, C) skin_pairs -> In x P -> is_token_sep x = false /\ contains fullwidth_punct x = false.
Proof. intros HP Hx. pair_cases HP; in_cases Hx; repeat split; reflexivity. Qed.

(** Decoding the scalar that the encoder emitted, at the same cursor,
    recovers a scalar that is not itself a cipher glyph. *)
Lemma skin_step_inv ks c k :
  skin_cipher_scalar c = false ->
  skin_step ks (-1) (fst (skin_step ks 1 c k)) k = (c, snd (skin_step ks 1 c k)).
Proof.
  intros Hplain. set (s := Z.land (key_byte ks k) 255 + 1).
  destruct (skin_classify c) as [H|Hsep H|P C Hsep Hdig HP Hx| -> | -> |Hsep Hdig H].
  - rewrite (skin_step_separator c ks 1 k H). cbn [fst snd]. now apply skin_step_separator.
  - rewrite (skin_step_encode c ks k Hsep), H. cbn [fst snd]. fold s.
    assert (Hc : 48 <= c <= 57) by (unfold is_digit in H; lia).
    pose proof (Z.mod_pos_bound (c - 48 + (s * 1) mod 10 + 10) 10 ltac:(lia)) as Hm.
    rewrite skin_step_decode by (unfold is_separator; lia). fold s.
    replace (is_digit _) with false by (unfold is_digit; lia).
    replace (is_fullwidth_digit _) with true by (unfold is_fullwidth_digit; lia).
    cbn [orb]. f_equal. replace (s * -1) with (- (s * 1)) by lia.
    now apply fullwidth_digit_shift_inv.
  - rewrite (skin_step_encode c ks k Hsep), Hdig. cbn [fst snd]. fold s.
    rewrite (skin_encode_letter_pair P C c _ HP Hx).
    pose proof (skin_glyph_In P C c (s * 1) HP Hx) as Hy.
    destruct (cipher_glyph_facts P C _ HP Hy) as (Hs & Hd & Hf & _).
    destruct (skin_pairs_facts P C HP) as (HndP & HndC & Hlen).
    rewrite (skin_step_decode _ ks k Hs), Hd, Hf. cbn [orb]. fold s. f_equal.
    rewrite (skin_decode_letter_pair P C _ _ HP Hy).
    pose proof (find_In P c Hx) as Hi.
    rewrite find_index by
      (auto; pose proof (Z.mod_pos_bound (find P c + (s * 1) mod len P) (len P)); lia).
    replace (s * -1) with (- (s * 1)) by lia.
    rewrite index_shift_inv by assumption. now apply index_find.
  - reflexivity.
  - reflexivity.
  - rewrite (skin_step_encode c ks k Hsep), Hdig, H. cbn [fst snd].
    unfold skin_cipher_scalar in Hplain.
    repeat (apply orb_false_elim in Hplain; destruct Hplain as [Hplain ?]).
    rewrite (skin_step_decode c ks k Hsep), Hdig, Hplain. cbn [orb]. f_equal.
    unfold skin_decode_letter.
    repeat match goal with H : ?b = false |- context [if ?b then _ else _] => rewrite H end.
    reflexivity.
Qed.

(** ** Punctuation translation *)

Lemma dict_get_miss mp c d : ~ In c (map fst mp) -> dict_get mp c d = d.
Proof.
  induction mp as [|[k v] mp IH]; intros H; [reflexivity|]. simpl in *.
  destruct (Z.eqb_spec k c); [tauto|]. apply IH. tauto.
Qed.

Lemma punct_translate_length s d : length (punct_translate s d) = length s.
Proof. unfold punct_translate. destruct s; [reflexivity|]. apply length_map. Qed.

Lemma punct_encode_scalar_inv c :
  contains fullwidth_punct c = false ->
  dict_get _PUNCT_DEC_MAP (dict_get _PUNCT_ENC_MAP c c) (dict_get _PUNCT_ENC_MAP c c) = c.
Proof.
  intros H. destruct (in_dec Z.eq_dec c (map fst _PUNCT_ENC_MAP)) as [Hin|Hout].
  - in_cases Hin; reflexivity.
  - rewrite (dict_get_miss _ c c Hout). apply dict_get_miss.
    apply contains_false in H. exact H.
Qed.

Lemma punct_translate_inv s :
  forallb (fun c => negb (contains fullwidth_punct c)) s = true ->
  punct_translate (punct_translate s 1) (-1) = s.
Proof.
  intros H. unfold punct_translate. destruct s as [|c s]; [reflexivity|].
  change (1 >? 0) with true. change (-1 >? 0) with false. cbv iota.
  remember (c :: s) as t eqn:Et. clear Et.
  destruct (map (fun c0 => dict_get _PUNCT_ENC_MAP c0 c0) t) eqn:E.
  - destruct t; [reflexivity | discriminate].
  - rewrite <- E. clear E. rewrite map_map.
    induction t as [|x t IH]; [reflexivity|]. simpl in H.
    apply andb_true_iff in H. destruct H as [Hx Ht]. cbn [map].
    rewrite punct_encode_scalar_inv by (now apply negb_true_iff). now rewrite IH.
Qed.

(** ** Keyed JP punctuation shifting *)

Lemma jp_punct_rotated_class c shift :
  _is_shift_punct c = true ->
  let o := if contains P_END c then rotate_in_set_no_zero P_END c shift
           else rotate_in_set_no_zero P_MID c shift in
  _is_shift_punct o = true /\ contains P_END o = contains P_END c.
Proof.
  intros H. unfold _is_shift_punct in H.
  destruct (contains P_END c) eqn:Ho; cbv zeta.
  - apply contains_In in Ho.
    pose proof (rotate_in_set_no_zero_In P_END c shift Ho) as Hin.
    in_cases Hin; rewrite <- Hin; split; reflexivity.
  - cbn [orb] in H. apply contains_In in H.
    pose proof (rotate_in_set_no_zero_In P_MID c shift H) as Hin.
    in_cases Hin; rewrite <- Hin; split; reflexivity.
Qed.

Lemma jp_punct_loop_length ks d s k : length (punct_loop ks d s k) = length s.
Proof.
  revert k. induction s as [|c s IH]; intros k; simpl; [reflexivity|].
  destruct (_is_shift_punct c); simpl; now rewrite IH.
Qed.

Lemma jp_punct_loop_count ks d s k :
  count _is_shift_punct (punct_loop ks d s k) = count _is_shift_punct s.
Proof.
  revert k. induction s as [|c s IH]; intros k; [reflexivity|].
  cbn [punct_loop count].
  destruct (_is_shift_punct c) eqn:Hc; cbn [negb count].
  - destruct (jp_punct_rotated_class c (Z.land (key_byte ks k) 255 * d) Hc) as [-> _].
    now rewrite IH.
  - rewrite Hc. now rewrite IH.
Qed.

Lemma jp_punct_loop_inv ks s k :
  punct_zero_free ks s k = true -> punct_loop ks (-1) (punct_loop ks 1 s k) k = s.
Proof.
  revert k. induction s as [|c s IH]; intros k Hz; [reflexivity|].
  cbn [punct_loop punct_zero_free] in *.
  destruct (_is_shift_punct c) eqn:Hc; cbn [negb punct_loop] in *.
  - apply andb_true_iff in Hz. destruct Hz as [Hb Hz].
    destruct (jp_punct_rotated_class c (Z.land (key_byte ks k) 255 * 1) Hc) as [H1 H2].
    cbv zeta in H1, H2. rewrite H1, H2. cbn [negb]. rewrite IH by assumption. f_equal.
    replace (Z.land (key_byte ks k) 255 * -1)
      with (- (Z.land (key_byte ks k) 255 * 1)) by lia.
    destruct (contains P_END c); cbn [orb] in Hb;
      apply rotate_in_set_no_zero_inv';
      try (apply distinct_NoDup; reflexivity).
    + right. unfold len. simpl. lia.
    + left. lia.
  - rewrite Hc. cbn [negb]. now rewrite IH.
Qed.

Lemma jp_punct_shift_length s password iterations salt d :
  length (punct_shift_apply s password iterations salt d) = length s.
Proof.
  unfold punct_shift_apply. destruct s; [reflexivity|].
  destruct (count _is_shift_punct (z :: s) =? 0); [reflexivity|]. apply jp_punct_loop_length.
Qed.

Lemma jp_punct_shift_inv s password iterations salt :
  punct_keys_zero_free s password iterations salt = true ->
  punct_shift_apply (punct_shift_apply s password iterations salt 1)
    password iterations salt (-1) = s.
Proof.
  unfold punct_keys_zero_free, punct_shift_apply. intros Hz.
  destruct s as [|c r]; [reflexivity|].
  destruct (count _is_shift_punct (c :: r) =? 0) eqn:Hn.
  - now rewrite Hn.
  - set (ks := pbkdf2_keystream password (salt ++ lit "|PunctShiftJP:v2") iterations
                 (count _is_shift_punct (c :: r) + 64)) in *.
    destruct (punct_loop ks 1 (c :: r) 0) as [|o q] eqn:E.
    + apply (f_equal (@length Z)) in E. rewrite jp_punct_loop_length in E. discriminate.
    + rewrite <- E. rewrite jp_punct_loop_count, Hn. fold ks.
      now apply jp_punct_loop_inv.
Qed.

(** ** The skin family *)

Lemma is_fullwidth_digit_mod10 (x : Z) : is_fullwidth_digit (65296 + x mod 10) = true.
Proof.
  pose proof (Z.mod_pos_bound x 10 ltac:(lia)) as H.
  unfold is_fullwidth_digit. generalize dependent (x mod 10). intros r H. lia.
Qed.

Lemma fullwidth_digit_not_punct x :
  is_fullwidth_digit x = true -> contains fullwidth_punct x = false.
Proof.
  unfold is_fullwidth_digit, contains, fullwidth_punct. cbn [existsb]. lia.
Qed.


Lemma skin_loop_length ks d s k : length (skin_loop ks d s k) = length s.
Proof.
  revert k. induction s as [|c s IH]; intros k; simpl; [reflexivity|].
  destruct (skin_step ks d c k). simpl. now rewrite IH.
Qed.

Lemma skin_transform_length s password iterations salt d :
  length (_skin_transform s password iterations salt d) = length s.
Proof.
  unfold _skin_transform. destruct s; [reflexivity|]. apply skin_loop_length.
Qed.

Lemma skin_loop_inv ks s k :
  forallb (fun c => negb (skin_cipher_scalar c)) s = true ->
  skin_loop ks (-1) (skin_loop ks 1 s k) k = s.
Proof.
  revert k. induction s as [|c s IH]; intros k H; [reflexivity|].
  cbn [forallb] in H. apply andb_true_iff in H. destruct H as [Hc Hs].
  apply negb_true_iff in Hc. cbn [skin_loop].
  pose proof (skin_step_inv ks c k Hc) as Hinv.
  destruct (skin_step ks 1 c k) as [o k']. cbn [fst snd skin_loop] in *.
  rewrite Hinv. now rewrite IH.
Qed.

Lemma skin_transform_inv s password iterations salt :
  forallb (fun c => negb (skin_cipher_scalar c)) s = true ->
  _skin_transform (_skin_transform s password iterations salt 1) password iterations salt (-1)
  = s.
Proof.
  intros H. unfold _skin_transform. destruct s as [|c r]; [reflexivity|].
  set (ks := pbkdf2_keystream password salt iterations (len (c :: r) + 64)).
  destruct (skin_loop ks 1 (c :: r) 0) as [|o q] eqn:E.
  - apply (f_equal (@length Z)) in E. rewrite skin_loop_length in E. discriminate.
  - rewrite <- E.
    replace (len (skin_loop ks 1 (c :: r) 0)) with (len (c :: r))
      by (unfold len; now rewrite skin_loop_length).
    fold ks. now apply skin_loop_inv.
Qed.

(** What the encoder emits is never in the fullwidth column of the
    punctuation table, unless the plaintext scalar already was. *)
Lemma skin_step_not_fullwidth_punct ks c k :
  contains fullwidth_punct c = false ->
  contains fullwidth_punct (fst (skin_step ks 1 c k)) = false.
Proof.
  intros Hc.
  destruct (skin_classify c) as [H|Hsep H|P C Hsep Hdig HP Hx| -> | -> |Hsep Hdig H].
  - now rewrite (skin_step_separator c ks 1 k H).
  - rewrite (skin_step_encode c ks k Hsep), H. cbn [fst].
    apply fullwidth_digit_not_punct, is_fullwidth_digit_mod10.
  - rewrite (skin_step_encode c ks k Hsep), Hdig. cbn [fst].
    rewrite (skin_encode_letter_pair P C c _ HP Hx).
    apply (cipher_glyph_facts P C _ HP (skin_glyph_In P C c _ HP Hx)).
  - reflexivity.
  - reflexivity.
  - rewrite (skin_step_encode c ks k Hsep), Hdig, H. exact Hc.
Qed.

Lemma skin_loop_not_fullwidth_punct ks s k :
  forallb (fun c => negb (contains fullwidth_punct c)) s = true ->
  forallb (fun c => negb (contains fullwidth_punct c)) (skin_loop ks 1 s k) = true.
Proof.
  revert k. induction s as [|c s IH]; intros k H; [reflexivity|].
  cbn [forallb] in H. apply andb_true_iff in H. destruct H as [Hc Hs].
  apply negb_true_iff in Hc. cbn [skin_loop].
  pose proof (skin_step_not_fullwidth_punct ks c k Hc) as Ho.
  destruct (skin_step ks 1 c k) as [o k']. cbn [fst forallb] in *.
  rewrite Ho. cbn [negb andb]. now apply IH.
Qed.

Lemma skin_roundtrip text password iterations salt shift_punct :
  forallb skin_plain_scalar text = true ->
  (shift_punct = true ->
   punct_keys_zero_free (punct_translate (_skin_transform text password iterations salt 1) 1)
     password iterations salt = true) ->
  kanashift_skin_decrypt (kanashift_skin_encrypt text password iterations salt shift_punct)
    password iterations salt shift_punct = text.
Proof.
  intros Hplain Hkeys. apply forallb_and in Hplain. destruct Hplain as [Hp1 Hp2].
  unfold kanashift_skin_decrypt, kanashift_skin_encrypt.
  assert (Hin : (if shift_punct
                 then punct_shift_apply
                        (if shift_punct
                         then punct_shift_apply
                                (punct_translate (_skin_transform text password iterations salt 1) 1)
                                password iterations salt 1
                         else punct_translate (_skin_transform text password iterations salt 1) 1)
                        password iterations salt (-1)
                 else (if shift_punct
                       then punct_shift_apply
                              (punct_translate (_skin_transform text password iterations salt 1) 1)
                              password iterations salt 1
                       else punct_translate (_skin_transform text password iterations salt 1) 1))
                = punct_translate (_skin_transform text password iterations salt 1) 1).
  { destruct shift_punct; [|reflexivity]. apply jp_punct_shift_inv. now apply Hkeys. }
  rewrite Hin. rewrite punct_translate_inv.
  - now apply skin_transform_inv.
  - unfold _skin_transform. destruct text; [reflexivity|].
    now apply skin_loop_not_fullwidth_punct.
Qed.


Ltac unfold_preds :=
  unfold is_separator, is_stable_jp_mark, is_ascii_upper, is_ascii_lower, is_digit,
    is_fullwidth_digit, is_hiragana, is_katakana, is_kanji in *.

(** Rewrite a predicate on [c] with its value when the context decides it. *)
Ltac pred_val p c :=
  first [ assert (p c = true) as -> by (unfold_preds; lia)
        | assert (p c = false) as -> by (unfold_preds; lia)
        | idtac ].

Ltac preds c :=
  pred_val is_separator c; pred_val is_stable_jp_mark c; pred_val is_ascii_upper c;
  pred_val is_ascii_lower c; pred_val is_digit c; pred_val is_fullwidth_digit c;
  pred_val is_hiragana c; pred_val is_katakana c; pred_val is_kanji c.

(** ** The rotators of the family *)

Lemma rotate_in_set_allow_zero_In A ch shift :
  In ch A -> In (rotate_in_set_allow_zero A ch shift) A.
Proof.
  intros H. unfold rotate_in_set_allow_zero. pose proof (find_In A ch H) as Hr.
  destruct (Z.ltb_spec (find A ch) 0); [lia|].
  apply index_In, Z.mod_pos_bound. lia.
Qed.

Lemma rotate_in_set_allow_zero_inv A ch shift :
  NoDup A -> In ch A ->
  rotate_in_set_allow_zero A (rotate_in_set_allow_zero A ch shift) (- shift) = ch.
Proof.
  intros Hnd Hin. pose proof (find_In A ch Hin) as Hr.
  unfold rotate_in_set_allow_zero at 2.
  destruct (Z.ltb_spec (find A ch) 0); [lia|].
  set (j := (find A ch + shift mod len A) mod len A).
  assert (Hj : 0 <= j < len A) by (apply Z.mod_pos_bound; lia).
  unfold rotate_in_set_allow_zero. rewrite (find_index A j Hnd Hj).
  destruct (Z.ltb_spec j 0); [lia|]. unfold j.
  rewrite index_shift_inv by assumption. now apply index_find.
Qed.

Lemma rotate_codepoint_range_bounds c s lo hi :
  lo <= c <= hi ->
  lo <= rotate_codepoint_range_no_zero c s lo hi <= hi.
Proof.
  intros H. unfold rotate_codepoint_range_no_zero.
  replace ((c <? lo) || (c >? hi)) with false by lia.
  pose proof (Z.mod_pos_bound (c - lo + effective_shift s (hi - lo + 1)) (hi - lo + 1)).
  lia.
Qed.

Lemma rotate_codepoint_range_inv c s lo hi :
  lo <= c <= hi -> lo < hi -> s <> 0 ->
  rotate_codepoint_range_no_zero (rotate_codepoint_range_no_zero c s lo hi) (- s) lo hi = c.
Proof.
  intros Hc Hlo Hs.
  pose proof (rotate_codepoint_range_bounds c s lo hi Hc) as Hb.
  unfold rotate_codepoint_range_no_zero at 1.
  replace ((_ <? lo) || (_ >? hi)) with false by lia.
  unfold rotate_codepoint_range_no_zero.
  replace ((c <? lo) || (c >? hi)) with false by lia.
  set (n := hi - lo + 1) in *.
  replace (lo + (c - lo + effective_shift s n) mod n - lo)
    with ((c - lo + effective_shift s n) mod n) by lia.
  rewrite Zplus_mod_idemp_l, <- Z.add_assoc, <- Zplus_mod_idemp_r.
  rewrite effective_shift_opp by lia. rewrite Z.add_0_r, Z.mod_small; lia.
Qed.

Lemma hiragana_In c : is_hiragana c = true <-> In c JP_HIRA.
Proof.
  split.
  - intros H. apply (range_In 0x3041 0x3096). unfold is_hiragana in H. lia.
  - intros H. assert (Hall : forallb is_hiragana JP_HIRA = true) by reflexivity.
    rewrite forallb_forall in Hall. now apply Hall.
Qed.

Lemma katakana_In c : is_katakana c = true <-> In c JP_KATA.
Proof.
  split.
  - intros H. apply (range_In 0x30A1 0x30FA). unfold is_katakana in H. lia.
  - intros H. assert (Hall : forallb is_katakana JP_KATA = true) by reflexivity.
    rewrite forallb_forall in Hall. now apply Hall.
Qed.

(** ** The loop body, class by class *)

Lemma jp_step_skip c ks d k :
  is_separator c || is_stable_jp_mark c = true -> jp_step ks d c k = (c, k).
Proof.
  intros H. unfold jp_step. destruct (is_separator c); [reflexivity|].
  cbn [orb] in H. now rewrite H.
Qed.

Lemma jp_letter_classes_NoDup A : In A jp_letter_classes -> NoDup A.
Proof. intros H. in_cases H; apply distinct_NoDup; reflexivity. Qed.

Lemma jp_step_lower A x ks d k :
  In A jp_letter_classes -> In x A ->
  jp_step ks d x k
  = (rotate_in_set_allow_zero A x (Z.land (key_byte ks k) 255 * d), next_kpos ks k).
Proof. intros HA Hx. in_cases HA; in_cases Hx; reflexivity. Qed.

Lemma jp_step_upper A x ks d k :
  In A jp_letter_classes -> In x A ->
  jp_step ks d (upper x) k
  = (upper (rotate_in_set_allow_zero A x (Z.land (key_byte ks k) 255 * d)), next_kpos ks k).
Proof. intros HA Hx. in_cases HA; in_cases Hx; reflexivity. Qed.

Lemma jp_step_kana_kanji c ks d k :
  is_hiragana c || is_katakana c || is_kanji c = true ->
  jp_step ks d c k
  = (jp_rotate_kana_kanji c (Z.land (key_byte ks k) 255 * d), next_kpos ks k).
Proof.
  intros H. unfold jp_step. preds c. cbn [orb]. destruct (d >? 0); reflexivity.
Qed.

Lemma jp_step_encode_digit c ks k :
  is_digit c = true ->
  jp_step ks 1 c k
  = (65296 + (c - 48 + effective_shift (Z.land (key_byte ks k) 255 * 1) 10 + 10) mod 10,
     next_kpos ks k).
Proof. intros H. unfold jp_step. preds c. reflexivity. Qed.

Lemma jp_step_encode_fullwidth_digit c ks k :
  is_fullwidth_digit c = true ->
  jp_step ks 1 c k
  = (65296 + (c - 65296 + effective_shift (Z.land (key_byte ks k) 255 * 1) 10 + 10) mod 10,
     next_kpos ks k).
Proof. intros H. unfold jp_step. preds c. reflexivity. Qed.

Lemma jp_step_decode_fullwidth_digit c ks k :
  is_fullwidth_digit c = true ->
  jp_step ks (-1) c k
  = (48 + (c - 65296 + effective_shift (Z.land (key_byte ks k) 255 * -1) 10 + 10) mod 10,
     next_kpos ks k).
Proof. intros H. unfold jp_step. preds c. reflexivity. Qed.

Lemma jp_step_decode_digit c ks k :
  is_digit c = true ->
  jp_step ks (-1) c k
  = (48 + (c - 48 + effective_shift (Z.land (key_byte ks k) 255 * -1) 10 + 10) mod 10,
     next_kpos ks k).
Proof. intros H. unfold jp_step. preds c. reflexivity. Qed.

Lemma jp_classify c : jp_class c.
Proof.
  destruct (is_separator c || is_stable_jp_mark c) eqn:Hskip; [now apply jp_skip|].
  apply orb_false_elim in Hskip. destruct Hskip as [Hsep Hst].
  destruct (is_ascii_upper c) eqn:Hup.
  { assert (Hr : 65 <= c <= 90) by (unfold is_ascii_upper in Hup; lia).
    apply (range_In 65 90) in Hr. in_cases Hr;
      match goal with
      | |- jp_class ?c =>
          let x := eval vm_compute in (c + 32) in
          first [ apply (jp_upper c P_VOW_LO x); [in_classes | in_list | reflexivity]
                | apply (jp_upper c P_CON_LO x); [in_classes | in_list | reflexivity] ]
      end. }
  destruct (is_ascii_lower c) eqn:Hlo.
  { assert (Hr : 97 <= c <= 122) by (unfold is_ascii_lower in Hlo; lia).
    apply (range_In 97 122) in Hr. in_cases Hr;
      first [ apply (jp_lower _ P_VOW_LO); [in_classes | in_list]
            | apply (jp_lower _ P_CON_LO); [in_classes | in_list] ]. }
  destruct (is_digit c) eqn:Hdig; [now apply jp_digit|].
  destruct (is_fullwidth_digit c) eqn:Hfw; [now apply jp_fullwidth_digit|].
  destruct (is_hiragana c) eqn:Hh; [now apply jp_hiragana|].
  destruct (is_katakana c) eqn:Hk; [now apply jp_katakana|].
  destruct (is_kanji c) eqn:Hj; [now apply jp_kanji|].
  apply jp_other.
  - unfold jp_no_zero_class. now rewrite Hdig, Hfw, Hh, Hk, Hj.
  - intros ks d k. unfold jp_step, jp_rotate_kana_kanji.
    rewrite Hsep, Hst, Hup, Hlo, Hdig, Hfw, Hh, Hk, Hj. cbn [orb].
    destruct (d >? 0); reflexivity.
Qed.

Lemma letter_facts A x :
  In A jp_letter_classes -> In x A ->
  is_token_sep x = false /\ is_token_sep (upper x) = false
  /\ contains fullwidth_punct x = false /\ contains fullwidth_punct (upper x) = false.
Proof. intros HA Hx. in_cases HA; in_cases Hx; repeat split; reflexivity. Qed.

Lemma hiragana_only o :
  is_hiragana o = true -> is_katakana o = false /\ is_kanji o = false.
Proof. unfold_preds. lia. Qed.

Lemma katakana_only o :
  is_katakana o = true -> is_hiragana o = false /\ is_kanji o = false.
Proof. unfold_preds. lia. Qed.

Lemma kanji_only o :
  is_kanji o = true -> is_hiragana o = false /\ is_katakana o = false.
Proof. unfold_preds. lia. Qed.

Lemma is_kanji_bounds o : is_kanji o = true <-> 0x4E00 <= o <= 0x9FFF.
Proof. unfold is_kanji. lia. Qed.

(** What [jp_rotate_kana_kanji] returns for a kana or a kanji stays in the
    class of its argument, and rotating back recovers it. *)
Lemma jp_rotate_kana_kanji_class c s :
  is_hiragana c || is_katakana c || is_kanji c = true ->
  is_hiragana (jp_rotate_kana_kanji c s) = is_hiragana c
  /\ is_katakana (jp_rotate_kana_kanji c s) = is_katakana c
  /\ is_kanji (jp_rotate_kana_kanji c s) = is_kanji c.
Proof.
  intros H. unfold jp_rotate_kana_kanji.
  destruct (is_hiragana c) eqn:Hh.
  - destruct (hiragana_only c Hh) as [-> ->].
    pose proof (proj2 (hiragana_In _)
                  (rotate_in_set_no_zero_In JP_HIRA c s (proj1 (hiragana_In c) Hh))) as Ho.
    destruct (hiragana_only _ Ho) as [-> ->]. now rewrite Ho.
  - destruct (is_katakana c) eqn:Hk.
    + destruct (katakana_only c Hk) as [_ ->].
      pose proof (proj2 (katakana_In _)
                    (rotate_in_set_no_zero_In JP_KATA c s (proj1 (katakana_In c) Hk))) as Ho.
      destruct (katakana_only _ Ho) as [-> ->]. now rewrite Ho.
    + cbn [orb] in H. rewrite H.
      pose proof (proj2 (is_kanji_bounds _)
                    (rotate_codepoint_range_bounds c s 0x4E00 0x9FFF
                       (proj1 (is_kanji_bounds c) H))) as Ho.
      destruct (kanji_only _ Ho) as [-> ->]. now rewrite Ho.
Qed.

Lemma jp_rotate_kana_kanji_inv c s :
  s <> 0 -> jp_rotate_kana_kanji (jp_rotate_kana_kanji c s) (- s) = c.
Proof.
  intros Hs.
  destruct (is_hiragana c || is_katakana c || is_kanji c) eqn:H.
  - destruct (jp_rotate_kana_kanji_class c s H) as (H1 & H2 & H3).
    unfold jp_rotate_kana_kanji at 1. rewrite H1, H2, H3.
    unfold jp_rotate_kana_kanji.
    destruct (is_hiragana c);
      [apply rotate_in_set_no_zero_inv; [apply distinct_NoDup; reflexivity | assumption]|].
    destruct (is_katakana c);
      [apply rotate_in_set_no_zero_inv; [apply distinct_NoDup; reflexivity | assumption]|].
    cbn [orb] in H. rewrite H.
    apply rotate_codepoint_range_inv; [unfold is_kanji in H; lia | lia | assumption].
  - apply orb_false_elim in H. destruct H as [H H3].
    apply orb_false_elim in H. destruct H as [H1 H2].
    unfold jp_rotate_kana_kanji. rewrite H1, H2, H3. now rewrite H1, H2, H3.
Qed.

(** Decoding the scalar that the encoder emitted, at the same cursor. *)
Lemma jp_step_inv ks c k :
  is_fullwidth_digit c = false ->
  (jp_no_zero_class c = true -> Z.land (key_byte ks k) 255 <> 0) ->
  jp_step ks (-1) (fst (jp_step ks 1 c k)) k = (c, snd (jp_step ks 1 c k)).
Proof.
  intros Hfw Hkey. set (b := Z.land (key_byte ks k) 255) in *.
  destruct (jp_classify c) as [H|A HA H|A x HA Hx ->|H|H|H|H|H|Hn H].
  - rewrite (jp_step_skip c ks 1 k H). cbn [fst snd]. now apply jp_step_skip.
  - rewrite (jp_step_lower A c ks 1 k HA H). cbn [fst snd]. fold b.
    rewrite (jp_step_lower A) by (auto using rotate_in_set_allow_zero_In). fold b.
    replace (b * -1) with (- (b * 1)) by lia.
    rewrite rotate_in_set_allow_zero_inv; auto using jp_letter_classes_NoDup.
  - rewrite (jp_step_upper A x ks 1 k HA Hx). cbn [fst snd]. fold b.
    rewrite (jp_step_upper A) by (auto using rotate_in_set_allow_zero_In). fold b.
    replace (b * -1) with (- (b * 1)) by lia.
    rewrite rotate_in_set_allow_zero_inv; auto using jp_letter_classes_NoDup.
  - assert (Hb : b <> 0) by (apply Hkey; unfold jp_no_zero_class; now rewrite H).
    rewrite (jp_step_encode_digit c ks k H). cbn [fst snd]. fold b.
    rewrite jp_step_decode_fullwidth_digit by apply is_fullwidth_digit_mod10. fold b.
    f_equal.
    replace (65296 + (c - 48 + effective_shift (b * 1) 10 + 10) mod 10 - 65296)
      with ((c - 48 + effective_shift (b * 1) 10 + 10) mod 10) by lia.
    rewrite shifted_digit_inv; [unfold is_digit in H; lia | unfold is_digit in H; lia |].
    replace (b * -1) with (- (b * 1)) by lia. apply effective_shift_opp; lia.
  - congruence.
  - assert (Hb : b <> 0) by (apply Hkey; unfold jp_no_zero_class; rewrite H; lia).
    assert (Hc : is_hiragana c || is_katakana c || is_kanji c = true) by (rewrite H; reflexivity).
    rewrite (jp_step_kana_kanji c ks 1 k Hc). cbn [fst snd]. fold b.
    destruct (jp_rotate_kana_kanji_class c (b * 1) Hc) as (H1 & H2 & H3).
    rewrite jp_step_kana_kanji by (rewrite H1, H2, H3; exact Hc). fold b.
    replace (b * -1) with (- (b * 1)) by lia.
    rewrite jp_rotate_kana_kanji_inv by lia. reflexivity.
  - assert (Hb : b <> 0) by (apply Hkey; unfold jp_no_zero_class; rewrite H; lia).
    assert (Hc : is_hiragana c || is_katakana c || is_kanji c = true) by (rewrite H; lia).
    rewrite (jp_step_kana_kanji c ks 1 k Hc). cbn [fst snd]. fold b.
    destruct (jp_rotate_kana_kanji_class c (b * 1) Hc) as (H1 & H2 & H3).
    rewrite jp_step_kana_kanji by (rewrite H1, H2, H3; exact Hc). fold b.
    replace (b * -1) with (- (b * 1)) by lia.
    rewrite jp_rotate_kana_kanji_inv by lia. reflexivity.
  - assert (Hb : b <> 0) by (apply Hkey; unfold jp_no_zero_class; rewrite H; lia).
    assert (Hc : is_hiragana c || is_katakana c || is_kanji c = true) by (rewrite H; lia).
    rewrite (jp_step_kana_kanji c ks 1 k Hc). cbn [fst snd]. fold b.
    destruct (jp_rotate_kana_kanji_class c (b * 1) Hc) as (H1 & H2 & H3).
    rewrite jp_step_kana_kanji by (rewrite H1, H2, H3; exact Hc). fold b.
    replace (b * -1) with (- (b * 1)) by lia.
    rewrite jp_rotate_kana_kanji_inv by lia. reflexivity.
  - rewrite H. cbn [fst snd]. apply H.
Qed.


Lemma jp_step_cursor ks d c k :
  snd (jp_step ks d c k)
  = if is_separator c || is_stable_jp_mark c then k else next_kpos ks k.
Proof.
  unfold jp_step. destruct (is_separator c); [reflexivity|].
  destruct (is_stable_jp_mark c); [reflexivity|]. cbn [orb].
  repeat match goal with |- context [if ?b then _ else _] => destruct b end; reflexivity.
Qed.

Lemma jp_loop_length ks d s k : length (jp_loop ks d s k) = length s.
Proof.
  revert k. induction s as [|c s IH]; intros k; simpl; [reflexivity|].
  destruct (jp_step ks d c k). simpl. now rewrite IH.
Qed.

Lemma jp_transform_length s password iterations salt d :
  length (_jp_native_transform s password iterations salt d) = length s.
Proof.
  unfold _jp_native_transform. destruct s; [reflexivity|]. apply jp_loop_length.
Qed.

Lemma jp_loop_inv ks s k :
  forallb (fun c => negb (is_fullwidth_digit c)) s = true ->
  jp_zero_free ks s k = true ->
  jp_loop ks (-1) (jp_loop ks 1 s k) k = s.
Proof.
  revert k. induction s as [|c s IH]; intros k H Hz; [reflexivity|].
  cbn [forallb] in H. apply andb_true_iff in H. destruct H as [Hc Hs].
  apply negb_true_iff in Hc. cbn [jp_loop jp_zero_free] in *.
  pose proof (jp_step_cursor ks 1 c k) as Hcur.
  assert (Hkey : jp_no_zero_class c = true -> Z.land (key_byte ks k) 255 <> 0).
  { intros Hn. destruct (is_separator c || is_stable_jp_mark c) eqn:Hskip.
    - unfold jp_no_zero_class in Hn. unfold_preds. lia.
    - rewrite Hn in Hz. cbn [negb orb] in Hz. lia. }
  pose proof (jp_step_inv ks c k Hc Hkey) as Hinv.
  destruct (jp_step ks 1 c k) as [o k']. cbn [fst snd jp_loop] in *.
  rewrite Hinv. subst k'. f_equal. apply IH; [assumption|].
  destruct (is_separator c || is_stable_jp_mark c); [assumption|].
  apply andb_true_iff in Hz. tauto.
Qed.

Lemma jp_transform_inv s password iterations salt :
  forallb (fun c => negb (is_fullwidth_digit c)) s = true ->
  jp_keys_zero_free s password iterations salt = true ->
  _jp_native_transform (_jp_native_transform s password iterations salt 1)
    password iterations salt (-1) = s.
Proof.
  intros H Hz. unfold jp_keys_zero_free in Hz. unfold _jp_native_transform.
  destruct s as [|c r]; [reflexivity|].
  set (ks := pbkdf2_keystream password (salt ++ lit "|JPNative:v2|AsciiShift") iterations
               (len (c :: r) + 64)) in *.
  destruct (jp_loop ks 1 (c :: r) 0) as [|o q] eqn:E.
  - apply (f_equal (@length Z)) in E. rewrite jp_loop_length in E. discriminate.
  - rewrite <- E.
    replace (len (jp_loop ks 1 (c :: r) 0)) with (len (c :: r))
      by (unfold len; now rewrite jp_loop_length).
    fold ks. now apply jp_loop_inv.
Qed.

(** ** Scalars outside the fullwidth punctuation table *)

Lemma kana_kanji_not_punct o :
  is_hiragana o || is_katakana o || is_kanji o = true ->
  contains fullwidth_punct o = false /\ is_token_sep o = false /\ o <> 12290.
Proof.
  unfold is_hiragana, is_katakana, is_kanji, contains, fullwidth_punct, is_token_sep.
  cbn [existsb]. lia.
Qed.

Lemma ascii_digit_not_punct o :
  is_digit o = true ->
  contains fullwidth_punct o = false /\ is_token_sep o = false /\ o <> 12290.
Proof.
  unfold is_digit, contains, fullwidth_punct, is_token_sep. cbn [existsb]. lia.
Qed.

Lemma fullwidth_digit_not_token_sep o :
  is_fullwidth_digit o = true -> is_token_sep o = false.
Proof. unfold is_fullwidth_digit, is_token_sep. lia. Qed.

Lemma jp_rotated_class c s :
  is_hiragana c || is_katakana c || is_kanji c = true ->
  is_hiragana (jp_rotate_kana_kanji c s) || is_katakana (jp_rotate_kana_kanji c s)
  || is_kanji (jp_rotate_kana_kanji c s) = true.
Proof.
  intros H. destruct (jp_rotate_kana_kanji_class c s H) as (-> & -> & ->). exact H.
Qed.

Lemma kana_kanji_of_class c :
  is_hiragana c = true \/ is_katakana c = true \/ is_kanji c = true ->
  is_hiragana c || is_katakana c || is_kanji c = true.
Proof. lia. Qed.

(** The scalar emitted by the JP-native loop body: a token separator only
    when the input is that same separator, in the fullwidth punctuation
    table only when the input is, the ideographic full stop only when the
    input is. *)
Lemma jp_step_output ks d c k :
  d = 1 \/ d = -1 ->
  (is_token_sep c = is_token_sep (fst (jp_step ks d c k))
   /\ (is_token_sep c = true -> c = fst (jp_step ks d c k)))
  /\ (contains fullwidth_punct c = false ->
      contains fullwidth_punct (fst (jp_step ks d c k)) = false)
  /\ (c <> 12290 -> fst (jp_step ks d c k) <> 12290).
Proof.
  intros Hd.
  destruct (jp_classify c) as [H|A HA H|A x HA Hx ->|H|H|H|H|H|Hn H].
  - rewrite (jp_step_skip c ks d k H). cbn [fst]. auto.
  - rewrite (jp_step_lower A c ks d k HA H). cbn [fst].
    pose proof (rotate_in_set_allow_zero_In A c (Z.land (key_byte ks k) 255 * d) H) as Ho.
    destruct (letter_facts A c HA H) as (-> & _ & -> & _).
    destruct (letter_facts A _ HA Ho) as (-> & _ & -> & _).
    repeat split; try discriminate.
    intros _ E. rewrite E in Ho. clear -HA Ho. in_cases HA; in_cases Ho; discriminate.
  - rewrite (jp_step_upper A x ks d k HA Hx). cbn [fst].
    pose proof (rotate_in_set_allow_zero_In A x (Z.land (key_byte ks k) 255 * d) Hx) as Ho.
    destruct (letter_facts A x HA Hx) as (_ & -> & _ & ->).
    destruct (letter_facts A _ HA Ho) as (_ & -> & _ & ->).
    repeat split; try discriminate.
    remember (rotate_in_set_allow_zero A x (Z.land (key_byte ks k) 255 * d)) as o eqn:Eo.
    clear Eo. intros _ E. clear -HA Ho E. in_cases HA; in_cases Ho; discriminate.
  - destruct (ascii_digit_not_punct c H) as (Hp & Ht & _). rewrite Hp, Ht.
    destruct Hd as [-> | ->].
    + rewrite (jp_step_encode_digit c ks k H). cbn [fst].
      pose proof (is_fullwidth_digit_mod10
                    (c - 48 + effective_shift (Z.land (key_byte ks k) 255 * 1) 10 + 10)) as Ho.
      rewrite (fullwidth_digit_not_token_sep _ Ho), (fullwidth_digit_not_punct _ Ho).
      repeat split; try discriminate.
      intros _ E. rewrite E in Ho. discriminate.
    + rewrite (jp_step_decode_digit c ks k H). cbn [fst].
      pose proof (is_digit_mod10
                    (c - 48 + effective_shift (Z.land (key_byte ks k) 255 * -1) 10 + 10)) as Ho.
      destruct (ascii_digit_not_punct _ Ho) as (-> & -> & Hne).
      repeat split; try discriminate. intros _. exact Hne.
  - rewrite (fullwidth_digit_not_token_sep c H), (fullwidth_digit_not_punct c H).
    destruct Hd as [-> | ->].
    + rewrite (jp_step_encode_fullwidth_digit c ks k H). cbn [fst].
      pose proof (is_fullwidth_digit_mod10
                    (c - 65296 + effective_shift (Z.land (key_byte ks k) 255 * 1) 10 + 10))
        as Ho.
      rewrite (fullwidth_digit_not_token_sep _ Ho), (fullwidth_digit_not_punct _ Ho).
      repeat split; try discriminate.
      intros _ E. rewrite E in Ho. discriminate.
    + rewrite (jp_step_decode_fullwidth_digit c ks k H). cbn [fst].
      pose proof (is_digit_mod10
                    (c - 65296 + effective_shift (Z.land (key_byte ks k) 255 * -1) 10 + 10))
        as Ho.
      destruct (ascii_digit_not_punct _ Ho) as (-> & -> & Hne).
      repeat split; try discriminate. intros _. exact Hne.
  - assert (Hc : is_hiragana c || is_katakana c || is_kanji c = true)
      by (apply kana_kanji_of_class; auto).
    rewrite (jp_step_kana_kanji c ks d k Hc). cbn [fst].
    destruct (kana_kanji_not_punct c Hc) as (-> & -> & _).
    destruct (kana_kanji_not_punct _ (jp_rotated_class c (Z.land (key_byte ks k) 255 * d) Hc))
      as (-> & -> & Hne).
    repeat split; try discriminate. intros _. exact Hne.
  - assert (Hc : is_hiragana c || is_katakana c || is_kanji c = true)
      by (apply kana_kanji_of_class; auto).
    rewrite (jp_step_kana_kanji c ks d k Hc). cbn [fst].
    destruct (kana_kanji_not_punct c Hc) as (-> & -> & _).
    destruct (kana_kanji_not_punct _ (jp_rotated_class c (Z.land (key_byte ks k) 255 * d) Hc))
      as (-> & -> & Hne).
    repeat split; try discriminate. intros _. exact Hne.
  - assert (Hc : is_hiragana c || is_katakana c || is_kanji c = true)
      by (apply kana_kanji_of_class; auto).
    rewrite (jp_step_kana_kanji c ks d k Hc). cbn [fst].
    destruct (kana_kanji_not_punct c Hc) as (-> & -> & _).
    destruct (kana_kanji_not_punct _ (jp_rotated_class c (Z.land (key_byte ks k) 255 * d) Hc))
      as (-> & -> & Hne).
    repeat split; try discriminate. intros _. exact Hne.
  - rewrite H. cbn [fst]. auto.
Qed.


Lemma jp_loop_aligned ks s k : Tokens.aligned is_token_sep s (jp_loop ks 1 s k).
Proof.
  revert k. induction s as [|c s IH]; intros k; [constructor|].
  cbn [jp_loop]. pose proof (jp_step_output ks 1 c k (or_introl eq_refl)) as [H _].
  destruct (jp_step ks 1 c k) as [o k']. constructor; [exact H | apply IH].
Qed.

Lemma jp_transform_aligned s password iterations salt :
  Tokens.aligned is_token_sep s (_jp_native_transform s password iterations salt 1).
Proof.
  unfold _jp_native_transform. destruct s; [constructor|]. apply jp_loop_aligned.
Qed.

Lemma jp_loop_not_fullwidth_punct ks s k :
  forallb (fun c => negb (contains fullwidth_punct c)) s = true ->
  forallb (fun c => negb (contains fullwidth_punct c)) (jp_loop ks 1 s k) = true.
Proof.
  revert k. induction s as [|c s IH]; intros k H; [reflexivity|].
  cbn [forallb] in H. apply andb_true_iff in H. destruct H as [Hc Hs].
  apply negb_true_iff in Hc. cbn [jp_loop].
  pose proof (jp_step_output ks 1 c k (or_introl eq_refl)) as (_ & Ho & _).
  specialize (Ho Hc).
  destruct (jp_step ks 1 c k) as [o k']. cbn [fst forallb] in *.
  rewrite Ho. cbn [negb andb]. now apply IH.
Qed.

(** The decoder never emits the ideographic full stop U+3002. *)
Lemma jp_loop_no_full_stop ks s k :
  ~ In 12290 s -> ~ In 12290 (jp_loop ks (-1) s k).
Proof.
  revert k. induction s as [|c s IH]; intros k H; [exact H|].
  cbn [jp_loop].
  pose proof (jp_step_output ks (-1) c k (or_intror eq_refl)) as (_ & _ & Ho).
  destruct (jp_step ks (-1) c k) as [o k']. cbn [fst] in Ho.
  intros [E|Hin].
  - apply Ho; [|exact E]. intros ->. apply H. now left.
  - apply (IH k'); [|exact Hin]. intros Hs. apply H. now right.
Qed.

Lemma punct_decode_no_full_stop s : ~ In 12290 (punct_translate s (-1)).
Proof.
  unfold punct_translate. destruct s as [|c s]; [intros []|].
  change (-1 >? 0) with false. cbv iota. intros H. apply in_map_iff in H.
  destruct H as [x [E _]].
  destruct (in_dec Z.eq_dec x (map fst _PUNCT_DEC_MAP)) as [Hin|Hout].
  - in_cases Hin; discriminate.
  - rewrite (dict_get_miss _ x x Hout) in E. subst x. apply Hout.
    apply contains_In. reflexivity.
Qed.

Lemma jp_decrypt_no_full_stop s password iterations salt shift_punct :
  ~ In 12290 (kanashift_jp_decrypt s password iterations salt shift_punct).
Proof.
  unfold kanashift_jp_decrypt, _jp_native_transform.
  match goal with |- ~ In _ (match ?t with _ => _ end) =>
    pose proof (punct_decode_no_full_stop
                  (if shift_punct then punct_shift_apply s password iterations salt (-1)
                   else s)) as H;
    destruct t eqn:E
  end; [intros []|].
  now apply jp_loop_no_full_stop.
Qed.

Lemma jp_roundtrip text password iterations salt shift_punct :
  forallb jp_plain_scalar text = true ->
  jp_keys_zero_free text password iterations salt = true ->
  (shift_punct = true ->
   punct_keys_zero_free
     (punct_translate (_jp_native_transform text password iterations salt 1) 1)
     password iterations salt = true) ->
  kanashift_jp_decrypt (kanashift_jp_encrypt text password iterations salt shift_punct)
    password iterations salt shift_punct = text.
Proof.
  intros Hplain Hzero Hkeys. apply forallb_and in Hplain. destruct Hplain as [Hp1 Hp2].
  unfold kanashift_jp_decrypt, kanashift_jp_encrypt.
  set (y := punct_translate (_jp_native_transform text password iterations salt 1) 1) in *.
  assert (Hin : (if shift_punct
                 then punct_shift_apply
                        (if shift_punct then punct_shift_apply y password iterations salt 1
                         else y) password iterations salt (-1)
                 else (if shift_punct then punct_shift_apply y password iterations salt 1
                       else y)) = y).
  { destruct shift_punct; [|reflexivity]. apply jp_punct_shift_inv. now apply Hkeys. }
  rewrite Hin. unfold y. rewrite punct_translate_inv.
  - now apply jp_transform_inv.
  - unfold _jp_native_transform. destruct text; [reflexivity|].
    now apply jp_loop_not_fullwidth_punct.
Qed.

(** ** The skin encoder and token separators *)

Lemma skin_step_aligned ks c k :
  is_token_sep c = is_token_sep (fst (skin_step ks 1 c k))
  /\ (is_token_sep c = true -> c = fst (skin_step ks 1 c k)).
Proof.
  destruct (skin_classify c) as [H|Hsep H|P C Hsep Hdig HP Hx| -> | -> |Hsep Hdig H].
  - rewrite (skin_step_separator c ks 1 k H). cbn [fst]. auto.
  - rewrite (skin_step_encode c ks k Hsep), H. cbn [fst].
    destruct (ascii_digit_not_punct c H) as (_ & -> & _).
    rewrite (fullwidth_digit_not_token_sep _ (is_fullwidth_digit_mod10 _)).
    split; [reflexivity | discriminate].
  - rewrite (skin_step_encode c ks k Hsep), Hdig. cbn [fst].
    rewrite (skin_encode_letter_pair P C c _ HP Hx).
    destruct (plain_letter_facts P C c HP Hx) as (-> & _).
    destruct (cipher_glyph_facts P C _ HP
                (skin_glyph_In P C c ((Z.land (key_byte ks k) 255 + 1) * 1) HP Hx))
      as (_ & _ & _ & -> & _).
    split; [reflexivity | discriminate].
  - split; [reflexivity | discriminate].
  - split; [reflexivity | discriminate].
  - rewrite (skin_step_encode c ks k Hsep), Hdig, H. cbn [fst]. auto.
Qed.

Lemma skin_loop_aligned ks s k : Tokens.aligned is_token_sep s (skin_loop ks 1 s k).
Proof.
  revert k. induction s as [|c s IH]; intros k; [constructor|].
  cbn [skin_loop]. pose proof (skin_step_aligned ks c k) as H.
  destruct (skin_step ks 1 c k) as [o k']. constructor; [exact H | apply IH].
Qed.

Lemma skin_transform_aligned s password iterations salt :
  Tokens.aligned is_token_sep s (_skin_transform s password iterations salt 1).
Proof.
  unfold _skin_transform. destruct s; [constructor|]. apply skin_loop_aligned.
Qed.

(** KT encoding of the kana families never raises: the core transform is
    aligned with its input. *)
Lemma family_token_tagged_never_raises
  plain password iterations salt N sp (core : core_transform) dom norm :
  Tokens.aligned is_token_sep plain (core plain password iterations salt 1) ->
  exists out,
    _family_token_tagged_encrypt plain password iterations salt N sp core dom norm = Ok out.
Proof.
  intros Hal. unfold _family_token_tagged_encrypt, attach_checks_to_cipher,
    build_plain_token_checks.
  destruct (attach_aligned is_token_sep
              (token_check password salt iterations N dom norm) plain _ Hal) as [out ->].
  eauto.
Qed.

End KanaProofs.

(* ================================================================== *)
(** * Verified decoders *)
(* ================================================================== *)

Lemma compare_checks_empty_on_failure e g p : empty_on_failure (compare_checks e g p).
Proof.
  unfold compare_checks, empty_on_failure.
  destruct (negb _); [reflexivity|]. destruct (existsb _ _); [reflexivity | discriminate].
Qed.

Lemma kt_empty_on_failure tagged p i s N sp :
  empty_on_failure (PhonoShift.rot500k_token_tagged_decrypt tagged p i s N sp).
Proof.
  unfold PhonoShift.rot500k_token_tagged_decrypt.
  destruct (PhonoShift.strip_checks_from_tagged _ _) as [[b g]|];
    [apply compare_checks_empty_on_failure | intros _; reflexivity].
Qed.

Lemma kp_empty_on_failure tagged p i s sp :
  empty_on_failure (PhonoShift.rot500k_prefix_tagged_decrypt tagged p i s sp).
Proof.
  unfold PhonoShift.rot500k_prefix_tagged_decrypt.
  destruct (PhonoShift.split_tagged_prefix _) as [[b g]|]; [|intros _; reflexivity].
  destruct (negb _); [intros _; reflexivity | discriminate].
Qed.

Lemma kv_empty_on_failure tagged p i s N sp :
  empty_on_failure (PhonoShift.rot500kv_decrypt tagged p i s N sp).
Proof.
  unfold PhonoShift.rot500kv_decrypt, PhonoShift.rot500kv_safe_decrypt, empty_on_failure.
  destruct (ok (PhonoShift.rot500k_token_tagged_decrypt tagged p i s N sp)) eqn:E1;
    [congruence|].
  destruct (ok (PhonoShift.rot500k_prefix_tagged_decrypt tagged p i s sp)) eqn:E2;
    [congruence | reflexivity].
Qed.

Lemma family_empty_on_failure tagged p i s N sp core dom norm :
  empty_on_failure (KanaShift._family_token_tagged_decrypt tagged p i s N sp core dom norm).
Proof.
  unfold KanaShift._family_token_tagged_decrypt.
  destruct (KanaShift.strip_checks_from_tagged _ _) as [[b g]|];
    [apply compare_checks_empty_on_failure | intros _; reflexivity].
Qed.

(* ================================================================== *)
(** * Scalars of no alphabet *)
(* ================================================================== *)

Ltac split_orb H :=
  repeat match type of H with
         | (_ || _) = false => apply orb_false_elim in H; destruct H as [H ?]
         end.

Lemma phono_class_recognized A x :
  In A PhonoClasses.lower_classes -> In x A -> PhonoClasses.recognized x = true.
Proof. intros HA Hx. in_cases HA; in_cases Hx; reflexivity. Qed.

Lemma phono_upper_recognized A x :
  In A PhonoClasses.cased_classes -> In x A ->
  PhonoClasses.recognized (PhonoShift.to_upper_ascii x) = true.
Proof. intros HA Hx. in_cases HA; in_cases Hx; reflexivity. Qed.

Lemma phono_unrecognized_step c ks d k :
  PhonoClasses.recognized c = false ->
  PhonoShift.fpe_step ks d c k = (c, next_kpos ks k).
Proof.
  intros H.
  destruct (PhonoProofs.phono_classify c) as [H1|H1|A HA H1|A x HA Hx ->|H1].
  - unfold PhonoClasses.recognized in H. split_orb H. congruence.
  - unfold PhonoClasses.recognized in H. split_orb H. congruence.
  - rewrite (phono_class_recognized A c HA H1) in H. discriminate.
  - rewrite (phono_upper_recognized A x HA Hx) in H. discriminate.
  - apply H1.
Qed.

Lemma skin_letter_recognized P C x :
  In (P, C) KanaClasses.skin_pairs -> In x P -> KanaClasses.skin_recognized x = true.
Proof. intros HP Hx. pair_cases HP; in_cases Hx; reflexivity. Qed.

Lemma skin_decode_letter_plain c s :
  KanaClasses.skin_cipher_scalar c = false -> KanaShift.skin_decode_letter c s = c.
Proof.
  intros H. unfold KanaClasses.skin_cipher_scalar in H. split_orb H.
  unfold KanaShift.skin_decode_letter.
  repeat match goal with H : ?b = false |- context [if ?b then _ else _] => rewrite H end.
  reflexivity.
Qed.

Lemma skin_unrecognized_step c ks d k :
  KanaClasses.skin_recognized c = false ->
  KanaShift.skin_step ks d c k = (c, next_kpos ks k).
Proof.
  intros H.
  assert (Hc : KanaClasses.skin_cipher_scalar c = false)
    by (unfold KanaClasses.skin_recognized in H; split_orb H; assumption).
  destruct (KanaProofs.skin_classify c) as [H1|_ H1|P C _ _ HP Hx| -> | -> |Hsep Hdig H1].
  - unfold KanaClasses.skin_recognized in H. split_orb H. congruence.
  - unfold KanaClasses.skin_recognized in H. split_orb H. congruence.
  - rewrite (skin_letter_recognized P C c HP Hx) in H. discriminate.
  - discriminate.
  - discriminate.
  - unfold KanaShift.skin_step. rewrite Hsep, Hdig, H1, (skin_decode_letter_plain c _ Hc).
    unfold KanaClasses.skin_cipher_scalar in Hc. split_orb Hc. rewrite Hc. cbn [orb].
    destruct (d >? 0); reflexivity.
Qed.

Lemma jp_letter_recognized A x :
  In A KanaClasses.jp_letter_classes -> In x A ->
  KanaClasses.jp_recognized x = true /\ KanaClasses.jp_recognized (upper x) = true.
Proof. intros HA Hx. in_cases HA; in_cases Hx; split; reflexivity. Qed.

Lemma jp_unrecognized_step c ks d k :
  KanaClasses.jp_recognized c = false ->
  KanaShift.jp_step ks d c k = (c, next_kpos ks k).
Proof.
  intros H.
  destruct (KanaProofs.jp_classify c) as [H1|A HA H1|A x HA Hx ->|H1|H1|H1|H1|H1|_ H1];
    try (exfalso; unfold KanaClasses.jp_recognized, KanaClasses.jp_no_zero_class in H;
         rewrite H1 in H; cbn [orb] in H; rewrite ?orb_true_r in H; discriminate).
  - destruct (jp_letter_recognized A c HA H1). congruence.
  - destruct (jp_letter_recognized A x HA Hx). congruence.
  - apply H1.
Qed.

(** ** Zero keystream bytes in the kana family

    [jp_rotate_kana_kanji] and the kana family's [punct_shift_apply] pass
    [b * direction] to the no-zero rotators; with [b = 0] both directions
    step by +1.  Under password "pw64" the first byte of the JP-native core
    stream is 0, and U+5B8C comes back as U+5B8E; under "pw103" the first byte
    of the punctuation stream is 0, and "," comes back as "・". *)

Lemma jp_zero_key_byte_example :
  KanaShift.kanashift_jp_decrypt
    (KanaShift.kanashift_jp_encrypt (lit "完") (lit "pw64") 1 (lit "NameFPE:v1") false)
    (lit "pw64") 1 (lit "NameFPE:v1") false = [23438].
Proof. vm_compute. reflexivity. Qed.

Lemma skin_zero_key_byte_example :
  KanaShift.kanashift_skin_decrypt
    (KanaShift.kanashift_skin_encrypt (lit ",") (lit "pw103") 1 (lit "NameFPE:v1") true)
    (lit "pw103") 1 (lit "NameFPE:v1") true = lit "・".
Proof. vm_compute. reflexivity. Qed.

(* ================================================================== *)
(** * Lemmas for the further properties *)
(* ================================================================== *)

(** * More on the token layer: counts, errors and the way back *)

Section TokenCounts.

Variable is_token_sep : Z -> bool.

Local Abbreviation segments := (Tokens.segments is_token_sep).
Local Abbreviation well_formed := (Tokens.well_formed is_token_sep).
Local Abbreviation tokens := (Shapes.tokens is_token_sep).

Lemma tokens_cons c s :
  tokens (c :: s) =
    if is_token_sep c then tokens s
    else match segments s with
         | Tokens.Tok t :: q => (c :: t) :: Shapes.tokens_of q
         | q => [c] :: Shapes.tokens_of q
         end.
Proof.
  unfold Shapes.tokens. cbn [Tokens.segments].
  destruct (is_token_sep c); [reflexivity|].
  destruct (segments s) as [|[t|x] q]; reflexivity.
Qed.

Lemma firstn_incl {A} (n : nat) (l : list A) x : In x (firstn n l) -> In x l.
Proof. intros H. rewrite <- (firstn_skipn n l). apply in_or_app. now left. Qed.

(** ** [attach_checks_to_cipher]: which call raises what *)

Lemma seg_attach_ok checks L k :
  (k + length (Shapes.tokens_of L) = length checks)%nat ->
  exists o, Tokens.seg_attach checks L k = Ok o.
Proof.
  revert k. induction L as [|[t|c] q IH]; intros k H; cbn [Shapes.tokens_of length] in H.
  - cbn [Tokens.seg_attach]. replace (k =? length checks)%nat with true by lia.
    eexists; reflexivity.
  - cbn [Tokens.seg_attach]. replace (length checks <=? k)%nat with false by lia.
    destruct (IH (S k) ltac:(lia)) as [o ->]. eexists; reflexivity.
  - cbn [Tokens.seg_attach]. destruct (IH k H) as [o ->]. eexists; reflexivity.
Qed.

Lemma seg_attach_mismatch checks L k :
  (k <= length checks < k + length (Shapes.tokens_of L))%nat ->
  Tokens.seg_attach checks L k = Raise TokenCheckCountMismatch.
Proof.
  revert k. induction L as [|[t|c] q IH]; intros k H; cbn [Shapes.tokens_of length] in H.
  - lia.
  - cbn [Tokens.seg_attach]. destruct (Nat.leb_spec (length checks) k); [reflexivity|].
    now rewrite IH by lia.
  - cbn [Tokens.seg_attach]. now rewrite IH by lia.
Qed.

Lemma seg_attach_unused checks L k :
  (k + length (Shapes.tokens_of L) < length checks)%nat ->
  Tokens.seg_attach checks L k = Raise UnusedChecksRemain.
Proof.
  revert k. induction L as [|[t|c] q IH]; intros k H; cbn [Shapes.tokens_of length] in H.
  - cbn [Tokens.seg_attach]. now replace (k =? length checks)%nat with false by lia.
  - cbn [Tokens.seg_attach]. replace (length checks <=? k)%nat with false by lia.
    now rewrite IH by lia.
  - cbn [Tokens.seg_attach]. now rewrite IH by lia.
Qed.

Lemma attach_by_count cipher checks :
  attach_checks_to_cipher is_token_sep cipher checks
  = match Tokens.seg_attach checks (segments cipher) 0 with
    | Ok o => Ok o
    | Raise e => Raise e
    end.
Proof.
  unfold attach_checks_to_cipher.
  rewrite (attach_loop_spec is_token_sep checks cipher [] [] 0 (nosep_nil is_token_sep)).
  reflexivity.
Qed.

Lemma attach_outcomes cipher checks :
  (length (tokens cipher) = length checks ->
   exists out, attach_checks_to_cipher is_token_sep cipher checks = Ok out)
  /\ ((length checks < length (tokens cipher))%nat ->
      attach_checks_to_cipher is_token_sep cipher checks = Raise TokenCheckCountMismatch)
  /\ ((length (tokens cipher) < length checks)%nat ->
      attach_checks_to_cipher is_token_sep cipher checks = Raise UnusedChecksRemain).
Proof.
  rewrite attach_by_count. unfold Shapes.tokens. repeat split; intros H.
  - destruct (seg_attach_ok checks (segments cipher) 0 H) as [o ->]. eauto.
  - now rewrite seg_attach_mismatch by lia.
  - now rewrite seg_attach_unused by lia.
Qed.

(** ** [strip_checks_from_tagged]: when it fails, and the way back *)

Lemma seg_strip_none n L :
  Tokens.seg_strip n L = None <-> Exists (fun t => (length t <= n)%nat) (Shapes.tokens_of L).
Proof.
  induction L as [|[t|c] q IH]; cbn [Tokens.seg_strip Shapes.tokens_of].
  - split; [discriminate | intros H; inversion H].
  - destruct (Nat.leb_spec (length t) n) as [Hle|Hgt].
    + split; [intros _; now constructor | reflexivity].
    + destruct (Tokens.seg_strip n q) as [[b g]|].
      * split; [discriminate|]. intros H. inversion H; subst; [lia|].
        now apply IH in H1.
      * split; [intros _; apply Exists_cons_tl; now apply IH | reflexivity].
  - destruct (Tokens.seg_strip n q) as [[b g]|].
    + split; [discriminate|]. intros H. now apply IH in H.
    + split; [intros _; now apply IH | reflexivity].
Qed.

Lemma seg_strip_some n L b g :
  Tokens.seg_strip n L = Some (b, g) ->
  b = Tokens.unsegments (Shapes.untag n L)
  /\ g = map (fun t => skipn (length t - n) t) (Shapes.tokens_of L)
  /\ Forall (fun t => (n < length t)%nat) (Shapes.tokens_of L).
Proof.
  revert b g. induction L as [|[t|c] q IH]; intros b g H;
    cbn [Tokens.seg_strip Shapes.tokens_of Shapes.untag map] in *.
  - injection H as <- <-. auto.
  - destruct (Nat.leb_spec (length t) n) as [Hle|Hgt]; [discriminate|].
    destruct (Tokens.seg_strip n q) as [[b' g']|]; [|discriminate].
    injection H as <- <-. destruct (IH b' g' eq_refl) as (-> & -> & HF).
    repeat split; auto.
  - destruct (Tokens.seg_strip n q) as [[b' g']|]; [|discriminate].
    injection H as <- <-. destruct (IH b' g' eq_refl) as (-> & -> & HF).
    repeat split; auto.
Qed.

Lemma untag_well_formed n L :
  well_formed L -> Forall (fun t => (n < length t)%nat) (Shapes.tokens_of L) ->
  well_formed (Shapes.untag n L).
Proof.
  induction L as [|[t|c] q IH]; intros Hwf HF; [exact I| |].
  - destruct Hwf as (Hne & Hn & Hq & Hwf). cbn [Shapes.tokens_of] in HF.
    inversion HF as [|? ? Hlen HF']; subst.
    cbn [Shapes.untag Tokens.well_formed]. repeat split.
    + intros E. apply (f_equal (@length Z)) in E. rewrite length_firstn in E.
      cbn [length] in E. lia.
    + intros x Hx. apply Hn. eapply firstn_incl; eauto.
    + destruct q as [|[t1|c1] q1]; simpl in *; tauto.
    + now apply IH.
  - destruct Hwf as (Hc & Hwf). cbn [Shapes.untag Tokens.well_formed].
    split; [assumption | now apply IH].
Qed.

Lemma seg_attach_untag n L pre k :
  Forall (fun t => (n < length t)%nat) (Shapes.tokens_of L) -> length pre = k ->
  Tokens.seg_attach
    (pre ++ map (fun t => skipn (length t - n) t) (Shapes.tokens_of L))
    (Shapes.untag n L) k
  = Ok (Tokens.unsegments L).
Proof.
  revert pre k. induction L as [|[t|c] q IH]; intros pre k HF Hk;
    cbn [Shapes.tokens_of Shapes.untag map Tokens.seg_attach].
  - subst k. rewrite app_nil_r, Nat.eqb_refl. reflexivity.
  - inversion HF as [|? ? Hlen HF']; subst.
    set (chk := skipn (length t - n) t).
    set (rest := map (fun t => skipn (length t - n) t) (Shapes.tokens_of q)).
    replace (length (pre ++ chk :: rest) <=? length pre)%nat with false
      by (rewrite length_app; cbn [length]; lia).
    rewrite nth_middle.
    replace (pre ++ chk :: rest) with ((pre ++ [chk]) ++ rest) by (now rewrite <- app_assoc).
    unfold rest. rewrite (IH (pre ++ [chk]) (S (length pre)) HF')
      by (rewrite length_app; cbn [length]; lia).
    unfold Tokens.unsegments, chk. cbn [flat_map Tokens.unseg].
    rewrite app_assoc, firstn_skipn.
    match goal with |- context [(?a <=? ?b)%nat] => destruct (Nat.leb_spec a b) as [Hle|_] end;
      [|reflexivity].
    rewrite !length_app in Hle. cbn [length] in Hle. lia.
  - now rewrite (IH pre k HF Hk).
Qed.

Lemma strip_by_segments tagged N :
  strip_checks_from_tagged is_token_sep tagged N
  = Tokens.seg_strip (Z.to_nat (Z.max 1 N)) (segments tagged).
Proof.
  unfold strip_checks_from_tagged.
  rewrite (strip_loop_spec is_token_sep _ tagged [] [] [] (nosep_nil is_token_sep)).
  cbn [app]. now destruct (Tokens.seg_strip _ _) as [[b g]|].
Qed.

(** Attaching what [strip_checks_from_tagged] returned gives the tagged
    text back. *)
Lemma strip_then_attach tagged N base given :
  strip_checks_from_tagged is_token_sep tagged N = Some (base, given) ->
  attach_checks_to_cipher is_token_sep base given = Ok tagged
  /\ length given = length (tokens tagged)
  /\ Forall (fun chk => length chk = Z.to_nat (Z.max 1 N)) given.
Proof.
  rewrite strip_by_segments. intros H.
  destruct (seg_strip_some _ _ _ _ H) as (-> & -> & HF).
  repeat split.
  - rewrite attach_by_count.
    rewrite (segments_unsegments is_token_sep)
      by (apply untag_well_formed; [apply segments_well_formed | assumption]).
    pose proof (seg_attach_untag (Z.to_nat (Z.max 1 N)) (segments tagged) [] 0 HF eq_refl) as E.
    cbn [app] in E. rewrite E. now rewrite unsegments_segments.
  - now rewrite length_map.
  - apply Forall_forall. intros chk Hc. apply in_map_iff in Hc.
    destruct Hc as [t [<- Ht]]. rewrite Forall_forall in HF. specialize (HF t Ht).
    rewrite length_skipn. lia.
Qed.

(** ** Texts with separators at the same places *)

Lemma same_pattern_tokens s s' :
  Shapes.same_pattern is_token_sep s s' ->
  Shapes.starts_tok (segments s) = Shapes.starts_tok (segments s')
  /\ map (@length Z) (tokens s) = map (@length Z) (tokens s').
Proof.
  unfold Shapes.tokens.
  induction 1 as [|a b s s' Hab _ [IH1 IH2]]; [split; reflexivity|].
  cbn [Tokens.segments]. rewrite <- Hab. destruct (is_token_sep a); [split; auto|].
  destruct (segments s) as [|[t|x] q], (segments s') as [|[t'|x'] q'];
    cbn [Shapes.starts_tok Shapes.tokens_of map length] in *;
    try discriminate; split; congruence.
Qed.

Lemma same_pattern_strip_none s s' N :
  Shapes.same_pattern is_token_sep s s' ->
  strip_checks_from_tagged is_token_sep s N = None ->
  strip_checks_from_tagged is_token_sep s' N = None.
Proof.
  intros Hp. rewrite !strip_by_segments, !seg_strip_none.
  destruct (same_pattern_tokens s s' Hp) as [_ E]. fold (tokens s) (tokens s').
  intros H. apply Exists_exists in H. destruct H as [t [Ht Hle]].
  apply (in_map (@length Z)) in Ht. rewrite E in Ht. apply in_map_iff in Ht.
  destruct Ht as [t' [E' Ht']]. apply Exists_exists. exists t'. split; [assumption | lia].
Qed.

(** ** Texts without tokens *)

Lemma all_separators_segments s :
  forallb is_token_sep s = true -> segments s = map Tokens.Sep s.
Proof.
  induction s as [|c s IH]; [reflexivity|]. cbn [forallb Tokens.segments map]. intros H.
  apply andb_true_iff in H. destruct H as [-> H]. now rewrite IH.
Qed.

Lemma all_separators_strip s N :
  forallb is_token_sep s = true ->
  strip_checks_from_tagged is_token_sep s N = Some (s, []).
Proof.
  intros H. rewrite strip_by_segments, (all_separators_segments s H). clear H.
  induction s as [|c s IH]; [reflexivity|]. cbn [map Tokens.seg_strip]. now rewrite IH.
Qed.

Lemma all_separators_no_checks (token_check : nat -> str -> str) s :
  forallb is_token_sep s = true -> build_loop is_token_sep token_check s [] [] 0 = [].
Proof.
  intros H. rewrite (build_loop_spec is_token_sep token_check s [] [] 0 (nosep_nil is_token_sep)).
  cbn [app]. rewrite (all_separators_segments s H). clear H.
  induction s as [|c s IH]; [reflexivity|]. cbn [map Tokens.seg_checks]. exact IH.
Qed.

Lemma all_separators_aligned s c :
  forallb is_token_sep s = true -> Tokens.aligned is_token_sep s c -> c = s.
Proof.
  intros H Hal. induction Hal as [|a b s c [_ Hab] _ IH]; [reflexivity|].
  cbn [forallb] in H. apply andb_true_iff in H. destruct H as [Ha H].
  now rewrite <- (Hab Ha), IH.
Qed.

Lemma same_pattern_all_separators s s' :
  Shapes.same_pattern is_token_sep s s' ->
  forallb is_token_sep s = true -> forallb is_token_sep s' = true.
Proof.
  induction 1 as [|a b s s' Hab _ IH]; [reflexivity|]. cbn [forallb]. intros H.
  apply andb_true_iff in H. destruct H as [Ha H]. rewrite <- Hab, Ha. now apply IH.
Qed.

(** ** The length of a tagged text *)

Section TagLength.

Variable token_check : nat -> str -> str.
Variable n : nat.
Hypothesis check_length : forall k t, length (token_check k t) = n.

Lemma tag_length P C k :
  Tokens.same_shape P C ->
  length (Tokens.unsegments (Tokens.tag token_check P C k))
  = (length (Tokens.unsegments C) + n * length (Shapes.tokens_of P))%nat.
Proof.
  intros H. revert k. unfold Tokens.unsegments.
  induction H as [|t t' P C _ IH|c P C _ IH]; intros k;
    cbn [Tokens.tag flat_map Tokens.unseg Shapes.tokens_of length].
  - lia.
  - rewrite !length_app, check_length, IH. lia.
  - cbn [app length]. rewrite IH. lia.
Qed.

Lemma seg_checks_length L k :
  length (Tokens.seg_checks token_check L k) = length (Shapes.tokens_of L).
Proof.
  revert k. induction L as [|[t|c] q IH]; intros k;
    cbn [Tokens.seg_checks Shapes.tokens_of length]; auto.
Qed.

Lemma build_checks_count p :
  length (build_loop is_token_sep token_check p [] [] 0) = length (tokens p).
Proof.
  rewrite (build_loop_spec is_token_sep token_check p [] [] 0 (nosep_nil is_token_sep)).
  cbn [app]. apply seg_checks_length.
Qed.

(** Attaching the checks of [p] to an aligned [c] adds [n] scalars per token. *)
Lemma attach_length p c :
  Tokens.aligned is_token_sep p c ->
  exists out,
    attach_checks_to_cipher is_token_sep c (build_loop is_token_sep token_check p [] [] 0)
      = Ok out
    /\ length out = (length c + n * length (tokens p))%nat.
Proof.
  intros Hal. pose proof (segments_same_shape is_token_sep p c Hal) as Hs.
  exists (Tokens.unsegments (Tokens.tag token_check (segments p) (segments c) 0)).
  split.
  - unfold attach_checks_to_cipher.
    rewrite (build_loop_spec is_token_sep token_check p [] [] 0 (nosep_nil is_token_sep)).
    cbn [app].
    rewrite (attach_loop_spec is_token_sep _ c [] [] 0 (nosep_nil is_token_sep)). cbn [app].
    pose proof (seg_attach_tag token_check _ _ 0 [] Hs eq_refl) as Ha.
    cbn [app] in Ha. now rewrite Ha.
  - rewrite (tag_length _ _ 0 Hs), unsegments_segments. reflexivity.
Qed.

Lemma tag_scalars P C k x :
  In x (Tokens.unsegments (Tokens.tag token_check P C k)) ->
  In x (Tokens.unsegments C) \/ exists j t, In x (token_check j t).
Proof.
  revert C k. unfold Tokens.unsegments.
  induction P as [|[t|c] P IH]; intros [|[t'|c'] C] k; cbn [Tokens.tag flat_map Tokens.unseg];
    try contradiction.
  - rewrite <- app_assoc, !in_app_iff. intros [H|[H|H]]; eauto.
    destruct (IH C (S k) H); auto.
  - cbn [app In]. intros [H|H]; auto. destruct (IH C k H); auto.
Qed.

Lemma attach_explicit p c :
  Tokens.aligned is_token_sep p c ->
  attach_checks_to_cipher is_token_sep c (build_loop is_token_sep token_check p [] [] 0)
  = Ok (Tokens.unsegments (Tokens.tag token_check (segments p) (segments c) 0)).
Proof.
  intros Hal. pose proof (segments_same_shape is_token_sep p c Hal) as Hs.
  unfold attach_checks_to_cipher.
  rewrite (build_loop_spec is_token_sep token_check p [] [] 0 (nosep_nil is_token_sep)).
  cbn [app].
  rewrite (attach_loop_spec is_token_sep _ c [] [] 0 (nosep_nil is_token_sep)). cbn [app].
  pose proof (seg_attach_tag token_check _ _ 0 [] Hs eq_refl) as Ha.
  cbn [app] in Ha. now rewrite Ha.
Qed.

Lemma tag_tokens P C k :
  Tokens.same_shape P C ->
  Forall (fun u => exists t' j t, u = t' ++ token_check j t /\ In t' (Shapes.tokens_of C))
    (Shapes.tokens_of (Tokens.tag token_check P C k))
  /\ length (Shapes.tokens_of (Tokens.tag token_check P C k)) = length (Shapes.tokens_of P).
Proof.
  intros H. revert k. induction H as [|t t' P C _ IH|c P C _ IH]; intros k;
    cbn [Tokens.tag Shapes.tokens_of length].
  - split; [constructor | reflexivity].
  - destruct (IH (S k)) as [IH1 IH2]. split; [|now rewrite IH2].
    constructor.
    + exists t', k, t. split; [reflexivity | now left].
    + eapply Forall_impl; [|exact IH1]. cbv beta.
      intros u (a & j & b & -> & Hin). exists a, j, b. split; [reflexivity | now right].
  - apply IH.
Qed.

Lemma attach_scalars p c :
  Tokens.aligned is_token_sep p c ->
  exists out,
    attach_checks_to_cipher is_token_sep c (build_loop is_token_sep token_check p [] [] 0)
      = Ok out
    /\ forall x, In x out -> In x c \/ exists j t, In x (token_check j t).
Proof.
  intros Hal. pose proof (segments_same_shape is_token_sep p c Hal) as Hs.
  exists (Tokens.unsegments (Tokens.tag token_check (segments p) (segments c) 0)).
  split.
  - unfold attach_checks_to_cipher.
    rewrite (build_loop_spec is_token_sep token_check p [] [] 0 (nosep_nil is_token_sep)).
    cbn [app].
    rewrite (attach_loop_spec is_token_sep _ c [] [] 0 (nosep_nil is_token_sep)). cbn [app].
    pose proof (seg_attach_tag token_check _ _ 0 [] Hs eq_refl) as Ha.
    cbn [app] in Ha. now rewrite Ha.
  - intros x Hx. apply tag_scalars in Hx. now rewrite unsegments_segments in Hx.
Qed.

End TagLength.

End TokenCounts.

(** * PhonoShift: the token counters of the auto-select heuristics *)

Module CounterProofs.
Import PhonoShift.

Local Abbreviation segments := (Tokens.segments is_token_sep).
Local Abbreviation tokens := (Shapes.tokens is_token_sep).

Lemma count_tokens_loop_spec s :
  (forall count,
      count_tokens_loop s count false = count + Z.of_nat (length (tokens s)))
  /\ (forall count,
         count_tokens_loop s count true
         = count + Z.of_nat (length (tokens s))
           - (if Shapes.starts_tok (segments s) then 1 else 0)).
Proof.
  induction s as [|c s [IHf IHt]].
  - split; intros count; cbn; lia.
  - split; intros count; cbn [count_tokens_loop negb]; rewrite tokens_cons;
      cbn [Tokens.segments]; destruct (is_token_sep c).
    + rewrite IHf. cbn [Shapes.starts_tok]. lia.
    + rewrite IHt. unfold Shapes.tokens.
      destruct (segments s) as [|[t|x] q]; cbn [Shapes.starts_tok Shapes.tokens_of length]; lia.
    + rewrite IHf. cbn [Shapes.starts_tok]. lia.
    + rewrite IHt. unfold Shapes.tokens.
      destruct (segments s) as [|[t|x] q]; cbn [Shapes.starts_tok Shapes.tokens_of length]; lia.
Qed.

(** [count_tokens_simple] counts the tokens of the token layer. *)
Lemma count_tokens_simple_spec s : count_tokens_simple s = Z.of_nat (length (tokens s)).
Proof. unfold count_tokens_simple. now rewrite (proj1 (count_tokens_loop_spec s)). Qed.

Lemma min_token_len_loop_spec s :
  (forall m, min_token_len_loop s m 0 false = fold_left min_inf (map len (tokens s)) m)
  /\ (forall m cur,
         min_token_len_loop s m cur true
         = fold_left min_inf (Shapes.pending_lengths cur (segments s)) m).
Proof.
  induction s as [|c s [IHf IHt]].
  - split; intros; reflexivity.
  - split; intros; cbn [min_token_len_loop]; rewrite ?tokens_cons;
      cbn [Tokens.segments]; destruct (is_token_sep c).
    + apply IHf.
    + rewrite IHt. destruct (segments s) as [|[t|x] q];
        cbn [Shapes.pending_lengths map Shapes.tokens_of]; unfold len; cbn [length];
        do 2 f_equal; lia.
    + rewrite IHf. reflexivity.
    + rewrite IHt. destruct (segments s) as [|[t|x] q];
        cbn [Shapes.pending_lengths map Shapes.tokens_of]; unfold len; cbn [length];
        do 2 f_equal; lia.
Qed.

Lemma fold_min_inf_some l m :
  fold_left min_inf l (Some m) = Some (fold_left Z.min l m).
Proof. revert m. induction l as [|x l IH]; intros m; [reflexivity|]. cbn. apply IH. Qed.

Lemma fold_min_le l m n :
  fold_left Z.min l m <= n <-> m <= n \/ Exists (fun x => x <= n) l.
Proof.
  revert m. induction l as [|x l IH]; intros m; cbn [fold_left].
  - split; [auto | intros [H|H]; [assumption | inversion H]].
  - rewrite IH. split.
    + intros [H|H]; [|right; now apply Exists_cons_tl].
      destruct (Z.min_spec m x) as [[_ E]|[_ E]]; rewrite E in H; [now left|].
      right. now apply Exists_cons_hd.
    + intros [H|H]; [left; lia|]. inversion H; subst; [left; lia | now right].
Qed.

(** [min_token_len_simple] is the length of a shortest token, 0 without one. *)
Lemma min_token_len_simple_le s n :
  0 < count_tokens_simple s /\ min_token_len_simple s <= Z.of_nat n
  <-> Exists (fun t => (length t <= n)%nat) (tokens s).
Proof.
  rewrite count_tokens_simple_spec. unfold min_token_len_simple.
  rewrite (proj1 (min_token_len_loop_spec s)).
  destruct (tokens s) as [|t l]; cbn [map fold_left length min_inf].
  - split; [lia | intros H; inversion H].
  - rewrite fold_min_inf_some, fold_min_le. unfold len. split.
    + intros [_ [H|H]]; [apply Exists_cons_hd; lia|].
      apply Exists_cons_tl. apply Exists_exists in H. destruct H as [x [Hx Hle]].
      apply in_map_iff in Hx. destruct Hx as [u [<- Hu]].
      apply Exists_exists. exists u. split; [assumption | lia].
    + intros H. split; [lia|]. inversion H; subst; [left; lia|].
      right. apply Exists_exists. match goal with H : Exists _ l |- _ =>
        apply Exists_exists in H; destruct H as [u [Hu Hle]] end.
      exists (Z.of_nat (length u)). split; [|lia].
      apply in_map_iff. exists u. auto.
Qed.

End CounterProofs.

(** * PhonoShift: the token-verified mode beyond the roundtrip *)

Module TokenModeProofs.
Import PhonoShift PhonoClasses PhonoProofs CounterProofs.

Lemma latin_punct_loop_pattern ks d s k :
  Shapes.same_pattern is_token_sep s (punct_loop ks d s k).
Proof.
  revert k. induction s as [|c s IH]; intros k; [constructor|].
  cbn [punct_loop]. destruct (is_shift_punct c) eqn:Hc; cbn [negb].
  - constructor; [|apply IH]. unfold is_shift_punct in Hc.
    destruct (contains P_OPEN c) eqn:Ho.
    + apply contains_In in Ho.
      pose proof (rotate_in_set_no_zero_In P_OPEN c ((key_byte ks k + 1) * d) Ho) as Hin.
      in_cases Ho; in_cases Hin; rewrite <- Hin; reflexivity.
    + cbn [orb] in Hc. apply contains_In in Hc.
      pose proof (rotate_in_set_no_zero_In P_END c ((key_byte ks k + 1) * d) Hc) as Hin.
      in_cases Hc; in_cases Hin; rewrite <- Hin; reflexivity.
  - constructor; [reflexivity | apply IH].
Qed.

Lemma same_pattern_refl s : Shapes.same_pattern is_token_sep s s.
Proof. induction s; constructor; auto. Qed.

Lemma latin_punct_shift_pattern s password iterations salt d :
  Shapes.same_pattern is_token_sep s (punct_shift_apply s password iterations salt d).
Proof.
  unfold punct_shift_apply. destruct s as [|c r]; [constructor|].
  destruct (count is_shift_punct (c :: r) =? 0); [apply same_pattern_refl|].
  apply latin_punct_loop_pattern.
Qed.

Lemma unshifted_pattern tagged p i s sp :
  Shapes.same_pattern is_token_sep tagged (PhonoFormat.unshifted tagged p i s sp).
Proof.
  unfold PhonoFormat.unshifted. destruct sp; [apply latin_punct_shift_pattern | apply same_pattern_refl].
Qed.

Lemma token_free_accepted tagged p i s N sp :
  forallb is_token_sep tagged = true ->
  rot500k_token_tagged_decrypt tagged p i s N sp
  = mkVerified true (PhonoFormat.unshifted tagged p i s sp).
Proof.
  intros H. unfold rot500k_token_tagged_decrypt. fold (PhonoFormat.unshifted tagged p i s sp).
  pose proof (same_pattern_all_separators is_token_sep _ _ (unshifted_pattern tagged p i s sp) H)
    as H1.
  unfold strip_checks_from_tagged. rewrite (all_separators_strip is_token_sep _ N H1).
  rewrite (all_separators_aligned is_token_sep _ _ H1
             (fpe_transform_aligned (PhonoFormat.unshifted tagged p i s sp) p i s (-1))).
  unfold build_plain_token_checks. rewrite (all_separators_no_checks is_token_sep _ _ H1).
  reflexivity.
Qed.

Lemma short_token_rejected tagged p i s N sp :
  0 < count_tokens_simple tagged ->
  min_token_len_simple tagged <= Z.max 1 N ->
  rot500k_token_tagged_decrypt tagged p i s N sp = mkVerified false [].
Proof.
  intros Hc Hm. unfold rot500k_token_tagged_decrypt. fold (PhonoFormat.unshifted tagged p i s sp).
  unfold strip_checks_from_tagged.
  rewrite (same_pattern_strip_none is_token_sep tagged _ N (unshifted_pattern tagged p i s sp));
    [reflexivity|].
  rewrite strip_by_segments. apply seg_strip_none.
  apply (min_token_len_simple_le tagged (Z.to_nat (Z.max 1 N))). split; [assumption | lia].
Qed.

Lemma token_tagged_length t p i s N sp :
  exists tagged,
    rot500k_token_tagged t p i s N sp = Ok tagged
    /\ len tagged = len t + Z.max 1 N * count_tokens_simple t.
Proof.
  unfold rot500k_token_tagged, attach_checks_to_cipher, build_plain_token_checks.
  destruct (attach_length is_token_sep (token_check p s i N) (Z.to_nat (Z.max 1 N))
              (fun k u => make_token_check_length _ _ _ _)
              t (transform_name_name_like_fpe t p i s 1)
              (fpe_transform_aligned t p i s 1)) as [out [-> Hlen]].
  eexists. split; [reflexivity|].
  rewrite count_tokens_simple_spec. unfold len.
  destruct sp; rewrite ?latin_punct_shift_length, Hlen, fpe_transform_length; lia.
Qed.

End TokenModeProofs.

(** * PhonoShift: the prefix-verified mode *)

Module PrefixModeProofs.
Import PhonoShift PhonoClasses PhonoProofs PhonoFormat.

(** ** [split] and [join] *)

Lemma split_not_nil sep s : split sep s <> [].
Proof.
  destruct s as [|c r]; cbn [split]; [discriminate|].
  destruct (c =? sep); [discriminate|]. destruct (split sep r); discriminate.
Qed.

Lemma split_Forall (P : Z -> Prop) sep s :
  Forall P s -> Forall (Forall P) (split sep s).
Proof.
  induction 1 as [|c r Hc _ IH]; cbn [split]; [repeat constructor|].
  destruct (c =? sep); [constructor; [constructor | assumption]|].
  destruct (split sep r) as [|p ps]; [repeat constructor; assumption|].
  inversion IH; subst. constructor; [constructor|]; assumption.
Qed.

Lemma join_Forall (P : Z -> Prop) sep parts :
  Forall P sep -> Forall (Forall P) parts -> Forall P (join sep parts).
Proof.
  intros Hsep. induction 1 as [|p ps Hp _ IH]; cbn [join]; [constructor|].
  destruct ps as [|q qs]; [assumption|].
  apply Forall_app. split; [assumption|]. apply Forall_app. split; assumption.
Qed.

Lemma join_split_length (f : str -> str) sep s :
  (forall w, length (f w) = length w) ->
  length (join [sep] (map f (split sep s))) = length s.
Proof.
  intros Hf. induction s as [|c r IH]; cbn [split map join].
  - now rewrite Hf.
  - destruct (c =? sep).
    + pose proof (split_not_nil sep r) as Hne.
      destruct (split sep r) as [|p ps]; [congruence|].
      cbn [map join] in *. rewrite !length_app, Hf. cbn [length]. lia.
    + pose proof (split_not_nil sep r) as Hne.
      destruct (split sep r) as [|p ps]; [congruence|].
      cbn [map join] in *. destruct ps as [|q qs]; cbn [map] in *.
      * rewrite Hf in *. cbn [length]. lia.
      * rewrite !length_app, Hf in *. cbn [length] in *. lia.
Qed.

(** ** The tag prefix *)

Lemma case_word_length w style : length (apply_case_style_to_word w style) = length w.
Proof.
  unfold apply_case_style_to_word. destruct w as [|c r]; [reflexivity|].
  destruct style; rewrite ?length_app, ?length_map; [reflexivity..|].
  cbn [map firstn skipn length]. now rewrite length_map.
Qed.

Lemma case_word_Forall (P : Z -> Prop) w style :
  (forall c, P c -> P (upper c) /\ P (lower c)) ->
  Forall P w -> Forall P (apply_case_style_to_word w style).
Proof.
  intros HP Hw. unfold apply_case_style_to_word. destruct w as [|c r]; [constructor|].
  assert (Hl : forall l, Forall P l -> Forall P (map lower l))
    by (induction 1; constructor; [apply HP|]; assumption).
  assert (Hu : forall l, Forall P l -> Forall P (map upper l))
    by (induction 1; constructor; [apply HP|]; assumption).
  destruct style; auto.
  inversion Hw; subst. cbn [map firstn skipn app]. constructor.
  - apply HP. apply HP. assumption.
  - now apply Hl.
Qed.

Lemma case_phrase_Forall (P : Z -> Prop) phrase style :
  (forall c, P c -> P (upper c) /\ P (lower c)) -> P 32 ->
  Forall P phrase -> Forall P (apply_case_style_to_phrase phrase style).
Proof.
  intros HP Hsp Hph. unfold apply_case_style_to_phrase.
  apply join_Forall; [repeat constructor; assumption|].
  pose proof (split_Forall P 32 phrase Hph) as H.
  induction H; cbn [map]; constructor; auto using case_word_Forall.
Qed.

Lemma case_phrase_length phrase style :
  length (apply_case_style_to_phrase phrase style) = length phrase.
Proof.
  unfold apply_case_style_to_phrase.
  apply (join_split_length (fun p => apply_case_style_to_word p style)).
  intros w. apply case_word_length.
Qed.

Lemma phrase_scalar_case c : phrase_scalar c -> phrase_scalar (upper c) /\ phrase_scalar (lower c).
Proof.
  unfold phrase_scalar, is_ascii_letter, upper, lower. intros [H | ->]; [|split; right; reflexivity].
  split; left.
  - destruct ((97 <=? c) && (c <=? 122)) eqn:E; lia.
  - destruct ((65 <=? c) && (c <=? 90)) eqn:E; lia.
Qed.

Lemma word_length mac offset syllables :
  length (make_pronounceable_word_from_bytes mac offset syllables) = (2 * syllables)%nat.
Proof.
  unfold make_pronounceable_word_from_bytes.
  rewrite (flat_map_length_const _ _ 2) by reflexivity. now rewrite length_seq.
Qed.

Lemma word_letters mac offset syllables :
  Forall (fun c => In c CONSET \/ In c VOW_LO)
    (make_pronounceable_word_from_bytes mac offset syllables).
Proof.
  unfold make_pronounceable_word_from_bytes. apply Forall_forall. intros x Hx.
  apply in_flat_map in Hx. destruct Hx as [i [_ Hx]].
  destruct Hx as [<-|[<-|[]]]; [left | right];
    apply index_In, Z.mod_pos_bound; reflexivity.
Qed.

Lemma letter_phrase_scalar c : In c CONSET \/ In c VOW_LO -> phrase_scalar c /\ c <> 32.
Proof. intros [H|H]; in_cases H; split; try discriminate; left; reflexivity. Qed.

Lemma word_scalars mac offset syllables :
  Forall phrase_scalar (make_pronounceable_word_from_bytes mac offset syllables).
Proof.
  eapply Forall_impl; [|apply word_letters]. intros c H. now apply letter_phrase_scalar.
Qed.

Lemma pick_punct_cases mac :
  exists m, (m = 63 \/ m = 33) /\ pick_punct_from_bytes mac = [m; 32].
Proof.
  unfold pick_punct_from_bytes.
  pose proof (Z.mod_pos_bound (nth 0 mac 0) 2 ltac:(lia)) as H.
  assert (E : nth 0 mac 0 mod 2 = 0 \/ nth 0 mac 0 mod 2 = 1) by lia.
  destruct E as [-> | ->]; [exists 63 | exists 33]; split; auto.
Qed.

(** The prefix: a phrase of thirteen letters and spaces, a mark, a space. *)
Lemma tag_prefix_shape plain password iterations salt :
  exists phrase m,
    build_tag_prefix_for_plaintext plain password iterations salt = phrase ++ [m; 32]
    /\ length phrase = 13%nat
    /\ Forall phrase_scalar phrase
    /\ In 32 phrase
    /\ (m = 63 \/ m = 33).
Proof.
  unfold build_tag_prefix_for_plaintext.
  set (mac := hmac_sha256_bytes _ _).
  destruct (pick_punct_cases mac) as [m [Hm ->]].
  set (w1 := make_pronounceable_word_from_bytes mac 1 3).
  set (w2 := make_pronounceable_word_from_bytes mac 4 3).
  exists (apply_case_style_to_phrase (w1 ++ [32] ++ w2) (detect_case_style plain)), m.
  assert (Hph : Forall phrase_scalar (w1 ++ [32] ++ w2)).
  { apply Forall_app. split; [apply word_scalars|]. constructor; [now right | apply word_scalars]. }
  repeat split; auto.
  - rewrite case_phrase_length, !length_app. unfold w1, w2. rewrite !word_length. reflexivity.
  - apply case_phrase_Forall; auto using phrase_scalar_case. now right.
  - unfold apply_case_style_to_phrase.
    assert (Hw1 : length w1 = 6%nat) by apply word_length.
    assert (Hsplit : forall a b, Forall (fun c => c <> 32) a ->
              exists p ps, split 32 (a ++ 32 :: b) = p :: ps /\ ps <> []).
    { intros a b Ha. induction Ha as [|c r Hc _ IH]; cbn [app split].
      - pose proof (split_not_nil 32 b). destruct (split 32 b) as [|q qs]; [congruence|].
        eexists _, _. split; [reflexivity | discriminate].
      - destruct (Z.eqb_spec c 32); [congruence|].
        destruct IH as [p [ps [-> Hne]]]. eexists _, _. split; [reflexivity | assumption]. }
    change (w1 ++ [32] ++ w2) with (w1 ++ 32 :: w2).
    destruct (Hsplit w1 w2) as [p [ps [-> Hne]]].
    { eapply Forall_impl; [|apply word_letters]. intros c H. now apply letter_phrase_scalar. }
    destruct ps as [|q qs]; [congruence|]. cbn [map join].
    apply in_or_app. right. now left.
Qed.

(** ** Splitting a tagged text at its prefix *)

Lemma phrase_scalar_no_mark c : phrase_scalar c -> no_mark c.
Proof. unfold phrase_scalar, no_mark, is_ascii_letter. intros [H | ->]; lia. Qed.

Lemma split_loop_at_mark pre phrase m cipher :
  Forall no_mark phrase -> m = 63 \/ m = 33 ->
  split_loop pre (phrase ++ m :: 32 :: cipher)
  = match cipher with [] => None | _ => Some (pre ++ phrase ++ [m], cipher) end.
Proof.
  intros Hph Hm. revert pre. induction Hph as [|c r [H1 H2] _ IH]; intros pre.
  - cbn [app split_loop].
    replace (((m =? 63) || (m =? 33)) && (32 =? 32)) with true by lia.
    reflexivity.
  - cbn [app split_loop]. destruct (r ++ m :: 32 :: cipher) as [|c1 rest] eqn:E.
    + destruct r; discriminate.
    + replace ((c =? 63) || (c =? 33)) with false by lia. cbn [andb].
      rewrite IH. destruct cipher; [reflexivity|]. now rewrite <- app_assoc.
Qed.

Lemma kp_roundtrip name password iterations salt sp :
  rot500k_prefix_tagged_decrypt
    (rot500k_prefix_tagged name password iterations salt sp) password iterations salt sp
  = match name with
    | [] => mkVerified false []
    | _ => mkVerified true name
    end.
Proof.
  unfold rot500k_prefix_tagged_decrypt, rot500k_prefix_tagged.
  set (out := build_tag_prefix_for_plaintext name password iterations salt
              ++ transform_name_name_like_fpe name password iterations salt 1).
  assert (Hback : (if sp then punct_shift_apply
                               (if sp then punct_shift_apply out password iterations salt 1
                                else out) password iterations salt (-1)
                   else (if sp then punct_shift_apply out password iterations salt 1 else out))
                  = out).
  { destruct sp; [|reflexivity]. apply (latin_punct_shift_inv out password iterations salt 1). lia. }
  rewrite Hback. unfold out, split_tagged_prefix.
  destruct (tag_prefix_shape name password iterations salt)
    as (phrase & m & E & _ & Hph & _ & Hm).
  rewrite E, <- app_assoc. cbn [app].
  assert (Hnm : Forall no_mark phrase)
    by (eapply Forall_impl; [apply phrase_scalar_no_mark | exact Hph]).
  rewrite (split_loop_at_mark [] phrase m _ Hnm Hm).
  destruct name as [|c r]; [reflexivity|].
  destruct (transform_name_name_like_fpe (c :: r) password iterations salt 1) as [|o q] eqn:Et.
  - apply (f_equal (@length Z)) in Et. rewrite fpe_transform_length in Et. discriminate.
  - rewrite <- Et. cbn [app].
    rewrite (fpe_transform_inv (c :: r) password iterations salt 1 ltac:(lia)
             : transform_name_name_like_fpe _ password iterations salt (-1) = c :: r).
    rewrite E.
    replace (removelast (phrase ++ [m; 32])) with (phrase ++ [m])
      by (change [m; 32] with ([m] ++ [32]); now rewrite app_assoc, removelast_last).
    now rewrite str_eqb_refl.
Qed.

Lemma kp_length name password iterations salt sp :
  len (rot500k_prefix_tagged name password iterations salt sp) = len name + 15.
Proof.
  unfold rot500k_prefix_tagged, len.
  destruct (tag_prefix_shape name password iterations salt)
    as (phrase & m & E & Hlen & _).
  destruct sp; rewrite ?latin_punct_shift_length, length_app, E, length_app, Hlen,
    fpe_transform_length; cbn [length]; lia.
Qed.

End PrefixModeProofs.

(** * PhonoShift: the auto-select mode *)

Module AutoSelectProofs.
Import PhonoShift PhonoClasses PhonoProofs CounterProofs TokenModeProofs PrefixModeProofs.

Lemma kv_token_path name p i s N sp :
  should_use_token_tagged name N = true ->
  exists out,
    rot500kv_safe_encrypt name p i s N sp = Ok out
    /\ rot500kv_safe_decrypt out p i s N sp = mkVerified true name.
Proof.
  intros H. unfold rot500kv_safe_encrypt, rot500kv_safe_decrypt. rewrite H.
  destruct (token_tagged_roundtrip name p i s N sp) as [out [-> Hd]].
  exists out. split; [reflexivity|]. now rewrite Hd.
Qed.

Lemma kv_accepts name p i s N sp :
  name <> [] ->
  exists out,
    rot500kv_safe_encrypt name p i s N sp = Ok out
    /\ ok (rot500kv_safe_decrypt out p i s N sp) = true
    /\ (ok (rot500k_token_tagged_decrypt out p i s N sp) = false ->
        value (rot500kv_safe_decrypt out p i s N sp) = name).
Proof.
  intros Hne. destruct (should_use_token_tagged name N) eqn:H.
  - destruct (kv_token_path name p i s N sp H) as [out [He Hd]].
    exists out. rewrite He, Hd. auto.
  - unfold rot500kv_safe_encrypt. rewrite H. eexists. split; [reflexivity|].
    unfold rot500kv_safe_decrypt.
    destruct (ok (rot500k_token_tagged_decrypt _ p i s N sp)) eqn:Hk.
    + split; [assumption | discriminate].
    + rewrite kp_roundtrip. destruct name; [congruence|]. auto.
Qed.

Lemma kv_safe_encrypt_ok name p i s N sp :
  exists out, rot500kv_safe_encrypt name p i s N sp = Ok out.
Proof.
  unfold rot500kv_safe_encrypt. destruct (should_use_token_tagged name N).
  - apply token_tagged_never_raises.
  - eauto.
Qed.

End AutoSelectProofs.

(** * The no-zero rotation never stands still *)

Lemma effective_shift_range (shift n : Z) :
  2 <= n -> effective_shift shift n = -1 \/ 1 <= effective_shift shift n < n.
Proof.
  intros Hn. unfold effective_shift. destruct (Z.leb_spec n 1); [lia|].
  pose proof (Z.mod_pos_bound shift n ltac:(lia)) as Hm.
  destruct (Z.eqb_spec (shift mod n) 0); [destruct (shift >=? 0); lia | lia].
Qed.

Lemma rotate_in_set_no_zero_moves (A : str) (ch shift : Z) :
  NoDup A -> 2 <= len A -> In ch A -> rotate_in_set_no_zero A ch shift <> ch.
Proof.
  intros Hnd Hn Hin E.
  pose proof (find_In A ch Hin) as Hr.
  unfold rotate_in_set_no_zero in E.
  destruct (Z.ltb_spec (find A ch) 0); [lia|].
  set (j := (find A ch + effective_shift shift (len A)) mod len A) in *.
  assert (Hj : 0 <= j < len A) by (apply Z.mod_pos_bound; lia).
  pose proof (find_index A j Hnd Hj) as Hf. rewrite E in Hf.
  pose proof (effective_shift_range shift (len A) Hn) as He.
  unfold j in Hf. revert Hf. generalize (effective_shift shift (len A)) He.
  intros e [-> | He'] Hf.
  - destruct (Z.eq_dec (find A ch) 0) as [E0|E0].
    + rewrite <- (Z.mod_add _ 1), Z.mod_small in Hf by lia. lia.
    + rewrite Z.mod_small in Hf by lia. lia.
  - destruct (Z.lt_ge_cases (find A ch + e) (len A)).
    + rewrite Z.mod_small in Hf by lia. lia.
    + rewrite <- (Z.mod_add _ (-1)), Z.mod_small in Hf by lia. lia.
Qed.

Lemma Forall2_trans_with {A} (R S T : A -> A -> Prop) l1 l2 l3 :
  (forall a b c, R a b -> S b c -> T a c) ->
  Forall2 R l1 l2 -> Forall2 S l2 l3 -> Forall2 T l1 l3.
Proof.
  intros H H12. revert l3. induction H12; intros l3 H23; inversion H23; subst;
    constructor; eauto.
Qed.

(** * PhonoShift: what the base mode keeps and what it changes *)

Module FormatProofs.
Import PhonoShift PhonoClasses PhonoProofs Shapes PhonoFormat.

Lemma fpe_loop_Forall2 (R : Z -> Z -> Prop) ks d s k :
  (forall c k', R c (fst (fpe_step ks d c k'))) -> Forall2 R s (fpe_loop ks d s k).
Proof.
  intros H. revert k. induction s as [|c s IH]; intros k; [constructor|].
  cbn [fpe_loop]. specialize (H c k). destruct (fpe_step ks d c k) as [o k'].
  constructor; [exact H | apply IH].
Qed.

Lemma fpe_transform_Forall2 (R : Z -> Z -> Prop) s password iterations salt d :
  (forall ks c k, R c (fst (fpe_step ks d c k))) ->
  Forall2 R s (transform_name_name_like_fpe s password iterations salt d).
Proof.
  intros H. unfold transform_name_name_like_fpe. destruct s; [constructor|].
  apply fpe_loop_Forall2. intros c k'. apply H.
Qed.

Lemma latin_punct_loop_Forall2 (R : Z -> Z -> Prop) ks d s k :
  (forall c, R c c) ->
  (forall c shift, is_shift_punct c = true ->
     R c (if contains P_OPEN c then rotate_in_set_no_zero P_OPEN c shift
          else rotate_in_set_no_zero P_END c shift)) ->
  Forall2 R s (punct_loop ks d s k).
Proof.
  intros Hrefl Hrot. revert k. induction s as [|c s IH]; intros k; [constructor|].
  cbn [punct_loop]. destruct (is_shift_punct c) eqn:Hc; cbn [negb]; constructor; auto.
Qed.

Lemma latin_punct_shift_Forall2 (R : Z -> Z -> Prop) s password iterations salt d :
  (forall c, R c c) ->
  (forall c o, is_shift_punct c = true -> is_shift_punct o = true ->
     contains P_OPEN o = contains P_OPEN c -> R c o) ->
  Forall2 R s (punct_shift_apply s password iterations salt d).
Proof.
  intros Hrefl Hrot. unfold punct_shift_apply. destruct s as [|c r]; [constructor|].
  assert (Hid : forall l, Forall2 R l l) by (induction l; constructor; auto).
  destruct (count is_shift_punct (c :: r) =? 0); [apply Hid|].
  apply latin_punct_loop_Forall2; [assumption|].
  intros x shift Hx. destruct (latin_punct_rotated_class x shift Hx) as [H1 H2].
  now apply Hrot.
Qed.

(** ** Format *)

Lemma lower_class_format A x :
  In A lower_classes -> In x A -> format x = format (hd 0 A).
Proof. intros HA Hx. in_cases HA; in_cases Hx; reflexivity. Qed.

Lemma upper_class_format A x :
  In A cased_classes -> In x A -> format (to_upper_ascii x) = format (to_upper_ascii (hd 0 A)).
Proof. intros HA Hx. in_cases HA; in_cases Hx; reflexivity. Qed.

Lemma digit_format c : is_digit c = true -> format c = format 48.
Proof.
  intros H. assert (Hr : 48 <= c <= 57) by (unfold is_digit in H; lia).
  apply (range_In 48 57) in Hr. in_cases Hr; reflexivity.
Qed.

Lemma fpe_step_format ks d c k : format (fst (fpe_step ks d c k)) = format c.
Proof.
  destruct (phono_classify c) as [H|H|A HA H|A x HA Hx ->|H].
  - now rewrite (fpe_step_separator c ks d k H).
  - rewrite (fpe_step_digit c ks d k H). cbn [fst].
    now rewrite (digit_format c H), (digit_format _ (is_digit_mod10 _)).
  - rewrite (fpe_step_lower A c ks d k HA H). cbn [fst].
    rewrite (lower_class_format A c HA H).
    apply lower_class_format; auto using rotate_in_set_no_zero_In.
  - rewrite (fpe_step_upper A x ks d k HA Hx). cbn [fst].
    rewrite (upper_class_format A x HA Hx).
    apply upper_class_format; auto using rotate_in_set_no_zero_In.
  - now rewrite H.
Qed.

Lemma shift_punct_format c o :
  is_shift_punct c = true -> is_shift_punct o = true -> format o = format c.
Proof.
  unfold is_shift_punct. intros Hc Ho.
  apply orb_true_iff in Hc, Ho. rewrite !contains_In in Hc, Ho.
  destruct Hc as [Hc|Hc], Ho as [Ho|Ho]; in_cases Hc; in_cases Ho; reflexivity.
Qed.

Lemma encrypt_format text password iterations salt sp :
  Forall2 (fun a b => format b = format a) text
    (rot500k_encrypt text password iterations salt sp).
Proof.
  unfold rot500k_encrypt.
  pose proof (fpe_transform_Forall2 (fun a b => format b = format a) text password
                iterations salt 1 (fun ks c k => fpe_step_format ks 1 c k)) as H1.
  destruct sp; [|exact H1].
  eapply Forall2_trans_with; [|exact H1|].
  2:{ apply (latin_punct_shift_Forall2 (fun a b => format b = format a));
      [reflexivity | intros c o Hc Ho _; now apply shift_punct_format]. }
  cbv beta. intros a b c Hab Hbc. congruence.
Qed.

(** ** Letters always move *)

Lemma to_upper_ascii_value A x :
  In A cased_classes -> In x A -> to_upper_ascii x = x - 32.
Proof. intros HA Hx. in_cases HA; in_cases Hx; reflexivity. Qed.

Lemma lower_class_letter A x :
  In A lower_classes -> In x A -> rotated_letter x = true -> 2 <= len A.
Proof. intros HA Hx. in_cases HA; in_cases Hx; cbn; intros; try discriminate; lia. Qed.

Lemma fpe_step_moves ks d c k :
  rotated_letter c = true -> fst (fpe_step ks d c k) <> c.
Proof.
  intros Hl.
  destruct (phono_classify c) as [H|H|A HA H|A x HA Hx ->|H].
  - exfalso. unfold is_separator in H.
    assert (E : c = 32 \/ c = 45 \/ c = 39) by lia.
    destruct E as [-> | [-> | ->]]; discriminate.
  - exfalso. assert (Hr : 48 <= c <= 57) by (unfold is_digit in H; lia).
    apply (range_In 48 57) in Hr. in_cases Hr; discriminate.
  - rewrite (fpe_step_lower A c ks d k HA H). cbn [fst].
    apply rotate_in_set_no_zero_moves; auto using lower_classes_NoDup.
    eapply lower_class_letter; eauto.
  - rewrite (fpe_step_upper A x ks d k HA Hx). cbn [fst].
    pose proof (rotate_in_set_no_zero_In A x ((key_byte ks k + 1) * d) Hx) as Hin.
    rewrite (to_upper_ascii_value A _ HA Hin), (to_upper_ascii_value A x HA Hx).
    assert (rotate_in_set_no_zero A x ((key_byte ks k + 1) * d) <> x); [|lia].
    apply rotate_in_set_no_zero_moves; auto using lower_classes_NoDup, cased_classes_lower.
    in_cases HA; vm_compute; discriminate.
  - exfalso. specialize (H [] 1 0%nat). unfold rotated_letter in Hl.
    apply orb_true_iff in Hl. destruct Hl as [Hl|Hl];
      [apply orb_true_iff in Hl; destruct Hl as [Hl|Hl];
       [apply orb_true_iff in Hl; destruct Hl as [Hl|Hl]|]|].
    + assert (Hr : 65 <= c <= 90) by (unfold is_ascii_upper in Hl; lia).
      apply (range_In 65 90) in Hr. in_cases Hr; vm_compute in H; discriminate.
    + assert (Hr : 97 <= c <= 122) by (unfold is_ascii_lower in Hl; lia).
      apply (range_In 97 122) in Hr. in_cases Hr; vm_compute in H; discriminate.
    + apply contains_In in Hl. in_cases Hl; vm_compute in H; discriminate.
    + apply contains_In in Hl. in_cases Hl; vm_compute in H; discriminate.
Qed.

Lemma shift_punct_not_letter c : is_shift_punct c = true -> rotated_letter c = false.
Proof.
  unfold is_shift_punct. intros Hc. apply orb_true_iff in Hc. rewrite !contains_In in Hc.
  destruct Hc as [Hc|Hc]; in_cases Hc; reflexivity.
Qed.

Lemma format_letter a b : format b = format a -> rotated_letter b = rotated_letter a.
Proof.
  intros H. unfold rotated_letter.
  rewrite (f_equal (fun l => nth 2 l false) H : is_ascii_upper b = is_ascii_upper a).
  rewrite (f_equal (fun l => nth 3 l false) H : is_ascii_lower b = is_ascii_lower a).
  rewrite (f_equal (fun l => nth 5 l false) H : contains VOW_LO_PT b = contains VOW_LO_PT a).
  rewrite (f_equal (fun l => nth 6 l false) H : contains VOW_UP_PT b = contains VOW_UP_PT a).
  reflexivity.
Qed.

Lemma encrypt_moves_letters text password iterations salt sp :
  Forall2 (fun a b => rotated_letter a = true -> b <> a) text
    (rot500k_encrypt text password iterations salt sp).
Proof.
  unfold rot500k_encrypt.
  pose proof (fpe_transform_Forall2
                (fun a b => format b = format a /\ (rotated_letter a = true -> b <> a))
                text password iterations salt 1
                (fun ks c k => conj (fpe_step_format ks 1 c k) (fpe_step_moves ks 1 c k))) as H1.
  destruct sp.
  - eapply Forall2_trans_with; [|exact H1|].
    2:{ apply (latin_punct_shift_Forall2 (fun a b => is_shift_punct a = false -> b = a)).
        - reflexivity.
        - intros c o Hc. congruence. }
    cbv beta. intros a b c [Hf Hab] Hbc Ha.
    assert (Hb : rotated_letter b = true) by (now rewrite (format_letter a b Hf)).
    destruct (is_shift_punct b) eqn:Hp.
    + rewrite (shift_punct_not_letter b Hp) in Hb. discriminate.
    + rewrite (Hbc eq_refl). auto.
  - eapply Forall2_impl; [|exact H1]. cbv beta. tauto.
Qed.

End FormatProofs.

(** * KanaShift: what the base modes keep, hide and give back *)

Module KanaFormatProofs.
Import KanaShift KanaClasses KanaProofs KanaFormat.

(** ** Relations carried through the loops *)

Lemma skin_loop_Forall2 (R : Z -> Z -> Prop) ks d s k :
  (forall c k', R c (fst (skin_step ks d c k'))) -> Forall2 R s (skin_loop ks d s k).
Proof.
  intros H. revert k. induction s as [|c s IH]; intros k; [constructor|].
  cbn [skin_loop]. specialize (H c k). destruct (skin_step ks d c k) as [o k'].
  constructor; [exact H | apply IH].
Qed.

Lemma skin_transform_Forall2 (R : Z -> Z -> Prop) s password iterations salt d :
  (forall ks c k, R c (fst (skin_step ks d c k))) ->
  Forall2 R s (_skin_transform s password iterations salt d).
Proof.
  intros H. unfold _skin_transform. destruct s; [constructor|].
  apply skin_loop_Forall2. intros c k'. apply H.
Qed.

Lemma jp_loop_Forall2 (R : Z -> Z -> Prop) ks d s k :
  (forall c k', R c (fst (jp_step ks d c k'))) -> Forall2 R s (jp_loop ks d s k).
Proof.
  intros H. revert k. induction s as [|c s IH]; intros k; [constructor|].
  cbn [jp_loop]. specialize (H c k). destruct (jp_step ks d c k) as [o k'].
  constructor; [exact H | apply IH].
Qed.

Lemma jp_transform_Forall2 (R : Z -> Z -> Prop) s password iterations salt d :
  (forall ks c k, R c (fst (jp_step ks d c k))) ->
  Forall2 R s (_jp_native_transform s password iterations salt d).
Proof.
  intros H. unfold _jp_native_transform. destruct s; [constructor|].
  apply jp_loop_Forall2. intros c k'. apply H.
Qed.

Lemma punct_translate_Forall2 (R : Z -> Z -> Prop) s d :
  (forall c, R c (dict_get (if d >? 0 then _PUNCT_ENC_MAP else _PUNCT_DEC_MAP) c c)) ->
  Forall2 R s (punct_translate s d).
Proof.
  intros H. unfold punct_translate. destruct s as [|c r]; [constructor|].
  induction (c :: r); cbn [map]; constructor; auto.
Qed.

Lemma jp_punct_shift_Forall2 (R : Z -> Z -> Prop) s password iterations salt d :
  (forall c, R c c) ->
  (forall c o, _is_shift_punct c = true -> _is_shift_punct o = true ->
     contains P_END o = contains P_END c -> R c o) ->
  Forall2 R s (punct_shift_apply s password iterations salt d).
Proof.
  intros Hrefl Hrot. unfold punct_shift_apply. destruct s as [|c r]; [constructor|].
  assert (Hid : forall l, Forall2 R l l) by (induction l; constructor; auto).
  destruct (count _is_shift_punct (c :: r) =? 0); [apply Hid|].
  generalize (pbkdf2_keystream password (salt ++ lit "|PunctShiftJP:v2") iterations
                (count _is_shift_punct (c :: r) + 64)) as ks.
  intros ks. generalize 0%nat as k. induction (c :: r) as [|x l IH]; intros k; [constructor|].
  cbn [punct_loop]. destruct (_is_shift_punct x) eqn:Hx; cbn [negb]; constructor; auto.
  destruct (jp_punct_rotated_class x (Z.land (key_byte ks k) 255 * d) Hx) as [H1 H2].
  now apply Hrot.
Qed.

(** ** Punctuation translation *)

Lemma punct_decode_changes c :
  contains fullwidth_punct c = true ->
  dict_get _PUNCT_DEC_MAP (dict_get _PUNCT_ENC_MAP c c) (dict_get _PUNCT_ENC_MAP c c) <> c.
Proof. intros H. apply contains_In in H. in_cases H; discriminate. Qed.

Lemma punct_translate_back s :
  punct_translate (punct_translate s 1) (-1) = s
  <-> forallb (fun c => negb (contains fullwidth_punct c)) s = true.
Proof.
  split; [|apply punct_translate_inv].
  unfold punct_translate. destruct s as [|c s]; [reflexivity|].
  change (1 >? 0) with true. change (-1 >? 0) with false. cbv iota.
  remember (c :: s) as t eqn:Et. clear Et.
  destruct (map (fun c0 => dict_get _PUNCT_ENC_MAP c0 c0) t) eqn:E.
  - destruct t; [reflexivity | discriminate].
  - rewrite <- E. clear E. rewrite map_map.
    induction t as [|x t IH]; [reflexivity|]. cbn [map forallb]. intros H.
    injection H as Hx Ht. rewrite (IH Ht), andb_true_r.
    destruct (contains fullwidth_punct x) eqn:Hc; [|reflexivity].
    destruct (punct_decode_changes x Hc Hx).
Qed.

(** ** The skin family leaves no Latin scalar *)

Lemma skin_glyph_not_latin P C y :
  In (P, C) skin_pairs -> In y C -> skin_latin y = false.
Proof. intros HP Hy. pair_cases HP; in_cases Hy; reflexivity. Qed.

Lemma skin_step_not_latin ks c k : skin_latin (fst (skin_step ks 1 c k)) = false.
Proof.
  destruct (skin_classify c) as [H|Hsep H|P C Hsep Hdig HP Hx| -> | -> |Hsep Hdig H].
  - rewrite (skin_step_separator c ks 1 k H). cbn [fst]. unfold is_separator in H.
    assert (E : c = 32 \/ c = 45 \/ c = 39) by lia.
    destruct E as [-> | [-> | ->]]; reflexivity.
  - rewrite (skin_step_encode c ks k Hsep), H. cbn [fst].
    assert (Hfw : forall o, 65296 <= o <= 65305 -> skin_latin o = false)
      by (intros o Hr; apply (range_In 65296 65305) in Hr; in_cases Hr; reflexivity).
    apply Hfw.
    match goal with |- _ <= 65296 + ?x mod 10 <= _ =>
      pose proof (Z.mod_pos_bound x 10 ltac:(lia)) as Hm
    end. lia.
  - rewrite (skin_step_encode c ks k Hsep), Hdig. cbn [fst].
    rewrite (skin_encode_letter_pair P C c _ HP Hx).
    apply (skin_glyph_not_latin P C); [assumption | now apply skin_glyph_In].
  - reflexivity.
  - reflexivity.
  - rewrite (skin_step_encode c ks k Hsep), Hdig, H. cbn [fst].
    destruct (skin_latin c) eqn:Hl; [exfalso | reflexivity].
    specialize (H 0). unfold skin_latin in Hl. rewrite Hdig in Hl. cbn [orb] in Hl.
    destruct (is_ascii_upper c) eqn:Hu.
    { assert (Hr : 65 <= c <= 90) by (unfold is_ascii_upper in Hu; lia).
      apply (range_In 65 90) in Hr. in_cases Hr; vm_compute in H; discriminate. }
    destruct (is_ascii_lower c) eqn:Hlo.
    { assert (Hr : 97 <= c <= 122) by (unfold is_ascii_lower in Hlo; lia).
      apply (range_In 97 122) in Hr. in_cases Hr; vm_compute in H; discriminate. }
    destruct (contains P_VOW_LO_PT c) eqn:H1.
    { apply contains_In in H1. in_cases H1; vm_compute in H; discriminate. }
    destruct (contains P_VOW_UP_PT c) eqn:H2.
    { apply contains_In in H2. in_cases H2; vm_compute in H; discriminate. }
    cbn [orb] in Hl. apply orb_true_iff in Hl.
    destruct Hl as [Hl|Hl]; apply Z.eqb_eq in Hl; subst c; vm_compute in H; discriminate.
Qed.

Lemma punct_encode_not_latin c :
  skin_latin c = false -> skin_latin (dict_get _PUNCT_ENC_MAP c c) = false.
Proof.
  intros H. destruct (in_dec Z.eq_dec c (map fst _PUNCT_ENC_MAP)) as [Hin|Hout].
  - in_cases Hin; reflexivity.
  - now rewrite (dict_get_miss _ c c Hout).
Qed.

Lemma jp_shift_punct_not_latin o : _is_shift_punct o = true -> skin_latin o = false.
Proof.
  unfold _is_shift_punct. intros H. apply orb_true_iff in H. rewrite !contains_In in H.
  destruct H as [H|H]; in_cases H; reflexivity.
Qed.

Lemma Forall2_right {A} (R : A -> A -> Prop) (P : A -> Prop) l l' :
  (forall a b, R a b -> P b) -> Forall2 R l l' -> Forall P l'.
Proof. intros H. induction 1; constructor; eauto. Qed.

Lemma skin_encrypt_no_latin text password iterations salt sp :
  forallb (fun c => negb (skin_latin c)) (kanashift_skin_encrypt text password iterations salt sp)
  = true.
Proof.
  unfold kanashift_skin_encrypt.
  pose proof (skin_transform_Forall2 (fun _ b => skin_latin b = false) text password
                iterations salt 1 (fun ks c k => skin_step_not_latin ks c k)) as H1.
  apply (Forall2_right _ (fun b => skin_latin b = false)) in H1; [|auto].
  set (r := _skin_transform text password iterations salt 1) in *.
  pose proof (punct_translate_Forall2 (fun a b => skin_latin a = false -> skin_latin b = false)
                r 1 punct_encode_not_latin) as H2.
  set (r2 := punct_translate r 1) in *.
  assert (H2' : Forall (fun b => skin_latin b = false) r2).
  { clearbody r2. clear -H1 H2. induction H2; inversion H1; subst; constructor; auto. }
  assert (H3 : Forall (fun b => skin_latin b = false)
                 (if sp then punct_shift_apply r2 password iterations salt 1 else r2)).
  { destruct sp; [|exact H2'].
    pose proof (jp_punct_shift_Forall2
                  (fun a b => skin_latin a = false -> skin_latin b = false)
                  r2 password iterations salt 1 (fun c H => H)
                  (fun c o _ Ho _ _ => jp_shift_punct_not_latin o Ho)) as H3.
    clearbody r2. clear -H2' H3. induction H3; inversion H2'; subst; constructor; auto. }
  apply forallb_forall. intros x Hx. rewrite Forall_forall in H3.
  now rewrite (H3 x Hx).
Qed.

(** ** The JP-native family keeps the script *)

Lemma jp_letter_script A x :
  In A jp_letter_classes -> In x A ->
  jp_script x = jp_script (hd 0 A) /\ jp_script (upper x) = jp_script (upper (hd 0 A)).
Proof. intros HA Hx. in_cases HA; in_cases Hx; split; reflexivity. Qed.

Lemma no_script c :
  is_ascii_upper c = false -> is_ascii_lower c = false ->
  jp_script c = [is_hiragana c; is_katakana c; is_kanji c; false; false; false].
Proof.
  intros Hu Hl. unfold jp_script, to_lower_ascii. rewrite Hu, Hl.
  replace (contains P_VOW_LO c) with false; [reflexivity|].
  symmetry. apply contains_false. intros Hin. unfold is_ascii_lower in Hl.
  in_cases Hin; discriminate.
Qed.

Lemma digit_no_script c :
  is_digit c = true \/ is_fullwidth_digit c = true ->
  jp_script c = [false; false; false; false; false; false].
Proof.
  intros H. rewrite no_script by (unfold_preds; lia).
  replace (is_hiragana c) with false by (unfold_preds; lia).
  replace (is_katakana c) with false by (unfold_preds; lia).
  replace (is_kanji c) with false by (unfold_preds; lia).
  reflexivity.
Qed.

Lemma jp_step_script ks c k :
  jp_script (fst (jp_step ks 1 c k)) = jp_script c
  /\ (is_separator c || is_stable_jp_mark c = true -> fst (jp_step ks 1 c k) = c).
Proof.
  destruct (jp_classify c) as [H|A HA H|A x HA Hx ->|H|H|H|H|H|Hn H].
  - rewrite (jp_step_skip c ks 1 k H). cbn [fst]. auto.
  - rewrite (jp_step_lower A c ks 1 k HA H). cbn [fst]. split.
    + pose proof (rotate_in_set_allow_zero_In A c (Z.land (key_byte ks k) 255 * 1) H) as Ho.
      destruct (jp_letter_script A c HA H) as [-> _].
      now destruct (jp_letter_script A _ HA Ho) as [-> _].
    + intros E. exfalso. clear -HA H E. in_cases HA; in_cases H; discriminate.
  - rewrite (jp_step_upper A x ks 1 k HA Hx). cbn [fst]. split.
    + pose proof (rotate_in_set_allow_zero_In A x (Z.land (key_byte ks k) 255 * 1) Hx) as Ho.
      destruct (jp_letter_script A x HA Hx) as [_ ->].
      now destruct (jp_letter_script A _ HA Ho) as [_ ->].
    + intros E. exfalso. clear -HA Hx E. in_cases HA; in_cases Hx; discriminate.
  - rewrite (jp_step_encode_digit c ks k H). cbn [fst]. split.
    + rewrite (digit_no_script c) by auto.
      apply digit_no_script. right. apply is_fullwidth_digit_mod10.
    + intros E. exfalso. unfold_preds. lia.
  - rewrite (jp_step_encode_fullwidth_digit c ks k H). cbn [fst]. split.
    + rewrite (digit_no_script c) by auto.
      apply digit_no_script. right. apply is_fullwidth_digit_mod10.
    + intros E. exfalso. unfold_preds. lia.
  - assert (Hc : is_hiragana c || is_katakana c || is_kanji c = true)
      by (apply kana_kanji_of_class; auto).
    rewrite (jp_step_kana_kanji c ks 1 k Hc). cbn [fst].
    destruct (jp_rotate_kana_kanji_class c (Z.land (key_byte ks k) 255 * 1) Hc)
      as (E1 & E2 & E3).
    pose proof (jp_rotated_class c (Z.land (key_byte ks k) 255 * 1) Hc) as Ho.
    split; [|intros E; exfalso; unfold_preds; lia].
    rewrite !no_script by (unfold_preds; lia). now rewrite E1, E2, E3.
  - assert (Hc : is_hiragana c || is_katakana c || is_kanji c = true)
      by (apply kana_kanji_of_class; auto).
    rewrite (jp_step_kana_kanji c ks 1 k Hc). cbn [fst].
    destruct (jp_rotate_kana_kanji_class c (Z.land (key_byte ks k) 255 * 1) Hc)
      as (E1 & E2 & E3).
    pose proof (jp_rotated_class c (Z.land (key_byte ks k) 255 * 1) Hc) as Ho.
    split; [|intros E; exfalso; unfold_preds; lia].
    rewrite !no_script by (unfold_preds; lia). now rewrite E1, E2, E3.
  - assert (Hc : is_hiragana c || is_katakana c || is_kanji c = true)
      by (apply kana_kanji_of_class; auto).
    rewrite (jp_step_kana_kanji c ks 1 k Hc). cbn [fst].
    destruct (jp_rotate_kana_kanji_class c (Z.land (key_byte ks k) 255 * 1) Hc)
      as (E1 & E2 & E3).
    pose proof (jp_rotated_class c (Z.land (key_byte ks k) 255 * 1) Hc) as Ho.
    split; [|intros E; exfalso; unfold_preds; lia].
    rewrite !no_script by (unfold_preds; lia). now rewrite E1, E2, E3.
  - rewrite H. cbn [fst]. auto.
Qed.

Lemma script_kept_trans a b c : script_kept a b -> script_kept b c -> script_kept a c.
Proof.
  intros [H1 H2] [H3 H4]. split; [congruence|].
  intros Ha. rewrite <- (H2 Ha) in *. rewrite (H2 Ha) at 1. rewrite (H2 Ha) in H4. auto.
Qed.

Lemma punct_encode_script c : script_kept c (dict_get _PUNCT_ENC_MAP c c).
Proof.
  destruct (in_dec Z.eq_dec c (map fst _PUNCT_ENC_MAP)) as [Hin|Hout].
  - in_cases Hin; split; try reflexivity; discriminate.
  - rewrite (dict_get_miss _ c c Hout). split; auto.
Qed.

Lemma jp_shift_punct_script c o :
  _is_shift_punct c = true -> _is_shift_punct o = true -> script_kept c o.
Proof.
  unfold _is_shift_punct. intros Hc Ho.
  apply orb_true_iff in Hc, Ho. rewrite !contains_In in Hc, Ho.
  destruct Hc as [Hc|Hc], Ho as [Ho|Ho]; in_cases Hc; in_cases Ho;
    split; try reflexivity; discriminate.
Qed.

Lemma jp_encrypt_script text password iterations salt sp :
  Forall2 script_kept text (kanashift_jp_encrypt text password iterations salt sp).
Proof.
  unfold kanashift_jp_encrypt.
  pose proof (jp_transform_Forall2 script_kept text password iterations salt 1
                (fun ks c k => jp_step_script ks c k)) as H1.
  set (r := _jp_native_transform text password iterations salt 1) in *.
  pose proof (punct_translate_Forall2 script_kept r 1 punct_encode_script) as H2.
  pose proof (Forall2_trans_with _ _ _ _ _ _ script_kept_trans H1 H2) as H12.
  destruct sp; [|exact H12].
  eapply Forall2_trans_with; [exact script_kept_trans | exact H12 |].
  apply jp_punct_shift_Forall2.
  - intros c. split; auto.
  - intros c o Hc Ho _. now apply jp_shift_punct_script.
Qed.

(** ** Texts that come back whatever the key *)

Lemma punct_zero_free_no_mid ks s k :
  forallb (fun c => negb (contains P_MID c)) s = true -> punct_zero_free ks s k = true.
Proof.
  revert k. induction s as [|c s IH]; intros k H; [reflexivity|].
  cbn [forallb punct_zero_free] in *. apply andb_true_iff in H. destruct H as [Hc H].
  apply negb_true_iff in Hc. unfold _is_shift_punct. rewrite Hc, orb_false_r.
  destruct (contains P_END c); cbn [negb orb andb]; auto.
Qed.

(** A scalar that is no source of [P_MID] gives none after the core
    transform and [punct_translate]. *)
Lemma mid_free_encoded a b :
  mid_free a = true ->
  is_token_sep a = is_token_sep b /\ (is_token_sep a = true -> a = b) ->
  contains P_MID (dict_get _PUNCT_ENC_MAP b b) = false.
Proof.
  intros Ha [Hs Heq].
  destruct (in_dec Z.eq_dec b (map fst _PUNCT_ENC_MAP)) as [Hin|Hout].
  - in_cases Hin; try reflexivity;
      (rewrite (Heq ltac:(rewrite Hs; reflexivity)) in Ha; vm_compute in Ha; discriminate).
  - rewrite (dict_get_miss _ b b Hout).
    destruct (contains P_MID b) eqn:Hb; [|reflexivity].
    apply contains_In in Hb.
    in_cases Hb;
      (rewrite (Heq ltac:(rewrite Hs; reflexivity)) in Ha; vm_compute in Ha; discriminate).
Qed.

Lemma aligned_no_mid text cipher :
  forallb mid_free text = true -> Tokens.aligned is_token_sep text cipher ->
  forallb (fun c => negb (contains P_MID c)) (punct_translate cipher 1) = true.
Proof.
  intros Ht Hal. unfold punct_translate. destruct cipher as [|o q] eqn:E; [reflexivity|].
  rewrite <- E in *. clear E o q. change (1 >? 0) with true. cbv iota.
  induction Hal as [|a b p c Hab _ IH]; [reflexivity|].
  cbn [forallb map] in *. apply andb_true_iff in Ht. destruct Ht as [Ha Ht].
  rewrite (mid_free_encoded a b Ha Hab). cbn [negb andb]. now apply IH.
Qed.

Lemma skin_safe_roundtrip text password iterations salt sp :
  forallb skin_safe text = true ->
  kanashift_skin_decrypt (kanashift_skin_encrypt text password iterations salt sp)
    password iterations salt sp = text.
Proof.
  intros H. apply forallb_and in H. destruct H as [Hp Hm].
  apply skin_roundtrip; [assumption|]. intros _.
  unfold punct_keys_zero_free. apply punct_zero_free_no_mid.
  apply (aligned_no_mid text); [assumption | apply skin_transform_aligned].
Qed.

Lemma jp_zero_free_no_class ks text k :
  forallb (fun c => negb (jp_no_zero_class c)) text = true -> jp_zero_free ks text k = true.
Proof.
  revert k. induction text as [|c s IH]; intros k H; [reflexivity|].
  cbn [forallb jp_zero_free] in *. apply andb_true_iff in H. destruct H as [Hc H].
  rewrite Hc. cbn [orb andb]. destruct (is_separator c || is_stable_jp_mark c); auto.
Qed.

Lemma jp_safe_roundtrip text password iterations salt sp :
  forallb jp_safe text = true ->
  kanashift_jp_decrypt (kanashift_jp_encrypt text password iterations salt sp)
    password iterations salt sp = text.
Proof.
  intros H. apply forallb_and in H. destruct H as [H Hm].
  apply forallb_and in H. destruct H as [Hp Hz].
  apply jp_roundtrip; [assumption | |].
  - unfold jp_keys_zero_free. now apply jp_zero_free_no_class.
  - intros _. unfold punct_keys_zero_free. apply punct_zero_free_no_mid.
    apply (aligned_no_mid text); [assumption | apply jp_transform_aligned].
Qed.

End KanaFormatProofs.

(** * KanaShift: the token-verified mode *)

Module KanaTokenProofs.
Import KanaShift KanaClasses KanaProofs KanaFormat KanaFormatProofs.

Lemma kana_check_length k mac N :
  length (make_token_check k mac N) = Z.to_nat (Z.max 1 N).
Proof. unfold make_token_check. now rewrite length_map, length_seq. Qed.

Lemma kana_check_glyph x : In x KANA_CHK -> is_token_sep x = false /\ contains fullwidth_punct x = false.
Proof. intros H. in_cases H; split; reflexivity. Qed.

Lemma kana_check_scalar k mac N x :
  In x (make_token_check k mac N) ->
  is_token_sep x = false /\ contains fullwidth_punct x = false.
Proof.
  intros Hx. unfold make_token_check in Hx. apply in_map_iff in Hx.
  destruct Hx as [i [<- _]]. destruct k.
  - split; [apply fullwidth_digit_not_token_sep | apply fullwidth_digit_not_punct];
      apply is_fullwidth_digit_mod10.
  - apply kana_check_glyph. apply index_In, Z.mod_pos_bound. reflexivity.
Qed.

Lemma kana_check_nosep k mac N : Tokens.nosep is_token_sep (make_token_check k mac N).
Proof. intros x Hx. now apply (kana_check_scalar k mac N). Qed.

(** ** The punctuation shift keeps the condition on its key bytes *)

Lemma punct_zero_free_shifted ks d s k :
  punct_zero_free ks (punct_loop ks d s k) k = punct_zero_free ks s k.
Proof.
  revert k. induction s as [|c s IH]; intros k; [reflexivity|].
  cbn [punct_loop punct_zero_free].
  destruct (_is_shift_punct c) eqn:Hc; cbn [negb punct_zero_free].
  - destruct (jp_punct_rotated_class c (Z.land (key_byte ks k) 255 * d) Hc) as [H1 H2].
    cbv zeta in H1, H2. rewrite H1, H2. cbn [negb]. now rewrite IH.
  - rewrite Hc. cbn [negb]. apply IH.
Qed.

Lemma punct_keys_zero_free_shifted s password iterations salt d :
  punct_keys_zero_free (punct_shift_apply s password iterations salt d) password iterations salt
  = punct_keys_zero_free s password iterations salt.
Proof.
  unfold punct_shift_apply. destruct s as [|c r]; [reflexivity|].
  destruct (count _is_shift_punct (c :: r) =? 0); [reflexivity|].
  unfold punct_keys_zero_free. rewrite jp_punct_loop_count. apply punct_zero_free_shifted.
Qed.

(** ** The roundtrip, for a core transform that is aligned and invertible *)

Lemma family_token_roundtrip
  plain password iterations salt N sp (core : core_transform) dom norm tagged :
  Tokens.aligned is_token_sep plain (core plain password iterations salt 1) ->
  core (core plain password iterations salt 1) password iterations salt (-1) = plain ->
  forallb (fun c => negb (contains fullwidth_punct c)) (core plain password iterations salt 1)
  = true ->
  _family_token_tagged_encrypt plain password iterations salt N sp core dom norm = Ok tagged ->
  (sp = true -> punct_keys_zero_free tagged password iterations salt = true) ->
  _family_token_tagged_decrypt tagged password iterations salt N sp core dom norm
  = mkVerified true plain.
Proof.
  intros Hal Hinv Hfw Henc Hkeys.
  unfold _family_token_tagged_encrypt, _family_token_tagged_decrypt in *.
  unfold attach_checks_to_cipher, strip_checks_from_tagged, build_plain_token_checks in *.
  set (tc := token_check password salt iterations N dom norm) in *.
  set (cipher := core plain password iterations salt 1) in *.
  destruct (attach_then_strip is_token_sep tc (Z.to_nat (Z.max 1 N))
              (fun k u => kana_check_length _ _ _) (fun k u => kana_check_nosep _ _ _)
              plain cipher N Hal eq_refl) as [out [Ha Hs]].
  destruct (attach_scalars is_token_sep tc plain cipher Hal) as [out' [Ha' Hsc]].
  rewrite Ha in Ha'. injection Ha' as <-. rewrite Ha in Henc. injection Henc as <-.
  set (y := punct_translate out 1) in *.
  assert (Hback : (if sp then punct_shift_apply
                               (if sp then punct_shift_apply y password iterations salt 1
                                else y) password iterations salt (-1)
                   else (if sp then punct_shift_apply y password iterations salt 1 else y))
                  = y).
  { destruct sp; [|reflexivity]. apply jp_punct_shift_inv.
    rewrite <- (punct_keys_zero_free_shifted y password iterations salt 1). now apply Hkeys. }
  rewrite Hback. unfold y. rewrite punct_translate_inv.
  - rewrite Hs, Hinv. apply compare_checks_same.
  - apply forallb_forall. intros x Hx. apply negb_true_iff.
    destruct (Hsc x Hx) as [Hc|[j [t Ht]]].
    + rewrite forallb_forall in Hfw. apply negb_true_iff. now apply Hfw.
    + now apply (kana_check_scalar _ _ _ x Ht).
Qed.

Lemma skin_transform_not_fullwidth_punct text password iterations salt :
  forallb (fun c => negb (contains fullwidth_punct c)) text = true ->
  forallb (fun c => negb (contains fullwidth_punct c))
    (_skin_transform text password iterations salt 1) = true.
Proof.
  intros H. unfold _skin_transform. destruct text; [reflexivity|].
  now apply skin_loop_not_fullwidth_punct.
Qed.

Lemma jp_transform_not_fullwidth_punct text password iterations salt :
  forallb (fun c => negb (contains fullwidth_punct c)) text = true ->
  forallb (fun c => negb (contains fullwidth_punct c))
    (_jp_native_transform text password iterations salt 1) = true.
Proof.
  intros H. unfold _jp_native_transform. destruct text; [reflexivity|].
  now apply jp_loop_not_fullwidth_punct.
Qed.

Lemma skin_token_roundtrip text password iterations salt N sp tagged :
  forallb skin_plain_scalar text = true ->
  kanashift_skin_token_encrypt text password iterations salt N sp = Ok tagged ->
  (sp = true -> punct_keys_zero_free tagged password iterations salt = true) ->
  kanashift_skin_token_decrypt tagged password iterations salt N sp = mkVerified true text.
Proof.
  intros Hp Henc Hkeys. apply forallb_and in Hp. destruct Hp as [Hp1 Hp2].
  unfold kanashift_skin_token_decrypt, kanashift_skin_token_encrypt in *.
  apply (family_token_roundtrip text password iterations salt N sp _skin_transform
           TOK_DOMAIN_SKIN (Some norm_token_skin) tagged); auto.
  - apply skin_transform_aligned.
  - now apply skin_transform_inv.
  - now apply skin_transform_not_fullwidth_punct.
Qed.

Lemma jp_token_roundtrip text password iterations salt N sp tagged :
  forallb jp_plain_scalar text = true ->
  jp_keys_zero_free text password iterations salt = true ->
  kanashift_jp_token_encrypt text password iterations salt N sp = Ok tagged ->
  (sp = true -> punct_keys_zero_free tagged password iterations salt = true) ->
  kanashift_jp_token_decrypt tagged password iterations salt N sp = mkVerified true text.
Proof.
  intros Hp Hz Henc Hkeys. apply forallb_and in Hp. destruct Hp as [Hp1 Hp2].
  unfold kanashift_jp_token_decrypt, kanashift_jp_token_encrypt in *.
  apply (family_token_roundtrip text password iterations salt N sp _jp_native_transform
           TOK_DOMAIN_JP (Some norm_token_identity) tagged); auto.
  - apply jp_transform_aligned.
  - now apply jp_transform_inv.
  - now apply jp_transform_not_fullwidth_punct.
Qed.

(** ** The length of a tagged text *)

Lemma family_token_length
  plain password iterations salt N sp (core : core_transform) dom norm :
  Tokens.aligned is_token_sep plain (core plain password iterations salt 1) ->
  length (core plain password iterations salt 1) = length plain ->
  exists tagged,
    _family_token_tagged_encrypt plain password iterations salt N sp core dom norm = Ok tagged
    /\ len tagged
       = len plain + Z.max 1 N * Z.of_nat (length (Shapes.tokens is_token_sep plain)).
Proof.
  intros Hal Hlen.
  unfold _family_token_tagged_encrypt, attach_checks_to_cipher, build_plain_token_checks.
  destruct (attach_length is_token_sep (token_check password salt iterations N dom norm)
              (Z.to_nat (Z.max 1 N)) (fun k u => kana_check_length _ _ _)
              plain _ Hal) as [out [-> Ho]].
  eexists. split; [reflexivity|]. unfold len.
  destruct sp; rewrite ?jp_punct_shift_length, punct_translate_length, Ho, Hlen; lia.
Qed.

End KanaTokenProofs.

(** * The other rotators *)

Module RotatorProofs.
Import KanaShift KanaClasses KanaProofs.

Lemma rotate_in_set_allow_zero_not_In A ch shift :
  ~ In ch A -> rotate_in_set_allow_zero A ch shift = ch.
Proof. intros H. unfold rotate_in_set_allow_zero. now rewrite (find_not_In A ch H). Qed.

Lemma rotate_in_set_allow_zero_back A ch shift :
  NoDup A ->
  rotate_in_set_allow_zero A (rotate_in_set_allow_zero A ch shift) (- shift) = ch.
Proof.
  intros Hnd. destruct (in_dec Z.eq_dec ch A) as [Hin|Hout].
  - now apply rotate_in_set_allow_zero_inv.
  - rewrite (rotate_in_set_allow_zero_not_In A ch shift Hout).
    now apply rotate_in_set_allow_zero_not_In.
Qed.

Lemma rotate_in_set_allow_zero_full_turn A ch m :
  In ch A -> rotate_in_set_allow_zero A ch (m * len A) = ch.
Proof.
  intros Hin. pose proof (find_In A ch Hin) as Hr. unfold rotate_in_set_allow_zero.
  destruct (Z.ltb_spec (find A ch) 0); [lia|].
  rewrite Z.mod_mul, Z.add_0_r, Z.mod_small by lia. now apply index_find.
Qed.

Lemma rotate_codepoint_range_moves c s lo hi :
  lo <= c <= hi -> lo < hi -> rotate_codepoint_range_no_zero c s lo hi <> c.
Proof.
  intros Hc Hlo. unfold rotate_codepoint_range_no_zero.
  replace ((c <? lo) || (c >? hi)) with false by lia.
  set (n := hi - lo + 1).
  destruct (effective_shift_range s n ltac:(lia)) as [-> | He].
  - destruct (Z.eq_dec c lo) as [->|Hne].
    + replace (lo - lo + -1) with (-1) by lia.
      rewrite <- (Z.mod_add _ 1), Z.mod_small by lia. lia.
    + rewrite Z.mod_small by lia. lia.
  - revert He. generalize (effective_shift s n). intros e He.
    destruct (Z.lt_ge_cases (c - lo + e) n).
    + rewrite Z.mod_small by lia. lia.
    + rewrite <- (Z.mod_add _ (-1)), Z.mod_small by lia. lia.
Qed.

Lemma rotate_codepoint_range_outside c s lo hi :
  c < lo \/ hi < c -> rotate_codepoint_range_no_zero c s lo hi = c.
Proof.
  intros H. unfold rotate_codepoint_range_no_zero.
  now replace ((c <? lo) || (c >? hi)) with true by lia.
Qed.

End RotatorProofs.

(** * The alphabets of the token checks *)

Section ChecksOfTokens.

Variable is_token_sep : Z -> bool.
Variable token_check : nat -> str -> str.
Variable P : str -> Prop.
Hypothesis every_check : forall k t, P (token_check k t).

Lemma build_loop_Forall plain : Forall P (build_loop is_token_sep token_check plain [] [] 0).
Proof.
  rewrite (build_loop_spec is_token_sep token_check plain [] [] 0 (nosep_nil is_token_sep)).
  cbn [app]. generalize (Tokens.segments is_token_sep plain) 0%nat.
  induction l as [|[t|c] q IH]; intros k; cbn [Tokens.seg_checks]; auto.
Qed.

End ChecksOfTokens.

Module CheckAlphabetProofs.
Import PhonoShift.

Lemma conset_upper x :
  In x CONSET -> contains CONSET x = true /\ is_ascii_lower x = true
                 /\ is_ascii_upper (upper x) = true /\ to_lower_ascii (upper x) = x.
Proof. intros H. in_cases H; repeat split; reflexivity. Qed.

Lemma phono_check_alphabet t k mac N :
  let chk := make_token_check t k mac N in
  match k with
  | digits => forallb is_digit chk
  | alpha =>
      if is_all_upper_ascii t
      then forallb (fun c => is_ascii_upper c && contains CONSET (to_lower_ascii c)) chk
      else forallb (contains CONSET) chk
  end = true.
Proof.
  cbv zeta. unfold make_token_check.
  destruct k; cbn [andb].
  - apply forallb_forall. intros x Hx. apply in_map_iff in Hx. destruct Hx as [i [<- _]].
    apply is_digit_mod10.
  - assert (Hin : forall b, In (index CONSET (b mod len CONSET)) CONSET)
      by (intros b; apply index_In, Z.mod_pos_bound; reflexivity).
    destruct (is_all_upper_ascii t); apply forallb_forall; intros x Hx;
      apply in_map_iff in Hx; destruct Hx as [i [<- _]];
      match goal with |- context [index CONSET (?b mod _)] =>
        destruct (conset_upper _ (Hin b)) as (H1 & H2 & H3 & H4)
      end.
    + now rewrite H3, H4, H1.
    + exact H1.
Qed.

Lemma phono_token_check_shape p s i N k t :
  let chk := token_check p s i N k t in
  length chk = Z.to_nat (Z.max 1 N)
  /\ (forallb is_digit chk = true
      \/ forallb (contains CONSET) chk = true
      \/ forallb (fun c => is_ascii_upper c && contains CONSET (to_lower_ascii c)) chk = true).
Proof.
  cbv zeta. unfold token_check. split; [apply PhonoProofs.make_token_check_length|].
  match goal with |- context [make_token_check t ?kd ?mac N] =>
    pose proof (phono_check_alphabet t kd mac N) as H; cbv zeta in H;
    destruct kd; [|destruct (is_all_upper_ascii t)]; auto
  end.
Qed.

End CheckAlphabetProofs.

(** * Lists related place by place *)

Lemma Forall2_rev {A} (R : A -> A -> Prop) l l' : Forall2 R l l' -> Forall2 R (rev l) (rev l').
Proof.
  induction 1; cbn [rev]; [constructor|]. apply Forall2_app; auto.
Qed.

Lemma Forall2_skipn {A} (R : A -> A -> Prop) n l l' :
  Forall2 R l l' -> Forall2 R (skipn n l) (skipn n l').
Proof.
  intros H. revert n. induction H; intros [|n]; cbn [skipn]; auto.
Qed.

Lemma Forall2_forallb {A} (R : A -> A -> Prop) (f : A -> bool) l l' :
  (forall a b, R a b -> f a = f b) -> Forall2 R l l' -> forallb f l = forallb f l'.
Proof. intros H. induction 1; cbn [forallb]; [reflexivity|]. erewrite H by eauto. congruence. Qed.

(** * PhonoShift: the guard against double encryption *)

Module GuardProofs.
Import PhonoShift PhonoClasses PhonoProofs CounterProofs TokenModeProofs PhonoFormat FormatProofs
  CheckAlphabetProofs.

Local Abbreviation segments := (Tokens.segments is_token_sep).
Local Abbreviation tokens := (Shapes.tokens is_token_sep).
Local Abbreviation WS := [32; 9; 13; 10].

(** ** [strip] *)

Lemma lstrip_split x chars :
  exists l, x = l ++ lstrip x chars /\ forallb (contains chars) l = true.
Proof.
  induction x as [|c r [l [E Hl]]]; [exists []; auto|]. cbn [lstrip].
  destruct (contains chars c) eqn:Hc.
  - exists (c :: l). cbn [app forallb]. rewrite Hc, Hl. split; [congruence | reflexivity].
  - exists []. auto.
Qed.

Lemma strip_split x chars :
  exists l r, x = l ++ strip x chars ++ r
              /\ forallb (contains chars) l = true /\ forallb (contains chars) r = true.
Proof.
  unfold strip. destruct (lstrip_split x chars) as [l [E Hl]].
  destruct (lstrip_split (rev (lstrip x chars)) chars) as [r [E' Hr]].
  exists l, (rev r). repeat split; [|assumption|].
  - rewrite E at 1. f_equal. rewrite <- (rev_involutive (lstrip x chars)) at 1.
    rewrite E' at 1. now rewrite rev_app_distr.
  - rewrite forallb_forall in *. intros y Hy. apply Hr. now apply in_rev.
Qed.

Lemma whitespace_is_token_sep c : contains WS c = true -> is_token_sep c = true.
Proof. intros H. apply contains_In in H. in_cases H; reflexivity. Qed.

Lemma tokens_app_separators_l l x :
  forallb (contains WS) l = true -> tokens (l ++ x) = tokens x.
Proof.
  induction l as [|c l IH]; [reflexivity|]. cbn [forallb app]. intros H.
  apply andb_true_iff in H. destruct H as [Hc H].
  rewrite (tokens_cons is_token_sep), (whitespace_is_token_sep c Hc). now apply IH.
Qed.

Lemma segments_app_separators x r :
  forallb (contains WS) r = true -> segments (x ++ r) = segments x ++ map Tokens.Sep r.
Proof.
  intros Hr. induction x as [|c x IH]; cbn [app Tokens.segments].
  - apply all_separators_segments. rewrite forallb_forall in *.
    intros y Hy. apply whitespace_is_token_sep. now apply Hr.
  - rewrite IH. destruct (is_token_sep c); [reflexivity|].
    destruct (segments x) as [|[t|s] q]; [|reflexivity..].
    destruct r; reflexivity.
Qed.

Lemma tokens_app_separators_r x r :
  forallb (contains WS) r = true -> tokens (x ++ r) = tokens x.
Proof.
  intros Hr. unfold Shapes.tokens. rewrite (segments_app_separators x r Hr).
  generalize (segments x). intros L. induction L as [|[t|c] q IH]; cbn [app Shapes.tokens_of].
  - clear. induction r; [reflexivity | assumption].
  - now rewrite IH.
  - exact IH.
Qed.

Lemma strip_tokens x : tokens (strip x WS) = tokens x.
Proof.
  destruct (strip_split x WS) as (l & r & E & Hl & Hr).
  rewrite E at 2. now rewrite (tokens_app_separators_l l _ Hl), (tokens_app_separators_r _ r Hr).
Qed.

(** ** [looks_like_kt_token_tagged], token by token *)

Lemma kt_finish_token N tok good total :
  tok <> [] ->
  kt_finish N tok good total
  = (good + (if tagged_like N tok then 1 else 0), total + 1).
Proof.
  intros Hne. unfold kt_finish, tagged_like. destruct tok as [|c r]; [congruence|].
  destruct (N <? length (c :: r))%nat; cbn [andb]; [|f_equal; lia].
  destruct (_ || _); f_equal; lia.
Qed.

Lemma kt_scan_spec N x tok good total :
  Tokens.nosep is_token_sep tok ->
  kt_scan N x tok good total
  = (good + Z.of_nat (length (filter (tagged_like N) (tokens (tok ++ x)))),
     total + Z.of_nat (length (tokens (tok ++ x)))).
Proof.
  revert tok good total. induction x as [|c x IH]; intros tok good total Hn.
  - rewrite app_nil_r. unfold Shapes.tokens.
    rewrite (segments_tok is_token_sep tok Hn). cbn [kt_scan].
    destruct tok as [|a r]; [cbn; f_equal; lia|].
    rewrite kt_finish_token by discriminate.
    cbn [Tokens.pending Shapes.tokens_of filter length].
    destruct (tagged_like N (a :: r)); cbn [length]; f_equal; lia.
  - cbn [kt_scan]. destruct (is_token_sep c) eqn:Hc.
    + unfold Shapes.tokens. rewrite (segments_pending is_token_sep tok x c Hn Hc).
      destruct tok as [|a r].
      * cbn [kt_finish Tokens.pending app Shapes.tokens_of].
        rewrite (IH [] _ _ (nosep_nil is_token_sep)). reflexivity.
      * rewrite kt_finish_token by discriminate.
        rewrite (IH [] _ _ (nosep_nil is_token_sep)).
        cbn [Tokens.pending app Shapes.tokens_of filter length].
        unfold Shapes.tokens. cbn [app].
        destruct (tagged_like N (a :: r)); cbn [length]; f_equal; lia.
    + rewrite IH by (now apply nosep_snoc). now rewrite <- app_assoc.
Qed.

Lemma looks_like_kt_all_good N x :
  2 <= Z.of_nat (length (tokens x)) ->
  forallb (tagged_like N) (tokens x) = true ->
  looks_like_kt_token_tagged N x = true.
Proof.
  intros H2 Hall. unfold looks_like_kt_token_tagged.
  rewrite (kt_scan_spec N x [] 0 0 (nosep_nil is_token_sep)). cbn [app].
  replace (filter (tagged_like N) (tokens x)) with (tokens x).
  2:{ symmetry. apply forallb_filter_id. exact Hall. }
  set (T := Z.of_nat (length (tokens x))) in *.
  replace (0 + T <? 2) with false by lia.
  replace ((0 + T) * 100 / (0 + T)) with 100 by (rewrite Z.mul_comm, Z.div_mul; lia).
  reflexivity.
Qed.

(** ** The heuristics do not see the punctuation shift *)

Lemma alike_refl c : alike c c.
Proof. repeat split. Qed.

Lemma shift_punct_alike c o :
  is_shift_punct c = true -> is_shift_punct o = true ->
  contains P_OPEN o = contains P_OPEN c -> alike c o.
Proof.
  unfold is_shift_punct. intros Hc Ho E.
  apply orb_true_iff in Hc, Ho. rewrite !contains_In in Hc, Ho.
  destruct Hc as [Hc|Hc], Ho as [Ho|Ho]; in_cases Hc; in_cases Ho;
    try discriminate; repeat split.
Qed.

Lemma lstrip_alike x x' : Forall2 alike x x' -> Forall2 alike (lstrip x WS) (lstrip x' WS).
Proof.
  induction 1 as [|a b x x' Hab H IH]; [constructor|]. cbn [lstrip].
  rewrite <- (proj1 (proj2 Hab)).
  destruct (contains WS a) eqn:Ha; [assumption|]. constructor; assumption.
Qed.

Lemma strip_alike x x' : Forall2 alike x x' -> Forall2 alike (strip x WS) (strip x' WS).
Proof. intros H. unfold strip. auto using Forall2_rev, lstrip_alike. Qed.

Lemma kt_finish_alike N tok tok' good total :
  Forall2 alike tok tok' -> kt_finish N tok good total = kt_finish N tok' good total.
Proof.
  intros H. pose proof (Forall2_length H) as Hlen. unfold kt_finish.
  destruct H as [|a b r r' Hab H]; [reflexivity|]. rewrite <- Hlen.
  assert (Hs : Forall2 alike (skipn (length (a :: r) - N) (a :: r))
                 (skipn (length (a :: r) - N) (b :: r')))
    by (apply Forall2_skipn; now constructor).
  rewrite (Forall2_forallb alike _ _ _ (fun x y (E : alike x y) => proj1 (proj2 (proj2 E))) Hs).
  rewrite (Forall2_forallb alike _ _ _ (fun x y (E : alike x y) => proj2 (proj2 (proj2 E))) Hs).
  reflexivity.
Qed.

Lemma kt_scan_alike N x x' tok tok' good total :
  Forall2 alike x x' -> Forall2 alike tok tok' ->
  kt_scan N x tok good total = kt_scan N x' tok' good total.
Proof.
  intros H. revert tok tok' good total.
  induction H as [|a b x x' Hab H IH]; intros tok tok' good total Ht; cbn [kt_scan].
  - now apply kt_finish_alike.
  - rewrite <- (proj1 Hab). rewrite (kt_finish_alike N tok tok' good total Ht).
    destruct (is_token_sep a).
    + destruct (kt_finish N tok' good total). apply IH. constructor.
    + apply IH. apply Forall2_app; [assumption | now constructor].
Qed.

Lemma looks_like_kt_alike N x x' :
  Forall2 alike x x' -> looks_like_kt_token_tagged N x' = looks_like_kt_token_tagged N x.
Proof.
  intros H. unfold looks_like_kt_token_tagged.
  now rewrite (kt_scan_alike N x x' [] [] 0 0 H (Forall2_nil _)).
Qed.

(** ** A token-tagged text looks like one *)

Lemma check_tagged_like t' t k mac N :
  t' <> [] ->
  tagged_like (Z.to_nat (Z.max 1 N)) (t' ++ make_token_check t k mac N) = true.
Proof.
  intros Hne. unfold tagged_like.
  pose proof (make_token_check_length t k mac N) as Hlen.
  rewrite length_app, Hlen.
  replace (Z.to_nat (Z.max 1 N) <? length t' + Z.to_nat (Z.max 1 N))%nat with true
    by (destruct t'; [congruence | cbn [length]; lia]).
  replace (length t' + Z.to_nat (Z.max 1 N) - Z.to_nat (Z.max 1 N))%nat with (length t') by lia.
  rewrite skipn_app, Nat.sub_diag, skipn_all, skipn_O. cbn [app andb].
  pose proof (phono_check_alphabet t k mac N) as Ha. cbv zeta in Ha.
  destruct k.
  - unfold is_digit in Ha. now rewrite Ha.
  - apply orb_true_iff. right.
    destruct (is_all_upper_ascii t); rewrite forallb_forall in *; intros x Hx;
      specialize (Ha x Hx); unfold is_consonant_ascii.
    + apply andb_true_iff in Ha. destruct Ha as [Hu Hc]. unfold is_ascii_upper in Hu.
      now rewrite Hu.
    + replace ((65 <=? x) && (x <=? 90)) with false; [exact Ha|].
      apply contains_In in Ha. in_cases Ha; reflexivity.
Qed.

Lemma token_tagged_looks_tagged name p i s N sp :
  2 <= count_tokens_simple name ->
  exists tagged,
    rot500k_token_tagged name p i s N sp = Ok tagged
    /\ looks_like_rot500k_cipher tagged N = true.
Proof.
  intros H2. rewrite count_tokens_simple_spec in H2.
  unfold rot500k_token_tagged, attach_checks_to_cipher, build_plain_token_checks.
  pose proof (fpe_transform_aligned name p i s 1) as Hal.
  set (cipher := transform_name_name_like_fpe name p i s 1) in *.
  set (tc := token_check p s i N).
  rewrite (attach_explicit is_token_sep tc name cipher Hal).
  set (L := Tokens.tag tc (segments name) (segments cipher) 0).
  set (out := Tokens.unsegments L).
  eexists. split; [reflexivity|].
  set (tagged := if sp then punct_shift_apply out p i s 1 else out).
  assert (Hrel : Forall2 alike out tagged).
  { unfold tagged. destruct sp.
    - apply latin_punct_shift_Forall2; [apply alike_refl | apply shift_punct_alike].
    - clear. induction out; constructor; auto using alike_refl. }
  pose proof (segments_same_shape is_token_sep name cipher Hal) as Hs.
  assert (Hwf : Tokens.well_formed is_token_sep L).
  { apply (tag_well_formed is_token_sep tc (Z.to_nat (Z.max 1 N))
             (fun k u => make_token_check_nosep _ _ _ _) _ _ 0 Hs).
    apply segments_well_formed. }
  assert (Htok : tokens out = Shapes.tokens_of L)
    by (unfold Shapes.tokens, out; now rewrite (segments_unsegments is_token_sep L Hwf)).
  destruct (tag_tokens tc (segments name) (segments cipher) 0 Hs) as [Hshape Hcount].
  fold L in Hshape, Hcount.
  assert (Hgood : looks_like_kt_token_tagged (Z.to_nat (Z.max 1 N)) (strip out WS) = true).
  { apply looks_like_kt_all_good; rewrite strip_tokens, Htok.
    - rewrite Hcount. exact H2.
    - apply forallb_forall. intros u Hu. rewrite Forall_forall in Hshape.
      destruct (Hshape u Hu) as (t' & j & t & -> & Hin).
      apply check_tagged_like.
      pose proof (segments_well_formed is_token_sep cipher) as Hwc.
      clear -Hin Hwc. induction (segments cipher) as [|[u|c] q IH];
        cbn [Shapes.tokens_of In Tokens.well_formed] in *; [contradiction| |tauto].
      destruct Hin as [<-|Hin]; tauto. }
  unfold looks_like_rot500k_cipher.
  assert (Hne : length (tokens (strip tagged WS)) = length (tokens out)).
  { pose proof (strip_alike out tagged Hrel) as Hst.
    assert (Hp : Shapes.same_pattern is_token_sep (strip out WS) (strip tagged WS))
      by (eapply Forall2_impl; [|exact Hst]; intros a b Hab; apply Hab).
    destruct (same_pattern_tokens is_token_sep _ _ Hp) as [_ E].
    apply (f_equal (@length nat)) in E. rewrite !length_map in E.
    rewrite strip_tokens in E. symmetry. exact E. }
  rewrite Htok, Hcount in Hne. unfold Shapes.tokens in H2.
  destruct tagged as [|c0 r0] eqn:Et.
  { cbn in Hne. lia. }
  rewrite <- Et in *.
  destruct (strip tagged WS) as [|c1 r1] eqn:Es.
  { cbn in Hne. lia. }
  rewrite <- Es.
  rewrite (looks_like_kt_alike _ _ _ (strip_alike out tagged Hrel)), Hgood.
  apply orb_true_r.
Qed.

Lemma kv_toggle name p i s N sp :
  2 <= count_tokens_simple name ->
  exists tagged,
    rot500k_token_tagged name p i s N sp = Ok tagged
    /\ rot500kv tagged p i s N sp = Ok name.
Proof.
  intros H2. destruct (token_tagged_looks_tagged name p i s N sp H2) as [tagged [He Hl]].
  exists tagged. split; [assumption|].
  destruct (token_tagged_roundtrip name p i s N sp) as [tagged' [He' Hd]].
  rewrite He in He'. injection He' as <-.
  unfold rot500kv, rot500kv_safe_decrypt. now rewrite Hl, Hd.
Qed.

End GuardProofs.

(** * KanaShift: the cedilla markers *)

Module CedillaProofs.
Import KanaShift KanaClasses KanaProofs KanaFormat KanaFormatProofs.

Lemma skin_step_cedilla ks c k : cedilla_marked c (fst (skin_step ks 1 c k)).
Proof. split; intros ->; reflexivity. Qed.

Lemma punct_encode_marker c : marker_kept c (dict_get _PUNCT_ENC_MAP c c).
Proof. split; intros ->; reflexivity. Qed.

Lemma shift_punct_marker c o : _is_shift_punct c = true -> marker_kept c o.
Proof. intros H. split; intros ->; discriminate. Qed.

Lemma skin_encrypt_cedilla text password iterations salt sp :
  Forall2 cedilla_marked text (kanashift_skin_encrypt text password iterations salt sp).
Proof.
  unfold kanashift_skin_encrypt.
  pose proof (skin_transform_Forall2 cedilla_marked text password iterations salt 1
                (fun ks c k => skin_step_cedilla ks c k)) as H1.
  set (r := _skin_transform text password iterations salt 1) in *.
  pose proof (punct_translate_Forall2 marker_kept r 1 punct_encode_marker) as H2.
  assert (Hc : forall a b c, cedilla_marked a b -> marker_kept b c -> cedilla_marked a c)
    by (intros a b c [A1 A2] [B1 B2]; split; auto).
  pose proof (Forall2_trans_with _ _ _ _ _ _ Hc H1 H2) as H12.
  destruct sp; [|exact H12].
  eapply Forall2_trans_with; [exact Hc | exact H12 |].
  apply jp_punct_shift_Forall2.
  - intros c. split; auto.
  - intros c o Hco _ _. now apply shift_punct_marker.
Qed.

End CedillaProofs.

(** * The keystream outlasts the text *)

Lemma next_kpos_no_wrap password salt iterations (n : Z) (k : nat) :
  (Z.of_nat k < n)%Z ->
  next_kpos (keystream password salt iterations (n + 64)) k = S k.
Proof.
  intros H. unfold next_kpos. rewrite keystream_length.
  destruct (Nat.leb_spec (Z.to_nat (Z.max 32 (n + 64))) (S k)); [lia | reflexivity].
Qed.

Module CursorProofs.
Import PhonoShift PhonoClasses PhonoProofs PhonoFormat.

Lemma fpe_step_cursor ks d c k :
  snd (fpe_step ks d c k) = if is_separator c then k else next_kpos ks k.
Proof.
  destruct (phono_classify c) as [H|H|A HA H|A x HA Hx ->|H].
  - now rewrite (fpe_step_separator c ks d k H), H.
  - rewrite (fpe_step_digit c ks d k H). cbn [snd].
    replace (is_separator c) with false; [reflexivity|].
    unfold is_digit in H. unfold is_separator. lia.
  - rewrite (fpe_step_lower A c ks d k HA H). cbn [snd].
    replace (is_separator c) with false; [reflexivity|].
    clear -HA H. in_cases HA; in_cases H; reflexivity.
  - rewrite (fpe_step_upper A x ks d k HA Hx). cbn [snd].
    replace (is_separator (to_upper_ascii x)) with false; [reflexivity|].
    clear -HA Hx. in_cases HA; in_cases Hx; reflexivity.
  - rewrite H. cbn [snd]. destruct (is_separator c) eqn:Hs; [|reflexivity].
    pose proof (H [0; 0; 0] 1 0%nat) as H0.
    rewrite (fpe_step_separator c _ _ _ Hs) in H0. injection H0 as E.
    vm_compute in E. discriminate.
Qed.

Lemma cursor_after_no_wrap ks d s k :
  (k + length s < length ks)%nat ->
  Z.of_nat (cursor_after ks d s k)
  = Z.of_nat k + count (fun c => negb (is_separator c)) s.
Proof.
  unfold cursor_after. revert k. induction s as [|c s IH]; intros k H; cbn [fold_left count].
  - lia.
  - cbn [length] in H. rewrite fpe_step_cursor. destruct (is_separator c); cbn [negb].
    + rewrite IH by lia. lia.
    + unfold next_kpos. destruct (Nat.leb_spec (length ks) (S k)); [lia|].
      rewrite IH by lia. lia.
Qed.

End CursorProofs.

(** * KanaShift: what the decoders never give back *)

Module DecoderRangeProofs.
Import KanaShift KanaClasses KanaProofs KanaFormat KanaFormatProofs.

Lemma punct_decode_not_fullwidth c :
  contains fullwidth_punct (dict_get _PUNCT_DEC_MAP c c) = false.
Proof.
  destruct (in_dec Z.eq_dec c (map fst _PUNCT_DEC_MAP)) as [Hin|Hout].
  - in_cases Hin; reflexivity.
  - rewrite (dict_get_miss _ c c Hout). apply contains_false. exact Hout.
Qed.

Lemma Forall2_Forall_right {A} (P : A -> Prop) (Q : A -> Prop) (R : A -> A -> Prop) l l' :
  (forall a b, R a b -> P a -> Q b) -> Forall2 R l l' -> Forall P l -> Forall Q l'.
Proof.
  intros H H2. induction H2; intros HP; inversion HP; subst; constructor; eauto.
Qed.

Lemma decoded_punct_Forall s password iterations salt sp :
  Forall (fun b => contains fullwidth_punct b = false)
    (punct_translate
       (if sp : bool then punct_shift_apply s password iterations salt (-1) else s) (-1)).
Proof.
  eapply (Forall2_right (fun _ b => contains fullwidth_punct b = false)); [auto|].
  apply punct_translate_Forall2. intros c. apply punct_decode_not_fullwidth.
Qed.

Lemma skin_cipher_cases c :
  skin_cipher_scalar c = true ->
  is_fullwidth_digit c = true
  \/ (exists P C, In (P, C) skin_pairs /\ In c C)
  \/ c = C_CED_LO \/ c = C_CED_UP.
Proof.
  unfold skin_cipher_scalar. intros H.
  destruct (is_fullwidth_digit c); [now left|].
  destruct (contains C_VOW_LO c) eqn:E1.
  { right; left. exists P_VOW_LO, C_VOW_LO. split; [in_classes | now apply contains_In]. }
  destruct (contains C_CON_LO c) eqn:E2.
  { right; left. exists P_CON_LO, C_CON_LO. split; [in_classes | now apply contains_In]. }
  destruct (contains C_VOW_UP c) eqn:E3.
  { right; left. exists P_VOW_UP, C_VOW_UP. split; [in_classes | now apply contains_In]. }
  destruct (contains C_CON_UP c) eqn:E4.
  { right; left. exists P_CON_UP, C_CON_UP. split; [in_classes | now apply contains_In]. }
  destruct (contains C_ACC_LO c) eqn:E5.
  { right; left. exists P_VOW_LO_PT, C_ACC_LO. split; [in_classes | now apply contains_In]. }
  destruct (contains C_ACC_UP c) eqn:E6.
  { right; left. exists P_VOW_UP_PT, C_ACC_UP. split; [in_classes | now apply contains_In]. }
  cbn [orb] in H. right; right. lia.
Qed.

Lemma skin_plain_letter P C x : In (P, C) skin_pairs -> In x P -> skin_plain_scalar x = true.
Proof. intros HP Hx. pair_cases HP; in_cases Hx; reflexivity. Qed.

(** The scalar the skin loop body emits when decoding is never one the
    decoder reads as a glyph, and is outside the fullwidth punctuation table
    whenever the input is. *)
Lemma skin_step_decoded_plain ks c k :
  contains fullwidth_punct c = false ->
  skin_plain_scalar (fst (skin_step ks (-1) c k)) = true.
Proof.
  intros Hp. destruct (is_separator c) eqn:Hs.
  { rewrite (skin_step_separator c ks (-1) k Hs). cbn [fst].
    assert (Hc : c = 32 \/ c = 45 \/ c = 39) by (unfold is_separator in Hs; lia).
    destruct Hc as [-> | [-> | ->]]; reflexivity. }
  rewrite (skin_step_decode c ks k Hs).
  destruct (is_digit c || is_fullwidth_digit c) eqn:Hd; cbn [fst].
  { match goal with |- skin_plain_scalar (48 + ?x mod 10) = true =>
      pose proof (Z.mod_pos_bound x 10 ltac:(lia)) as Hb;
      remember (48 + x mod 10) as o eqn:Eo
    end.
    assert (Hr : 48 <= o <= 57) by lia. clear -Hr.
    apply (range_In 48 57) in Hr. in_cases Hr; reflexivity. }
  apply orb_false_elim in Hd. destruct Hd as [_ Hfw].
  destruct (skin_cipher_scalar c) eqn:Hc.
  - apply skin_cipher_cases in Hc.
    destruct Hc as [Hc | [(P & C & HP & Hin) | [-> | ->]]]; [congruence| |reflexivity..].
    rewrite (skin_decode_letter_pair P C c _ HP Hin).
    destruct (skin_pairs_facts P C HP) as (_ & _ & Hlen).
    apply (skin_plain_letter P C _ HP). apply index_In.
    apply Z.mod_pos_bound. lia.
  - rewrite (skin_decode_letter_plain c _ Hc). unfold skin_plain_scalar.
    now rewrite Hc, Hp.
Qed.

Lemma skin_decrypt_plain s password iterations salt sp :
  forallb skin_plain_scalar (kanashift_skin_decrypt s password iterations salt sp) = true.
Proof.
  unfold kanashift_skin_decrypt.
  pose proof (decoded_punct_Forall s password iterations salt sp) as H1.
  set (r := punct_translate _ (-1)) in *. clearbody r.
  pose proof (skin_transform_Forall2
                (fun a b => contains fullwidth_punct a = false -> skin_plain_scalar b = true)
                r password iterations salt (-1)
                (fun ks c k => skin_step_decoded_plain ks c k)) as H2.
  apply forallb_forall. apply Forall_forall.
  revert H2 H1. apply Forall2_Forall_right. auto.
Qed.

(** The same for the JP-native loop body: no fullwidth digit comes out of
    the decoding direction. *)
Lemma jp_step_decoded_digit ks c k : is_fullwidth_digit (fst (jp_step ks (-1) c k)) = false.
Proof.
  destruct (jp_classify c) as [H|A HA H|A x HA Hx ->|H|H|H|H|H|Hn H].
  - rewrite (jp_step_skip c ks (-1) k H). cbn [fst]. unfold_preds. lia.
  - rewrite (jp_step_lower A c ks (-1) k HA H). cbn [fst].
    pose proof (rotate_in_set_allow_zero_In A c (Z.land (key_byte ks k) 255 * -1) H) as Ho.
    remember (rotate_in_set_allow_zero A c (Z.land (key_byte ks k) 255 * -1)) as o eqn:Eo.
    clear -HA Ho. in_cases HA; in_cases Ho; reflexivity.
  - rewrite (jp_step_upper A x ks (-1) k HA Hx). cbn [fst].
    pose proof (rotate_in_set_allow_zero_In A x (Z.land (key_byte ks k) 255 * -1) Hx) as Ho.
    remember (rotate_in_set_allow_zero A x (Z.land (key_byte ks k) 255 * -1)) as o eqn:Eo.
    clear -HA Ho. in_cases HA; in_cases Ho; reflexivity.
  - rewrite (jp_step_decode_digit c ks k H). cbn [fst].
    match goal with |- is_fullwidth_digit (48 + ?x mod 10) = false =>
      pose proof (Z.mod_pos_bound x 10 ltac:(lia)) end.
    unfold is_fullwidth_digit. lia.
  - rewrite (jp_step_decode_fullwidth_digit c ks k H). cbn [fst].
    match goal with |- is_fullwidth_digit (48 + ?x mod 10) = false =>
      pose proof (Z.mod_pos_bound x 10 ltac:(lia)) end.
    unfold is_fullwidth_digit. lia.
  - assert (Hc : is_hiragana c || is_katakana c || is_kanji c = true)
      by (apply kana_kanji_of_class; auto).
    rewrite (jp_step_kana_kanji c ks (-1) k Hc). cbn [fst].
    pose proof (jp_rotated_class c (Z.land (key_byte ks k) 255 * -1) Hc). unfold_preds. lia.
  - assert (Hc : is_hiragana c || is_katakana c || is_kanji c = true)
      by (apply kana_kanji_of_class; auto).
    rewrite (jp_step_kana_kanji c ks (-1) k Hc). cbn [fst].
    pose proof (jp_rotated_class c (Z.land (key_byte ks k) 255 * -1) Hc). unfold_preds. lia.
  - assert (Hc : is_hiragana c || is_katakana c || is_kanji c = true)
      by (apply kana_kanji_of_class; auto).
    rewrite (jp_step_kana_kanji c ks (-1) k Hc). cbn [fst].
    pose proof (jp_rotated_class c (Z.land (key_byte ks k) 255 * -1) Hc). unfold_preds. lia.
  - rewrite H. cbn [fst]. unfold jp_no_zero_class in Hn. lia.
Qed.

Lemma jp_step_decoded_plain ks c k :
  contains fullwidth_punct c = false ->
  jp_plain_scalar (fst (jp_step ks (-1) c k)) = true.
Proof.
  intros Hp. unfold jp_plain_scalar. rewrite jp_step_decoded_digit.
  destruct (jp_step_output ks (-1) c k (or_intror eq_refl)) as (_ & Ho & _).
  now rewrite (Ho Hp).
Qed.

Lemma jp_decrypt_plain s password iterations salt sp :
  forallb jp_plain_scalar (kanashift_jp_decrypt s password iterations salt sp) = true.
Proof.
  unfold kanashift_jp_decrypt.
  pose proof (decoded_punct_Forall s password iterations salt sp) as H1.
  set (r := punct_translate _ (-1)) in *. clearbody r.
  pose proof (jp_transform_Forall2
                (fun a b => contains fullwidth_punct a = false -> jp_plain_scalar b = true)
                r password iterations salt (-1)
                (fun ks c k => jp_step_decoded_plain ks c k)) as H2.
  apply forallb_forall. apply Forall_forall.
  revert H2 H1. apply Forall2_Forall_right. auto.
Qed.

End DecoderRangeProofs.

(* ================================================================== *)
(** * The properties of the specification *)
(* ================================================================== *)

(** C1. PhonoShift base-mode roundtrip: for every text, password, salt,
    iteration count and shift_punct flag, [rot500k_decrypt] undoes
    [rot500k_encrypt]; in particular on "Vamos lá!" with password "pw",
    1000 iterations and salt "NameFPE:v1". *)
Theorem rot500k_roundtrip :
  (forall (text password salt : str) (iterations : Z) (shift_punct : bool),
      PhonoShift.rot500k_decrypt
        (PhonoShift.rot500k_encrypt text password iterations salt shift_punct)
        password iterations salt shift_punct = text)
  /\ PhonoShift.rot500k_decrypt
       (PhonoShift.rot500k_encrypt (lit "Vamos lá!") (lit "pw") 1000 (lit "NameFPE:v1") true)
       (lit "pw") 1000 (lit "NameFPE:v1") true = lit "Vamos lá!".
Proof.
  split; [intros text password salt iterations shift_punct|];
    apply PhonoProofs.phono_roundtrip.
Qed.

(** C2, as the specification states it, fails: decoding the encryption of
    "完了。" never gives "完了。" back, because [punct_translate] with direction
    -1 turns the ideographic full stop into an ASCII full stop. *)
Lemma kanashift_jp_roundtrip_counterexample :
  KanaShift.kanashift_jp_decrypt
    (KanaShift.kanashift_jp_encrypt (lit "完了。") (lit "pw") 1000 (lit "NameFPE:v1") true)
    (lit "pw") 1000 (lit "NameFPE:v1") true <> lit "完了。".
Proof.
  intros E.
  apply (KanaProofs.jp_decrypt_no_full_stop
           (KanaShift.kanashift_jp_encrypt (lit "完了。") (lit "pw") 1000 (lit "NameFPE:v1") true)
           (lit "pw") 1000 (lit "NameFPE:v1") true).
  rewrite E. apply contains_In. reflexivity.
Qed.

(** C2, amended. JP-native base-mode roundtrip: for every text without
    fullwidth digits and without scalars of the fullwidth punctuation
    column, [kanashift_jp_decrypt] undoes [kanashift_jp_encrypt], provided
    no digit, kana or kanji meets a zero keystream byte in the core
    transform and (with shift_punct) no scalar of [P_MID] meets one in the
    punctuation shift. *)
Theorem kanashift_jp_roundtrip :
  forall (text password salt : str) (iterations : Z) (shift_punct : bool),
    forallb KanaClasses.jp_plain_scalar text = true ->
    KanaClasses.jp_keys_zero_free text password iterations salt = true ->
    (shift_punct = true ->
     KanaClasses.punct_keys_zero_free
       (KanaShift.punct_translate
          (KanaShift._jp_native_transform text password iterations salt 1) 1)
       password iterations salt = true) ->
    KanaShift.kanashift_jp_decrypt
      (KanaShift.kanashift_jp_encrypt text password iterations salt shift_punct)
      password iterations salt shift_punct = text.
Proof. intros. now apply KanaProofs.jp_roundtrip. Qed.

Lemma kanashift_jp_roundtrip_witness :
  forallb KanaClasses.jp_plain_scalar Examples.jp_text = true
  /\ KanaClasses.jp_keys_zero_free Examples.jp_text Examples.pw 1 Examples.salt = true
  /\ KanaShift.kanashift_jp_decrypt
       (KanaShift.kanashift_jp_encrypt Examples.jp_text Examples.pw 1 Examples.salt true)
       Examples.pw 1 Examples.salt true = Examples.jp_text.
Proof.
  split; [vm_compute; reflexivity|]. split; [vm_compute; reflexivity|].
  apply kanashift_jp_roundtrip; [| |intros _]; vm_compute; reflexivity.
Defined.

(** C3, as the specification states it, fails: a plaintext that is itself a
    glyph of a cipher alphabet is decoded as if it had been encoded. *)
Lemma kanashift_skin_roundtrip_counterexample :
  KanaShift.kanashift_skin_decrypt
    (KanaShift.kanashift_skin_encrypt (lit "あ") (lit "pw") 1 (lit "NameFPE:v1") true)
    (lit "pw") 1 (lit "NameFPE:v1") true <> lit "あ".
Proof. vm_compute. discriminate. Qed.

(** C3, amended. Kana-skin base-mode roundtrip: for every text that has no
    scalar the decoder reads as a cipher glyph (fullwidth digit, scalar of a
    kana cipher alphabet, cedilla marker) and none of the fullwidth
    punctuation column, [kanashift_skin_decrypt] undoes
    [kanashift_skin_encrypt], provided (with shift_punct) no scalar of
    [P_MID] meets a zero keystream byte in the punctuation shift. *)
Theorem kanashift_skin_roundtrip :
  forall (text password salt : str) (iterations : Z) (shift_punct : bool),
    forallb KanaClasses.skin_plain_scalar text = true ->
    (shift_punct = true ->
     KanaClasses.punct_keys_zero_free
       (KanaShift.punct_translate
          (KanaShift._skin_transform text password iterations salt 1) 1)
       password iterations salt = true) ->
    KanaShift.kanashift_skin_decrypt
      (KanaShift.kanashift_skin_encrypt text password iterations salt shift_punct)
      password iterations salt shift_punct = text.
Proof. intros. now apply KanaProofs.skin_roundtrip. Qed.

Lemma kanashift_skin_roundtrip_witness :
  forallb KanaClasses.skin_plain_scalar Examples.skin_text = true
  /\ KanaShift.kanashift_skin_decrypt
       (KanaShift.kanashift_skin_encrypt Examples.skin_text Examples.pw 1 Examples.salt true)
       Examples.pw 1 Examples.salt true = Examples.skin_text.
Proof.
  split; [vm_compute; reflexivity|].
  apply kanashift_skin_roundtrip; [|intros _]; vm_compute; reflexivity.
Defined.

(** C4. KT verified roundtrip (PhonoShift): for every plaintext, password,
    salt, iteration count, check length and shift_punct flag, the encoder
    returns a tagged text that the decoder accepts with (ok = true,
    value = plaintext); in particular on "hello world" with password "pw",
    1000 iterations, salt "NameFPE:v1" and check length 2. *)
Theorem rot500k_token_tagged_roundtrip :
  (forall (t p s : str) (i N : Z) (shift_punct : bool),
      exists tagged,
        PhonoShift.rot500k_token_tagged t p i s N shift_punct = Ok tagged
        /\ PhonoShift.rot500k_token_tagged_decrypt tagged p i s N shift_punct
           = mkVerified true t)
  /\ exists tagged,
       PhonoShift.rot500k_token_tagged (lit "hello world") (lit "pw") 1000 (lit "NameFPE:v1")
         2 true = Ok tagged
       /\ PhonoShift.rot500k_token_tagged_decrypt tagged (lit "pw") 1000 (lit "NameFPE:v1")
            2 true = mkVerified true (lit "hello world").
Proof.
  split; [intros t p s i N shift_punct|]; apply PhonoProofs.token_tagged_roundtrip.
Qed.

(** C5, as the specification states it, fails at shift 0: the no-zero rule
    moves by +1 in both directions. *)
Lemma no_zero_rotation_counterexample :
  rotate_in_set_no_zero (lit "abc") (rotate_in_set_no_zero (lit "abc") 97 0) (- 0) <> 97
  /\ (effective_shift 0 3 + effective_shift (- 0) 3) mod 3 <> 0.
Proof. split; vm_compute; discriminate. Qed.

(** C5, amended. No-zero rotation is inverted by negating the shift when the
    shift is not zero: for every alphabet of pairwise-distinct scalars with
    at least two of them, every scalar of it and every nonzero shift,
    rotating by the shift and then by its negation gives the scalar back;
    and for every n >= 2 and nonzero shift the two effective shifts add up
    to 0 modulo n. *)
Theorem no_zero_rotation_inverse :
  forall (A : str) (ch shift n : Z),
    NoDup A -> 2 <= len A -> In ch A -> 2 <= n -> shift <> 0 ->
    rotate_in_set_no_zero A (rotate_in_set_no_zero A ch shift) (- shift) = ch
    /\ (effective_shift shift n + effective_shift (- shift) n) mod n = 0.
Proof.
  intros A ch shift n Hnd _ _ Hn Hs. split.
  - now apply rotate_in_set_no_zero_inv.
  - apply effective_shift_opp; auto.
Qed.

Lemma no_zero_rotation_inverse_witness :
  NoDup PhonoShift.VOW_LO /\ 2 <= len PhonoShift.VOW_LO /\ In 97 PhonoShift.VOW_LO
  /\ rotate_in_set_no_zero PhonoShift.VOW_LO
       (rotate_in_set_no_zero PhonoShift.VOW_LO 97 5) (- (5)) = 97
  /\ (effective_shift 5 5 + effective_shift (- (5)) 5) mod 5 = 0.
Proof.
  assert (Hnd : NoDup PhonoShift.VOW_LO) by (apply distinct_NoDup; reflexivity).
  assert (Hlen : 2 <= len PhonoShift.VOW_LO) by (vm_compute; discriminate).
  assert (Hin : In 97 PhonoShift.VOW_LO) by (apply contains_In; reflexivity).
  split; [exact Hnd|]. split; [exact Hlen|]. split; [exact Hin|].
  apply (no_zero_rotation_inverse PhonoShift.VOW_LO 97 5 5 Hnd Hlen Hin); lia.
Defined.

(** C6 compares the cardinalities of the skin family's paired alphabets.
    In the code the Portuguese accented vowel alphabets have 22 scalars
    each and the kana alphabets paired with them 24; the other four pairs
    have equal sizes. Two glyphs of [C_ACC_LO] are therefore decoded like
    two others. *)
Theorem accented_alphabet_cardinalities :
  length KanaShift.P_VOW_LO_PT = 22%nat /\ length KanaShift.P_VOW_UP_PT = 22%nat
  /\ length KanaShift.C_ACC_LO = 24%nat /\ length KanaShift.C_ACC_UP = 24%nat
  /\ length PhonoShift.VOW_LO_PT = 22%nat /\ length PhonoShift.VOW_UP_PT = 22%nat
  /\ Forall (fun PC => length (fst PC) = length (snd PC))
       (firstn 4 KanaClasses.skin_pairs)
  /\ forall s, KanaShift.skin_decode_letter 12436 s = KanaShift.skin_decode_letter 12363 s.
Proof.
  do 6 (split; [reflexivity|]). split; [repeat constructor|].
  intros s.
  rewrite !(KanaProofs.skin_decode_letter_pair KanaShift.P_VOW_LO_PT KanaShift.C_ACC_LO)
    by (first [in_classes | in_list]).
  f_equal. change (find KanaShift.C_ACC_LO 12436) with 22.
  change (find KanaShift.C_ACC_LO 12363) with 0. change (len KanaShift.P_VOW_LO_PT) with 22.
  Z.div_mod_to_equations. lia.
Qed.

(** C7, as the specification states it, fails in each family: an unsupported
    scalar in front changes the keystream byte applied to the next scalar. *)
Lemma unsupported_scalar_counterexample :
  PhonoShift.transform_name_name_like_fpe (lit "@b") Examples.pw 1 Examples.salt 1
    <> 64 :: PhonoShift.transform_name_name_like_fpe (lit "b") Examples.pw 1 Examples.salt 1
  /\ KanaShift._skin_transform (lit "@b") Examples.pw 1 Examples.salt 1
    <> 64 :: KanaShift._skin_transform (lit "b") Examples.pw 1 Examples.salt 1
  /\ KanaShift._jp_native_transform (lit "@b") Examples.pw 1 Examples.salt 1
    <> 64 :: KanaShift._jp_native_transform (lit "b") Examples.pw 1 Examples.salt 1.
Proof. repeat split; vm_compute; discriminate. Qed.

(** C7, amended. In each family's core transform a scalar of no recognized
    alphabet is emitted unchanged and, like every scalar that is not a
    separator (or a stable mark), takes one keystream byte: the rest of the
    input is transformed from the advanced cursor. *)
Theorem unsupported_scalar_advances_cursor :
  forall (ks : bytes) (d c : Z) (rest : str) (kpos : nat),
    (PhonoClasses.recognized c = false ->
     PhonoShift.fpe_loop ks d (c :: rest) kpos
     = c :: PhonoShift.fpe_loop ks d rest (next_kpos ks kpos))
    /\ (KanaClasses.skin_recognized c = false ->
        KanaShift.skin_loop ks d (c :: rest) kpos
        = c :: KanaShift.skin_loop ks d rest (next_kpos ks kpos))
    /\ (KanaClasses.jp_recognized c = false ->
        KanaShift.jp_loop ks d (c :: rest) kpos
        = c :: KanaShift.jp_loop ks d rest (next_kpos ks kpos)).
Proof.
  intros ks d c rest kpos. repeat split; intros H.
  - cbn [PhonoShift.fpe_loop]. now rewrite (phono_unrecognized_step c ks d kpos H).
  - cbn [KanaShift.skin_loop]. now rewrite (skin_unrecognized_step c ks d kpos H).
  - cbn [KanaShift.jp_loop]. now rewrite (jp_unrecognized_step c ks d kpos H).
Qed.

Lemma unsupported_scalar_advances_cursor_witness :
  PhonoClasses.recognized 64 = false
  /\ PhonoShift.fpe_loop (keystream Examples.pw Examples.salt 1 66) 1 (lit "@b") 0
     = 64 :: PhonoShift.fpe_loop (keystream Examples.pw Examples.salt 1 66) 1 (lit "b") 1.
Proof.
  split; [reflexivity|].
  exact (proj1 (unsupported_scalar_advances_cursor
                  (keystream Examples.pw Examples.salt 1 66) 1 64 [98] 0) eq_refl).
Defined.

(** C8. Length invariance of the base modes: the outputs of
    [rot500k_encrypt], [kanashift_skin_encrypt] and [kanashift_jp_encrypt]
    have as many scalars as the input text. *)
Theorem base_modes_preserve_length :
  forall (text password salt : str) (iterations : Z) (shift_punct : bool),
    length (PhonoShift.rot500k_encrypt text password iterations salt shift_punct)
    = length text
    /\ length (KanaShift.kanashift_skin_encrypt text password iterations salt shift_punct)
       = length text
    /\ length (KanaShift.kanashift_jp_encrypt text password iterations salt shift_punct)
       = length text.
Proof.
  intros text password salt iterations shift_punct.
  unfold PhonoShift.rot500k_encrypt, KanaShift.kanashift_skin_encrypt,
    KanaShift.kanashift_jp_encrypt.
  destruct shift_punct;
    rewrite ?PhonoProofs.latin_punct_shift_length, ?KanaProofs.jp_punct_shift_length,
      ?KanaProofs.punct_translate_length, PhonoProofs.fpe_transform_length,
      KanaProofs.skin_transform_length, KanaProofs.jp_transform_length;
    auto.
Qed.

(** C9. Verified decoders are empty on failure: whenever [ok] is false the
    [value] of the result is the empty string, for each of the five
    verified decoders. *)
Theorem verified_decoders_empty_on_failure :
  forall (tagged password salt : str) (iterations check_chars : Z) (shift_punct : bool),
    empty_on_failure
      (PhonoShift.rot500k_token_tagged_decrypt tagged password iterations salt check_chars
         shift_punct)
    /\ empty_on_failure
         (PhonoShift.rot500k_prefix_tagged_decrypt tagged password iterations salt shift_punct)
    /\ empty_on_failure
         (PhonoShift.rot500kv_decrypt tagged password iterations salt check_chars shift_punct)
    /\ empty_on_failure
         (KanaShift.kanashift_skin_token_decrypt tagged password iterations salt check_chars
            shift_punct)
    /\ empty_on_failure
         (KanaShift.kanashift_jp_token_decrypt tagged password iterations salt check_chars
            shift_punct).
Proof.
  intros. repeat split.
  - apply kt_empty_on_failure.
  - apply kp_empty_on_failure.
  - apply kv_empty_on_failure.
  - unfold KanaShift.kanashift_skin_token_decrypt. apply family_empty_on_failure.
  - unfold KanaShift.kanashift_jp_token_decrypt. apply family_empty_on_failure.
Qed.

Lemma verified_decoders_empty_on_failure_witness :
  ok (PhonoShift.rot500kv_decrypt (lit "x") Examples.pw 1 Examples.salt 1 true) = false
  /\ value (PhonoShift.rot500kv_decrypt (lit "x") Examples.pw 1 Examples.salt 1 true) = [].
Proof.
  split; [vm_compute; reflexivity|].
  apply (proj1 (proj2 (proj2 (verified_decoders_empty_on_failure
                                (lit "x") Examples.pw Examples.salt 1 1 true)))).
  vm_compute. reflexivity.
Defined.

(** C10. KT encoding never raises: [rot500k_token_tagged],
    [kanashift_skin_token_encrypt] and [kanashift_jp_token_encrypt] always
    return a tagged text, because each core transform keeps token
    separators in place and maps every other scalar to a scalar that is not
    a token separator; neither [ValueError] of [attach_checks_to_cipher] is
    reached. *)
Theorem token_encoders_never_raise :
  forall (plain password salt : str) (iterations check_chars : Z) (shift_punct : bool),
    (exists out,
        PhonoShift.rot500k_token_tagged plain password iterations salt check_chars
          shift_punct = Ok out)
    /\ (exists out,
           KanaShift.kanashift_skin_token_encrypt plain password iterations salt check_chars
             shift_punct = Ok out)
    /\ (exists out,
           KanaShift.kanashift_jp_token_encrypt plain password iterations salt check_chars
             shift_punct = Ok out).
Proof.
  intros. repeat split.
  - apply PhonoProofs.token_tagged_never_raises.
  - unfold KanaShift.kanashift_skin_token_encrypt.
    apply (KanaProofs.family_token_tagged_never_raises plain password iterations salt
             check_chars shift_punct KanaShift._skin_transform).
    apply KanaProofs.skin_transform_aligned.
  - unfold KanaShift.kanashift_jp_token_encrypt.
    apply (KanaProofs.family_token_tagged_never_raises plain password iterations salt
             check_chars shift_punct KanaShift._jp_native_transform).
    apply KanaProofs.jp_transform_aligned.
Qed.

(* ================================================================== *)
(** * Further properties of the code *)
(* ================================================================== *)

(** ** PhonoShift: the prefix-verified mode (ROT500KP) *)

(** X1. KP roundtrip: for every non-empty name and every password, salt,
    iteration count and flag, [rot500k_prefix_tagged_decrypt] accepts the
    output of [rot500k_prefix_tagged] and returns the name. *)
Theorem rot500k_prefix_tagged_roundtrip :
  forall (name password salt : str) (iterations : Z) (shift_punct : bool),
    name <> [] ->
    PhonoShift.rot500k_prefix_tagged_decrypt
      (PhonoShift.rot500k_prefix_tagged name password iterations salt shift_punct)
      password iterations salt shift_punct
    = mkVerified true name.
Proof.
  intros name password salt iterations sp Hne.
  rewrite PrefixModeProofs.kp_roundtrip. destruct name; [congruence | reflexivity].
Qed.

Lemma rot500k_prefix_tagged_roundtrip_witness :
  lit "Ana" <> []
  /\ PhonoShift.rot500k_prefix_tagged_decrypt
       (PhonoShift.rot500k_prefix_tagged (lit "Ana") Examples.pw 1000 Examples.salt true)
       Examples.pw 1000 Examples.salt true
     = mkVerified true (lit "Ana").
Proof.
  split; [discriminate|]. apply rot500k_prefix_tagged_roundtrip. discriminate.
Defined.

(** X2. KP on the empty name: [rot500k_prefix_tagged_decrypt] rejects what
    [rot500k_prefix_tagged] returns for the empty name, under the same key
    (the output is the bare prefix, and [split_tagged_prefix] finds no
    cipher text after the mark). *)
Theorem rot500k_prefix_tagged_empty_name :
  forall (password salt : str) (iterations : Z) (shift_punct : bool),
    PhonoShift.rot500k_prefix_tagged_decrypt
      (PhonoShift.rot500k_prefix_tagged [] password iterations salt shift_punct)
      password iterations salt shift_punct
    = mkVerified false [].
Proof. intros. now rewrite PrefixModeProofs.kp_roundtrip. Qed.

(** X3. The length of a prefix-tagged text: the prefix is two words of six
    letters, a space between them, a mark and a space, so the output has 15
    scalars more than the name. *)
Theorem rot500k_prefix_tagged_length :
  forall (name password salt : str) (iterations : Z) (shift_punct : bool),
    len (PhonoShift.rot500k_prefix_tagged name password iterations salt shift_punct)
    = len name + 15.
Proof. intros. apply PrefixModeProofs.kp_length. Qed.

(** ** PhonoShift: the token layer (ROT500KT) *)

(** X4. The length of a token-tagged text: [rot500k_token_tagged] adds
    [max(1, check_chars_per_token)] scalars for each token that
    [count_tokens_simple] counts in the name. *)
Theorem rot500k_token_tagged_length :
  forall (name password salt : str) (iterations N : Z) (shift_punct : bool),
  exists tagged,
    PhonoShift.rot500k_token_tagged name password iterations salt N shift_punct = Ok tagged
    /\ len tagged = len name + Z.max 1 N * PhonoShift.count_tokens_simple name.
Proof. intros. apply TokenModeProofs.token_tagged_length. Qed.

(** X5. [attach_checks_to_cipher] returns a text exactly when there are as
    many checks as tokens; with fewer checks it raises "token/check count
    mismatch", with more it raises "unused checks remain". *)
Theorem attach_checks_to_cipher_outcomes :
  forall (cipher : str) (checks : list str),
    (PhonoShift.count_tokens_simple cipher = Z.of_nat (length checks) ->
     exists out, PhonoShift.attach_checks_to_cipher cipher checks = Ok out)
    /\ (Z.of_nat (length checks) < PhonoShift.count_tokens_simple cipher ->
        PhonoShift.attach_checks_to_cipher cipher checks = Raise TokenCheckCountMismatch)
    /\ (PhonoShift.count_tokens_simple cipher < Z.of_nat (length checks) ->
        PhonoShift.attach_checks_to_cipher cipher checks = Raise UnusedChecksRemain).
Proof.
  intros cipher checks. rewrite CounterProofs.count_tokens_simple_spec.
  destruct (attach_outcomes PhonoShift.is_token_sep cipher checks) as (H1 & H2 & H3).
  repeat split; intros H; [apply H1 | apply H2 | apply H3]; lia.
Qed.

(** X6. Strip, then attach: when [strip_checks_from_tagged] returns a base
    text and checks, there is one check of [max(1, n)] scalars per token, and
    [attach_checks_to_cipher] on them gives the tagged text back. *)
Theorem strip_then_attach_gives_tagged :
  forall (tagged : str) (N : Z) (base : str) (given : list str),
    PhonoShift.strip_checks_from_tagged tagged N = Some (base, given) ->
    PhonoShift.attach_checks_to_cipher base given = Ok tagged
    /\ Z.of_nat (length given) = PhonoShift.count_tokens_simple tagged
    /\ Forall (fun chk => len chk = Z.max 1 N) given.
Proof.
  intros tagged N base given H.
  destruct (strip_then_attach PhonoShift.is_token_sep tagged N base given H) as (H1 & H2 & H3).
  repeat split; [exact H1 | now rewrite CounterProofs.count_tokens_simple_spec, H2 |].
  eapply Forall_impl; [|exact H3]. cbv beta. unfold len. intros chk E. rewrite E. lia.
Qed.

Lemma strip_then_attach_gives_tagged_witness :
  PhonoShift.strip_checks_from_tagged (lit "abX-deY") 1 = Some (lit "ab-de", [lit "X"; lit "Y"])
  /\ PhonoShift.attach_checks_to_cipher (lit "ab-de") [lit "X"; lit "Y"] = Ok (lit "abX-deY")
  /\ Z.of_nat (length [lit "X"; lit "Y"]) = PhonoShift.count_tokens_simple (lit "abX-deY")
  /\ Forall (fun chk => len chk = Z.max 1 1) [lit "X"; lit "Y"].
Proof.
  split; [reflexivity|].
  apply (strip_then_attach_gives_tagged (lit "abX-deY") 1 (lit "ab-de") [lit "X"; lit "Y"]).
  reflexivity.
Defined.

(** X7. [strip_checks_from_tagged] fails exactly on a text that has a token
    of at most [max(1, n)] scalars, that is, when [count_tokens_simple] is
    positive and [min_token_len_simple] is at most [max(1, n)]. *)
Theorem strip_checks_from_tagged_fails_iff :
  forall (tagged : str) (N : Z),
    PhonoShift.strip_checks_from_tagged tagged N = None
    <-> 0 < PhonoShift.count_tokens_simple tagged
        /\ PhonoShift.min_token_len_simple tagged <= Z.max 1 N.
Proof.
  intros tagged N. unfold PhonoShift.strip_checks_from_tagged.
  rewrite strip_by_segments, seg_strip_none.
  rewrite <- (CounterProofs.min_token_len_simple_le tagged (Z.to_nat (Z.max 1 N))).
  replace (Z.of_nat (Z.to_nat (Z.max 1 N))) with (Z.max 1 N) by lia. reflexivity.
Qed.

(** X8. A tagged text without tokens verifies under every key:
    [rot500k_token_tagged_decrypt] on a text made of token separators only
    (the empty text included) returns ok with the text itself, after the
    punctuation shift has been undone. *)
Theorem token_free_text_is_accepted :
  forall (tagged password salt : str) (iterations N : Z) (shift_punct : bool),
    forallb PhonoShift.is_token_sep tagged = true ->
    PhonoShift.rot500k_token_tagged_decrypt tagged password iterations salt N shift_punct
    = mkVerified true
        (if shift_punct
         then PhonoShift.punct_shift_apply tagged password iterations salt (-1)
         else tagged).
Proof. intros. now apply TokenModeProofs.token_free_accepted. Qed.

Lemma token_free_text_is_accepted_witness :
  forallb PhonoShift.is_token_sep (lit ", ") = true
  /\ PhonoShift.rot500k_token_tagged_decrypt (lit ", ") Examples.pw 1000 Examples.salt 1 false
     = mkVerified true (lit ", ").
Proof.
  split; [reflexivity|].
  apply (token_free_text_is_accepted (lit ", ") Examples.pw Examples.salt 1000 1 false).
  reflexivity.
Defined.

(** X9. A tagged text with a token of at most [max(1, n)] scalars is
    rejected under every key. *)
Theorem short_token_is_rejected :
  forall (tagged password salt : str) (iterations N : Z) (shift_punct : bool),
    0 < PhonoShift.count_tokens_simple tagged ->
    PhonoShift.min_token_len_simple tagged <= Z.max 1 N ->
    PhonoShift.rot500k_token_tagged_decrypt tagged password iterations salt N shift_punct
    = mkVerified false [].
Proof. intros. now apply TokenModeProofs.short_token_rejected. Qed.

Lemma short_token_is_rejected_witness :
  0 < PhonoShift.count_tokens_simple (lit "a bcd")
  /\ PhonoShift.min_token_len_simple (lit "a bcd") <= Z.max 1 1
  /\ PhonoShift.rot500k_token_tagged_decrypt (lit "a bcd") Examples.pw 1000 Examples.salt 1 true
     = mkVerified false [].
Proof.
  split; [reflexivity|]. split; [vm_compute; discriminate|].
  apply short_token_is_rejected; [reflexivity | vm_compute; discriminate].
Defined.

(** X10. Every token check is [max(1, n)] scalars long and is made of ASCII
    digits only, of lowercase consonants only, or of uppercase consonants
    only; there is one check per token. *)
Theorem token_checks_shape :
  forall (plain password salt : str) (iterations N : Z),
    let checks := PhonoShift.build_plain_token_checks plain password salt iterations N in
    Z.of_nat (length checks) = PhonoShift.count_tokens_simple plain
    /\ Forall (fun chk =>
                 len chk = Z.max 1 N
                 /\ (forallb is_digit chk = true
                     \/ forallb (contains PhonoShift.CONSET) chk = true
                     \/ forallb (fun c => is_ascii_upper c
                                          && contains PhonoShift.CONSET (to_lower_ascii c))
                          chk = true))
         checks.
Proof.
  intros plain password salt iterations N. cbv zeta. unfold PhonoShift.build_plain_token_checks.
  split.
  - rewrite CounterProofs.count_tokens_simple_spec.
    now rewrite (build_checks_count PhonoShift.is_token_sep).
  - apply build_loop_Forall. intros k t.
    destruct (CheckAlphabetProofs.phono_token_check_shape password salt iterations N k t)
      as [Hl Ha].
    split; [unfold len; rewrite Hl; lia | exact Ha].
Qed.

(** ** PhonoShift: the auto-select mode (ROT500KV) *)

(** X11. KV roundtrip on the token path: when [should_use_token_tagged]
    holds of the name, [rot500kv_safe_encrypt] returns a text that
    [rot500kv_decrypt] accepts with the name. *)
Theorem rot500kv_token_path_roundtrip :
  forall (name password salt : str) (iterations N : Z) (shift_punct : bool),
    PhonoShift.should_use_token_tagged name N = true ->
    exists out,
      PhonoShift.rot500kv_safe_encrypt name password iterations salt N shift_punct = Ok out
      /\ PhonoShift.rot500kv_decrypt out password iterations salt N shift_punct
         = mkVerified true name.
Proof. intros. now apply AutoSelectProofs.kv_token_path. Qed.

Lemma rot500kv_token_path_roundtrip_witness :
  PhonoShift.should_use_token_tagged (lit "abc-def") 1 = true
  /\ exists out,
       PhonoShift.rot500kv_safe_encrypt (lit "abc-def") Examples.pw 1000 Examples.salt 1 true
       = Ok out
       /\ PhonoShift.rot500kv_decrypt out Examples.pw 1000 Examples.salt 1 true
          = mkVerified true (lit "abc-def").
Proof.
  split; [reflexivity|]. apply rot500kv_token_path_roundtrip. reflexivity.
Defined.

(** X12. [rot500kv_safe_encrypt] never raises, and for a non-empty name
    [rot500kv_safe_decrypt] accepts its output; the value is the name unless
    the token decoder, which is tried first, accepts a prefix-tagged text. *)
Theorem rot500kv_safe_encrypt_is_accepted :
  forall (name password salt : str) (iterations N : Z) (shift_punct : bool),
    name <> [] ->
    exists out,
      PhonoShift.rot500kv_safe_encrypt name password iterations salt N shift_punct = Ok out
      /\ ok (PhonoShift.rot500kv_safe_decrypt out password iterations salt N shift_punct) = true
      /\ (ok (PhonoShift.rot500k_token_tagged_decrypt out password iterations salt N
                shift_punct) = false ->
          value (PhonoShift.rot500kv_safe_decrypt out password iterations salt N shift_punct)
          = name).
Proof. intros. now apply AutoSelectProofs.kv_accepts. Qed.

Lemma rot500kv_safe_encrypt_is_accepted_witness :
  lit "Ana" <> []
  /\ exists out,
       PhonoShift.rot500kv_safe_encrypt (lit "Ana") Examples.pw 1000 Examples.salt 1 true
       = Ok out
       /\ ok (PhonoShift.rot500kv_safe_decrypt out Examples.pw 1000 Examples.salt 1 true) = true
       /\ (ok (PhonoShift.rot500k_token_tagged_decrypt out Examples.pw 1000 Examples.salt 1
                 true) = false ->
           value (PhonoShift.rot500kv_safe_decrypt out Examples.pw 1000 Examples.salt 1 true)
           = lit "Ana").
Proof.
  split; [discriminate|]. apply rot500kv_safe_encrypt_is_accepted. discriminate.
Defined.

(** X13. The guard against double encryption: a token-tagged text with at
    least two tokens looks like a cipher text to [looks_like_rot500k_cipher],
    and [rot500kv] on it, with the same key and check length, returns the
    plaintext instead of encrypting again. *)
Theorem rot500kv_returns_plaintext_of_tagged :
  forall (name password salt : str) (iterations N : Z) (shift_punct : bool),
    2 <= PhonoShift.count_tokens_simple name ->
    exists tagged,
      PhonoShift.rot500k_token_tagged name password iterations salt N shift_punct = Ok tagged
      /\ PhonoShift.looks_like_rot500k_cipher tagged N = true
      /\ PhonoShift.rot500kv tagged password iterations salt N shift_punct = Ok name.
Proof.
  intros name password salt iterations N sp H2.
  destruct (GuardProofs.token_tagged_looks_tagged name password iterations salt N sp H2)
    as [tagged [He Hl]].
  destruct (GuardProofs.kv_toggle name password iterations salt N sp H2) as [tagged' [He' Hk]].
  rewrite He in He'. injection He' as <-. eauto.
Qed.

Lemma rot500kv_returns_plaintext_of_tagged_witness :
  2 <= PhonoShift.count_tokens_simple (lit "hello world")
  /\ exists tagged,
       PhonoShift.rot500k_token_tagged (lit "hello world") Examples.pw 1000 Examples.salt 1 true
       = Ok tagged
       /\ PhonoShift.looks_like_rot500k_cipher tagged 1 = true
       /\ PhonoShift.rot500kv tagged Examples.pw 1000 Examples.salt 1 true
          = Ok (lit "hello world").
Proof.
  split; [vm_compute; discriminate|].
  apply rot500kv_returns_plaintext_of_tagged. vm_compute. discriminate.
Defined.

(** ** PhonoShift: the base mode *)

(** X14. [rot500k_encrypt] is format-preserving, place by place: the cipher
    scalar answers every class test of the transform (separator, digit, ASCII
    upper, ASCII lower, vowel, accented vowel of either case, cedilla of
    either case) as the plaintext scalar does. *)
Theorem rot500k_encrypt_keeps_format :
  forall (text password salt : str) (iterations : Z) (shift_punct : bool),
    Forall2 (fun a b => PhonoFormat.format b = PhonoFormat.format a) text
      (PhonoShift.rot500k_encrypt text password iterations salt shift_punct).
Proof. intros. apply FormatProofs.encrypt_format. Qed.

(** X15. [rot500k_encrypt] moves every letter: an ASCII letter or accented
    vowel of the plaintext is never the scalar at its place in the cipher
    text, whatever the key. *)
Theorem rot500k_encrypt_moves_every_letter :
  forall (text password salt : str) (iterations : Z) (shift_punct : bool),
    Forall2 (fun a b => PhonoFormat.rotated_letter a = true -> b <> a) text
      (PhonoShift.rot500k_encrypt text password iterations salt shift_punct).
Proof. intros. apply FormatProofs.encrypt_moves_letters. Qed.

(** X16. The no-zero rotation never stands still: in an alphabet of at least
    two pairwise-distinct scalars, [rotate_in_set_no_zero] maps every scalar
    of the alphabet to another one, for every shift (0 included). *)
Theorem rotate_in_set_no_zero_never_fixes :
  forall (A : str) (ch shift : Z),
    NoDup A -> 2 <= len A -> In ch A -> rotate_in_set_no_zero A ch shift <> ch.
Proof. intros. now apply rotate_in_set_no_zero_moves. Qed.

Lemma rotate_in_set_no_zero_never_fixes_witness :
  NoDup (lit "abc") /\ 2 <= len (lit "abc") /\ In 97 (lit "abc")
  /\ rotate_in_set_no_zero (lit "abc") 97 0 <> 97.
Proof.
  assert (Hnd : NoDup (lit "abc")) by (apply distinct_NoDup; reflexivity).
  assert (Hlen : 2 <= len (lit "abc")) by (vm_compute; discriminate).
  assert (Hin : In 97 (lit "abc")) by (apply contains_In; reflexivity).
  split; [exact Hnd|]. split; [exact Hlen|]. split; [exact Hin|].
  exact (rotate_in_set_no_zero_never_fixes (lit "abc") 97 0 Hnd Hlen Hin).
Defined.

(** X17. The keystream outlasts the text: [derive_keystream] is asked for
    [len(s) + 64] bytes, so the cursor of [transform_name_name_like_fpe]
    never wraps; after the loop it is the number of scalars of the text that
    are not separators. *)
Theorem keystream_cursor_never_wraps :
  forall (s password salt : str) (iterations direction : Z),
    Z.of_nat
      (PhonoFormat.cursor_after
         (PhonoShift.derive_keystream password salt iterations (len s + 64)) direction s 0)
    = count (fun c => negb (is_separator c)) s.
Proof.
  intros s password salt iterations direction.
  rewrite CursorProofs.cursor_after_no_wrap; [lia|].
  unfold PhonoShift.derive_keystream. rewrite keystream_length. unfold len. lia.
Qed.

(** ** KanaShift: the rotators *)

(** X18. The allow-zero rotation is undone by the negated shift for every
    shift, and a shift that is a multiple of the alphabet's size leaves a
    scalar of the alphabet in place. *)
Theorem rotate_in_set_allow_zero_inverse :
  forall (A : str) (ch shift m : Z),
    NoDup A ->
    KanaShift.rotate_in_set_allow_zero A (KanaShift.rotate_in_set_allow_zero A ch shift)
      (- shift) = ch
    /\ (In ch A -> KanaShift.rotate_in_set_allow_zero A ch (m * len A) = ch).
Proof.
  intros A ch shift m Hnd. split.
  - now apply RotatorProofs.rotate_in_set_allow_zero_back.
  - apply RotatorProofs.rotate_in_set_allow_zero_full_turn.
Qed.

Lemma rotate_in_set_allow_zero_inverse_witness :
  NoDup (lit "aeiou")
  /\ KanaShift.rotate_in_set_allow_zero (lit "aeiou")
       (KanaShift.rotate_in_set_allow_zero (lit "aeiou") 97 7) (- 7) = 97
  /\ (In 97 (lit "aeiou") -> KanaShift.rotate_in_set_allow_zero (lit "aeiou") 97
                               (3 * len (lit "aeiou")) = 97).
Proof.
  assert (Hnd : NoDup (lit "aeiou")) by (apply distinct_NoDup; reflexivity).
  split; [exact Hnd|].
  exact (rotate_in_set_allow_zero_inverse (lit "aeiou") 97 7 3 Hnd).
Defined.

(** X19. [rotate_codepoint_range_no_zero] on a range of at least two code
    points: a code point of the range goes to another code point of the
    range, the negated nonzero shift brings it back, and a code point outside
    the range is returned unchanged. *)
Theorem rotate_codepoint_range_no_zero_facts :
  forall (c shift lo hi : Z),
    lo < hi ->
    (lo <= c <= hi ->
     lo <= KanaShift.rotate_codepoint_range_no_zero c shift lo hi <= hi
     /\ KanaShift.rotate_codepoint_range_no_zero c shift lo hi <> c
     /\ (shift <> 0 ->
         KanaShift.rotate_codepoint_range_no_zero
           (KanaShift.rotate_codepoint_range_no_zero c shift lo hi) (- shift) lo hi = c))
    /\ (c < lo \/ hi < c -> KanaShift.rotate_codepoint_range_no_zero c shift lo hi = c).
Proof.
  intros c shift lo hi Hlo. split.
  - intros Hc. repeat split.
    + now apply KanaProofs.rotate_codepoint_range_bounds.
    + now apply KanaProofs.rotate_codepoint_range_bounds.
    + now apply RotatorProofs.rotate_codepoint_range_moves.
    + intros Hs. now apply KanaProofs.rotate_codepoint_range_inv.
  - apply RotatorProofs.rotate_codepoint_range_outside.
Qed.

Lemma rotate_codepoint_range_no_zero_facts_witness :
  19968 < 40959
  /\ (19968 <= 23436 <= 40959 ->
      19968 <= KanaShift.rotate_codepoint_range_no_zero 23436 256 19968 40959 <= 40959
      /\ KanaShift.rotate_codepoint_range_no_zero 23436 256 19968 40959 <> 23436
      /\ (256 <> 0 ->
          KanaShift.rotate_codepoint_range_no_zero
            (KanaShift.rotate_codepoint_range_no_zero 23436 256 19968 40959) (- 256) 19968 40959
          = 23436))
  /\ (23436 < 19968 \/ 40959 < 23436 ->
      KanaShift.rotate_codepoint_range_no_zero 23436 256 19968 40959 = 23436).
Proof.
  split; [lia|]. apply rotate_codepoint_range_no_zero_facts. lia.
Defined.

(** ** KanaShift: the base modes *)

(** X20. [punct_translate] back and forth: translating to fullwidth and back
    returns the text exactly when the text holds none of the thirteen
    fullwidth signs of the table. *)
Theorem punct_translate_roundtrip_iff :
  forall s : str,
    KanaShift.punct_translate (KanaShift.punct_translate s 1) (-1) = s
    <-> forallb (fun c => negb (contains KanaClasses.fullwidth_punct c)) s = true.
Proof. intros. apply KanaFormatProofs.punct_translate_back. Qed.

(** X21. The skin leaves no Latin scalar: the output of
    [kanashift_skin_encrypt] holds no ASCII digit, no ASCII letter, no
    accented vowel of the plain alphabets and no cedilla. *)
Theorem kanashift_skin_encrypt_leaves_no_latin :
  forall (text password salt : str) (iterations : Z) (shift_punct : bool),
    forallb (fun c => negb (KanaFormat.skin_latin c))
      (KanaShift.kanashift_skin_encrypt text password iterations salt shift_punct) = true.
Proof. intros. apply KanaFormatProofs.skin_encrypt_no_latin. Qed.

(** X22. The cedilla is not keyed in the skin family: at the place of every
    "ç" of the plaintext the cipher text holds the marker "ゞ", and "ヾ" at
    the place of every "Ç", whatever the key. *)
Theorem kanashift_skin_encrypt_marks_cedilla :
  forall (text password salt : str) (iterations : Z) (shift_punct : bool),
    Forall2 KanaFormat.cedilla_marked text
      (KanaShift.kanashift_skin_encrypt text password iterations salt shift_punct).
Proof. intros. apply CedillaProofs.skin_encrypt_cedilla. Qed.

(** X23. [kanashift_jp_encrypt] keeps the script, place by place: hiragana
    stays hiragana, katakana katakana, kanji kanji, an ASCII letter keeps its
    case and stays a vowel or a consonant; separators and stable marks stay
    where they are. *)
Theorem kanashift_jp_encrypt_keeps_script :
  forall (text password salt : str) (iterations : Z) (shift_punct : bool),
    Forall2 KanaFormat.script_kept text
      (KanaShift.kanashift_jp_encrypt text password iterations salt shift_punct).
Proof. intros. apply KanaFormatProofs.jp_encrypt_script. Qed.

(** X24. Skin roundtrip whatever the key: a text without cipher glyphs,
    without fullwidth signs and without comma, full stop or a scalar of
    [P_MID] comes back from [kanashift_skin_decrypt] for every password,
    salt, iteration count and flag. *)
Theorem kanashift_skin_roundtrip_any_key :
  forall (text password salt : str) (iterations : Z) (shift_punct : bool),
    forallb KanaFormat.skin_safe text = true ->
    KanaShift.kanashift_skin_decrypt
      (KanaShift.kanashift_skin_encrypt text password iterations salt shift_punct)
      password iterations salt shift_punct = text.
Proof. intros. now apply KanaFormatProofs.skin_safe_roundtrip. Qed.

Lemma kanashift_skin_roundtrip_any_key_witness :
  forallb KanaFormat.skin_safe (lit "Olá Mundo! Ação 123") = true
  /\ KanaShift.kanashift_skin_decrypt
       (KanaShift.kanashift_skin_encrypt (lit "Olá Mundo! Ação 123") Examples.pw 1000
          Examples.salt true)
       Examples.pw 1000 Examples.salt true = lit "Olá Mundo! Ação 123".
Proof.
  split; [reflexivity|]. apply kanashift_skin_roundtrip_any_key. reflexivity.
Defined.

(** X25. JP-native roundtrip whatever the key: a text without digits of
    either width, kana, kanji, fullwidth signs, comma, full stop or a scalar
    of [P_MID] comes back from [kanashift_jp_decrypt] for every password,
    salt, iteration count and flag. *)
Theorem kanashift_jp_roundtrip_any_key :
  forall (text password salt : str) (iterations : Z) (shift_punct : bool),
    forallb KanaFormat.jp_safe text = true ->
    KanaShift.kanashift_jp_decrypt
      (KanaShift.kanashift_jp_encrypt text password iterations salt shift_punct)
      password iterations salt shift_punct = text.
Proof. intros. now apply KanaFormatProofs.jp_safe_roundtrip. Qed.

Lemma kanashift_jp_roundtrip_any_key_witness :
  forallb KanaFormat.jp_safe (lit "Hello World! ー (ok?)") = true
  /\ KanaShift.kanashift_jp_decrypt
       (KanaShift.kanashift_jp_encrypt (lit "Hello World! ー (ok?)") Examples.pw 1000
          Examples.salt true)
       Examples.pw 1000 Examples.salt true = lit "Hello World! ー (ok?)".
Proof.
  split; [reflexivity|]. apply kanashift_jp_roundtrip_any_key. reflexivity.
Defined.

(** X26. What [kanashift_skin_decrypt] gives back, for every input and key,
    holds no scalar the decoder reads as a cipher glyph (fullwidth digit,
    kana of a cipher alphabet, cedilla marker) and none of the fullwidth
    signs of the punctuation table. *)
Theorem kanashift_skin_decrypt_gives_plain_text :
  forall (obfuscated password salt : str) (iterations : Z) (shift_punct : bool),
    forallb KanaClasses.skin_plain_scalar
      (KanaShift.kanashift_skin_decrypt obfuscated password iterations salt shift_punct)
    = true.
Proof. intros. apply DecoderRangeProofs.skin_decrypt_plain. Qed.

(** X27. What [kanashift_jp_decrypt] gives back, for every input and key,
    holds no fullwidth digit and none of the fullwidth signs of the
    punctuation table. *)
Theorem kanashift_jp_decrypt_gives_plain_text :
  forall (obfuscated password salt : str) (iterations : Z) (shift_punct : bool),
    forallb KanaClasses.jp_plain_scalar
      (KanaShift.kanashift_jp_decrypt obfuscated password iterations salt shift_punct)
    = true.
Proof. intros. apply DecoderRangeProofs.jp_decrypt_plain. Qed.

(** ** KanaShift: the token-verified mode *)

(** X28. Skin KT roundtrip: for a text without cipher glyphs and fullwidth
    signs, the text returned by [kanashift_skin_token_encrypt] is accepted by
    [kanashift_skin_token_decrypt] with the text, provided (with
    shift_punct) no scalar of [P_MID] of the tagged text meets a zero
    keystream byte in the punctuation shift. *)
Theorem kanashift_skin_token_roundtrip :
  forall (text password salt : str) (iterations N : Z) (shift_punct : bool) (tagged : str),
    forallb KanaClasses.skin_plain_scalar text = true ->
    KanaShift.kanashift_skin_token_encrypt text password iterations salt N shift_punct
    = Ok tagged ->
    (shift_punct = true ->
     KanaClasses.punct_keys_zero_free tagged password iterations salt = true) ->
    KanaShift.kanashift_skin_token_decrypt tagged password iterations salt N shift_punct
    = mkVerified true text.
Proof. intros. now apply KanaTokenProofs.skin_token_roundtrip. Qed.

Lemma kanashift_skin_token_roundtrip_witness :
  forallb KanaClasses.skin_plain_scalar Examples.skin_text = true
  /\ KanaShift.kanashift_skin_token_encrypt Examples.skin_text Examples.pw 1 Examples.salt 2
       true = Ok TaggedExamples.skin_tagged
  /\ KanaClasses.punct_keys_zero_free TaggedExamples.skin_tagged Examples.pw 1 Examples.salt
     = true
  /\ KanaShift.kanashift_skin_token_decrypt TaggedExamples.skin_tagged Examples.pw 1
       Examples.salt 2 true
     = mkVerified true Examples.skin_text.
Proof.
  assert (H1 : forallb KanaClasses.skin_plain_scalar Examples.skin_text = true)
    by (vm_compute; reflexivity).
  assert (H2 : KanaShift.kanashift_skin_token_encrypt Examples.skin_text Examples.pw 1
                 Examples.salt 2 true = Ok TaggedExamples.skin_tagged)
    by (vm_compute; reflexivity).
  assert (H3 : KanaClasses.punct_keys_zero_free TaggedExamples.skin_tagged Examples.pw 1
                 Examples.salt = true) by (vm_compute; reflexivity).
  split; [exact H1|]. split; [exact H2|]. split; [exact H3|].
  exact (kanashift_skin_token_roundtrip Examples.skin_text Examples.pw Examples.salt 1 2 true
           TaggedExamples.skin_tagged H1 H2 (fun _ => H3)).
Defined.

(** X29. JP-native KT roundtrip: for a text without fullwidth digits and
    fullwidth signs, the text returned by [kanashift_jp_token_encrypt] is
    accepted by [kanashift_jp_token_decrypt] with the text, provided no
    digit, kana or kanji of the text meets a zero keystream byte in the core
    transform and (with shift_punct) no scalar of [P_MID] of the tagged text
    meets one in the punctuation shift. *)
Theorem kanashift_jp_token_roundtrip :
  forall (text password salt : str) (iterations N : Z) (shift_punct : bool) (tagged : str),
    forallb KanaClasses.jp_plain_scalar text = true ->
    KanaClasses.jp_keys_zero_free text password iterations salt = true ->
    KanaShift.kanashift_jp_token_encrypt text password iterations salt N shift_punct
    = Ok tagged ->
    (shift_punct = true ->
     KanaClasses.punct_keys_zero_free tagged password iterations salt = true) ->
    KanaShift.kanashift_jp_token_decrypt tagged password iterations salt N shift_punct
    = mkVerified true text.
Proof. intros. now apply KanaTokenProofs.jp_token_roundtrip. Qed.

Lemma kanashift_jp_token_roundtrip_witness :
  forallb KanaClasses.jp_plain_scalar Examples.jp_text = true
  /\ KanaClasses.jp_keys_zero_free Examples.jp_text Examples.pw 1 Examples.salt = true
  /\ KanaShift.kanashift_jp_token_encrypt Examples.jp_text Examples.pw 1 Examples.salt 1
       true = Ok TaggedExamples.jp_tagged
  /\ KanaClasses.punct_keys_zero_free TaggedExamples.jp_tagged Examples.pw 1 Examples.salt
     = true
  /\ KanaShift.kanashift_jp_token_decrypt TaggedExamples.jp_tagged Examples.pw 1
       Examples.salt 1 true
     = mkVerified true Examples.jp_text.
Proof.
  assert (H1 : forallb KanaClasses.jp_plain_scalar Examples.jp_text = true)
    by (vm_compute; reflexivity).
  assert (H0 : KanaClasses.jp_keys_zero_free Examples.jp_text Examples.pw 1 Examples.salt
               = true) by (vm_compute; reflexivity).
  assert (H2 : KanaShift.kanashift_jp_token_encrypt Examples.jp_text Examples.pw 1
                 Examples.salt 1 true = Ok TaggedExamples.jp_tagged)
    by (vm_compute; reflexivity).
  assert (H3 : KanaClasses.punct_keys_zero_free TaggedExamples.jp_tagged Examples.pw 1
                 Examples.salt = true) by (vm_compute; reflexivity).
  split; [exact H1|]. split; [exact H0|]. split; [exact H2|]. split; [exact H3|].
  exact (kanashift_jp_token_roundtrip Examples.jp_text Examples.pw Examples.salt 1 1 true
           TaggedExamples.jp_tagged H1 H0 H2 (fun _ => H3)).
Defined.

(** X30. The length of a kana token-tagged text: both KT encoders return a
    text, with [max(1, check_chars_per_token)] scalars more than the
    plaintext for each of its tokens. *)
Theorem kanashift_token_encrypt_length :
  forall (text password salt : str) (iterations N : Z) (shift_punct : bool),
    (exists tagged,
        KanaShift.kanashift_skin_token_encrypt text password iterations salt N shift_punct
        = Ok tagged
        /\ len tagged
           = len text
             + Z.max 1 N * Z.of_nat (length (Shapes.tokens KanaShift.is_token_sep text)))
    /\ (exists tagged,
           KanaShift.kanashift_jp_token_encrypt text password iterations salt N shift_punct
           = Ok tagged
           /\ len tagged
              = len text
                + Z.max 1 N * Z.of_nat (length (Shapes.tokens KanaShift.is_token_sep text))).
Proof.
  intros text password salt iterations N sp. split.
  - unfold KanaShift.kanashift_skin_token_encrypt.
    apply (KanaTokenProofs.family_token_length text password iterations salt N sp
             KanaShift._skin_transform).
    + apply KanaProofs.skin_transform_aligned.
    + apply KanaProofs.skin_transform_length.
  - unfold KanaShift.kanashift_jp_token_encrypt.
    apply (KanaTokenProofs.family_token_length text password iterations salt N sp
             KanaShift._jp_native_transform).
    + apply KanaProofs.jp_transform_aligned.
    + apply KanaProofs.jp_transform_length.
Qed.
